(** * Job board: normalisation, salary estimation, filtering and paging

    A shallow embedding of [app.py] (the Flask job board) and the
    properties of its core pipeline: [clean_text], [parse_salary_monthly],
    [parse_date], the keyword classifiers, [apply_filters], the paging
    arithmetic of [index] and the lookup of [api_job_detail].

    Conventions of the embedding.
    - A Python [str] is a [list ascii]; a character is the code point of
      the same number, so the strings covered are those of the Latin-1
      block (U+0000..U+00FF).  Character classes ([str.isspace], the line
      boundaries of [str.splitlines], [\d], [\s], [str.lower]) are the
      restrictions of Python's to that block.
    - A Python [float] is an IEEE-754 binary64 value, [spec_float] with
      precision 53 and maximal exponent 1024, rounded to nearest even.
    - Exceptions are values: a computation that may raise returns a
      [result].
    - Standard-library functions the program imports ([html.unescape], the
      [datetime] parsers and [strftime]) are parameters of the sections
      that use them. *)

From Stdlib Require Import ZArith NArith List Bool Ascii String Lia.
From Stdlib Require Import Floats.SpecFloat.
From Stdlib Require Import Sorting.Permutation Sorting.Sorted.
From stdpp Require Import gmap strings list.

Local Open Scope list_scope.

(* ===================================================================== *)
(** * Python values: exceptions, strings, characters                      *)
(* ===================================================================== *)

Module Py.

(** The exception classes that occur in the program or in the library
    calls it makes. *)
Inductive exn :=
| ValueError | TypeError | IndexError | OverflowError | ZeroDivisionError.

Definition exn_eqb (a b : exn) : bool :=
  match a, b with
  | ValueError, ValueError | TypeError, TypeError | IndexError, IndexError
  | OverflowError, OverflowError | ZeroDivisionError, ZeroDivisionError => true
  | _, _ => false
  end.

Inductive result (A : Type) :=
| Ret (a : A)
| Raise (e : exn).
Arguments Ret {A} a.
Arguments Raise {A} e.

Definition bind {A B} (r : result A) (f : A -> result B) : result B :=
  match r with
  | Ret a => f a
  | Raise e => Raise e
  end.

(** [try: r  except (classes): handler] *)
Definition try_except {A} (r : result A) (classes : list exn) (handler : result A)
  : result A :=
  match r with
  | Ret a => Ret a
  | Raise e => if existsb (exn_eqb e) classes then handler else Raise e
  end.

Definition returns {A} (r : result A) : Prop := exists a, r = Ret a.

Definition str := list ascii.
Definition u (s : string) : str := list_ascii_of_string s.

Definition code (c : ascii) : N := N_of_ascii c.
Definition chr (n : N) : ascii := ascii_of_N n.

Definition in_codes (l : list N) (c : ascii) : bool := existsb (N.eqb (code c)) l.

(** [str.isspace] on one character; also the class [\s] of [re]. *)
Definition is_space : ascii -> bool :=
  in_codes [9; 10; 11; 12; 13; 28; 29; 30; 31; 32; 133; 160]%N.

(** The line boundaries of [str.splitlines]. *)
Definition is_linebreak : ascii -> bool :=
  in_codes [10; 11; 12; 13; 28; 29; 30; 133]%N.

(** The class [\d] of [re]. *)
Definition is_digit (c : ascii) : bool := (48 <=? code c)%N && (code c <=? 57)%N.

Definition lower_char (c : ascii) : ascii :=
  let n := code c in
  if ((65 <=? n) && (n <=? 90) || (192 <=? n) && (n <=? 222) && negb (n =? 215))%N
  then chr (n + 32) else c.

(** [s.lower()] *)
Definition lower (s : str) : str := map lower_char s.

Definition ch_eqb (a b : ascii) : bool := Ascii.eqb a b.

Fixpoint str_eqb (a b : str) : bool :=
  match a, b with
  | [], [] => true
  | x :: a', y :: b' => ch_eqb x y && str_eqb a' b'
  | _, _ => false
  end.

Fixpoint startswith (p s : str) : bool :=
  match p, s with
  | [], _ => true
  | x :: p', y :: s' => ch_eqb x y && startswith p' s'
  | _ :: _, [] => false
  end.

(** [sub in s] *)
Fixpoint contains (sub s : str) : bool :=
  startswith sub s ||
  match s with
  | [] => false
  | _ :: s' => contains sub s'
  end.

Fixpoint lstrip (s : str) : str :=
  match s with
  | c :: s' => if is_space c then lstrip s' else s
  | [] => []
  end.

(** [s.strip()] *)
Definition strip (s : str) : str := rev (lstrip (rev (lstrip s))).

(** [sep.join(l)] *)
Fixpoint join (sep : str) (l : list str) : str :=
  match l with
  | [] => []
  | [x] => x
  | x :: l' => x ++ sep ++ join sep l'
  end.

(** [s.split()]: the maximal runs of non-whitespace characters. *)
Fixpoint split (s : str) : list str :=
  match s with
  | [] => []
  | c :: s' =>
      if is_space c then split s'
      else match s' with
           | [] => [[c]]
           | c' :: _ =>
               if is_space c' then [c] :: split s'
               else match split s' with
                    | w :: ws => (c :: w) :: ws
                    | [] => [[c]]
                    end
           end
  end.

(** [s.splitlines()]: lines without their boundaries; a carriage return
    followed by a line feed is one boundary; no empty last line. *)
Fixpoint splitlines (s : str) : list str :=
  match s with
  | [] => []
  | c :: s' =>
      if is_linebreak c then
        [] :: match s' with
              | c' :: s'' =>
                  if ch_eqb c "013" && ch_eqb c' "010" then splitlines s''
                  else splitlines s'
              | [] => []
              end
      else match splitlines s' with
           | l :: ls => (c :: l) :: ls
           | [] => [[c]]
           end
  end.

(** [s.replace(old, new)] for a non-empty [old]. *)
Fixpoint replace_aux (old new : str) (skip : nat) (s : str) : str :=
  match s with
  | [] => []
  | c :: s' =>
      match skip with
      | S k => replace_aux old new k s'
      | O => if startswith old s
             then new ++ replace_aux old new (length old - 1) s'
             else c :: replace_aux old new 0 s'
      end
  end.
Definition replace (old new s : str) : str := replace_aux old new 0 s.

End Py.
Export Py.
Coercion u : string >-> str.
Notation "'let*' x ':=' r 'in' k" := (bind r (fun x => k))
  (at level 10, x pattern, r at level 200, k at level 200).

(* ===================================================================== *)
(** * The fragment of [re] the program uses                               *)
(* ===================================================================== *)

Module Re.

(** Patterns: one character of a class, a greedy [*] over a class, a
    greedy [?], concatenation.  [c+] is [c] followed by [c*]. *)
Inductive regex :=
| Eps
| Chr (p : ascii -> bool)
| Star (p : ascii -> bool)
| Opt (r : regex)
| Seq (r1 r2 : regex).

Definition Plus (p : ascii -> bool) : regex := Seq (Chr p) (Star p).
Definition cat (l : list regex) : regex := fold_right Seq Eps l.

Definition lit (c : ascii) : ascii -> bool := ch_eqb c.
(** a lower-case pattern letter under [re.IGNORECASE] *)
Definition lit_i (c : ascii) : ascii -> bool := fun x => ch_eqb c (lower_char x).
Definition not_lit (c : ascii) : ascii -> bool := fun x => negb (ch_eqb c x).

(** Backtracking matcher in continuation-passing style: the longest
    repetition is tried first, then shorter ones. *)
Fixpoint star_match {A} (p : ascii -> bool) (k : str -> option A) (s : str)
  : option A :=
  match s with
  | c :: s' =>
      if p c then
        match star_match p k s' with
        | Some x => Some x
        | None => k s
        end
      else k s
  | [] => k []
  end.

Fixpoint mtch {A} (r : regex) (k : str -> option A) (s : str) : option A :=
  match r with
  | Eps => k s
  | Chr p => match s with
             | c :: s' => if p c then k s' else None
             | [] => None
             end
  | Star p => star_match p k s
  | Opt r1 => match mtch r1 k s with
              | Some x => Some x
              | None => k s
              end
  | Seq r1 r2 => mtch r1 (mtch r2 k) s
  end.

(** [pattern.match(s)]: what is left of [s] after the match. *)
Definition match_at (r : regex) (s : str) : option str := mtch r Some s.

(** [pattern.sub(repl, s)] for a constant replacement: leftmost matches,
    not overlapping.  [skip] counts the characters of the current match
    that are still to be passed over. *)
Fixpoint sub_aux (r : regex) (repl : str) (skip : nat) (s : str) : str :=
  match s with
  | [] => match match_at r [] with
          | Some _ => repl
          | None => []
          end
  | c :: s' =>
      match skip with
      | S k => sub_aux r repl k s'
      | O =>
          match match_at r s with
          | Some rest =>
              match length s - length rest with
              | O => repl ++ c :: sub_aux r repl 0 s'
              | S k => repl ++ sub_aux r repl k s'
              end
          | None => c :: sub_aux r repl 0 s'
          end
      end
  end.
Definition sub (r : regex) (repl s : str) : str := sub_aux r repl 0 s.

(** A pattern [pre(grp)] with one capturing group at its end: the text of
    the group and what is left after the match. *)
Definition match_group (pre grp : regex) (s : str) : option (str * str) :=
  mtch pre (fun s1 =>
    mtch grp (fun s2 => Some (firstn (length s1 - length s2) s1, s2)) s1) s.

(** [pattern.findall(s)] for such a pattern: the texts of the group. *)
Fixpoint findall_aux (pre grp : regex) (skip : nat) (s : str) : list str :=
  match s with
  | [] => match match_group pre grp [] with
          | Some (g, _) => [g]
          | None => []
          end
  | c :: s' =>
      match skip with
      | S k => findall_aux pre grp k s'
      | O =>
          match match_group pre grp s with
          | Some (g, rest) => g :: findall_aux pre grp (length s' - length rest) s'
          | None => findall_aux pre grp 0 s'
          end
      end
  end.
Definition findall (pre grp : regex) (s : str) : list str := findall_aux pre grp 0 s.

End Re.

(* ===================================================================== *)
(** * Text normaliser                                                     *)
(* ===================================================================== *)

Definition LF : str := ["010"%char].
Definition SP : str := [" "%char].

(** [_TAG_RE = re.compile(r"<[^>]+>")] *)
Definition _TAG_RE : Re.regex :=
  Re.cat [Re.Chr (Re.lit "<"); Re.Plus (Re.not_lit ">"); Re.Chr (Re.lit ">")].

(** [_BR_RE = re.compile(r"<\\s*br\\s*/?\\s*>", re.IGNORECASE)].  The
    pattern is a raw string, so each [\\] in it is the pattern of one
    literal backslash and the [s*] after it repeats the letter s. *)
Definition _BR_RE : Re.regex :=
  Re.cat [Re.Chr (Re.lit "<");
          Re.Chr (Re.lit "\"); Re.Star (Re.lit_i "s");
          Re.Chr (Re.lit_i "b"); Re.Chr (Re.lit_i "r");
          Re.Chr (Re.lit "\"); Re.Star (Re.lit_i "s");
          Re.Opt (Re.Chr (Re.lit "/"));
          Re.Chr (Re.lit "\"); Re.Star (Re.lit_i "s");
          Re.Chr (Re.lit ">")].

(** The pattern the docstring and the name of [_BR_RE] describe,
    [<\s*br\s*/?\s*>]: a line-break tag with optional whitespace. *)
Definition BR_TAG_RE : Re.regex :=
  Re.cat [Re.Chr (Re.lit "<"); Re.Star is_space;
          Re.Chr (Re.lit_i "b"); Re.Chr (Re.lit_i "r");
          Re.Star is_space; Re.Opt (Re.Chr (Re.lit "/")); Re.Star is_space;
          Re.Chr (Re.lit ">")].

Definition nonempty (s : str) : bool :=
  match s with
  | [] => false
  | _ :: _ => true
  end.

(** A JSON object whose members are strings or null. *)
Abbreviation record := (gmap string (option str)).

Section Text.
(** [html.unescape]; it raises [ValueError] on a decimal character
    reference longer than the interpreter's integer-digit limit. *)
Variable unescape : str -> result str.

(** The argument is a string or [None]; the [str(value)] branch for
    other values is not reached for members of a [record]. *)
Definition clean_text (value : option str) : result str :=
  match value with
  | None => Ret []
  | Some value =>
      let text := Re.sub _BR_RE LF value in
      let* text := unescape text in
      let text := Re.sub _TAG_RE SP text in
      let lines := map (fun line => join SP (split line)) (splitlines text) in
      Ret (join LF (List.filter nonempty lines))
  end.

Definition TEXT_KEYS : list string :=
  ["title"; "description"; "job_description"; "company"; "location";
   "salary"; "type"; "category"]%string.

Fixpoint normalize_keys (keys : list string) (job : record) : result record :=
  match keys with
  | [] => Ret job
  | key :: keys' =>
      match job !! key with
      | Some v =>
          let* t := clean_text v in
          normalize_keys keys' (<[key := Some t]> job)
      | None => normalize_keys keys' job
      end
  end.

Definition normalize_job_text (job : record) : result record :=
  normalize_keys TEXT_KEYS job.
End Text.

(** ** An instance of [html.unescape] for closed examples

    The algorithm of [html.unescape] for named character references over
    the entries of the HTML5 table listed in [html5]; it decodes no other
    reference and never raises. *)
Module Html.

Definition html5 : list (str * str) :=
  [(u "amp;", u "&"); (u "amp", u "&"); (u "lt;", u "<"); (u "lt", u "<");
   (u "gt;", u ">"); (u "gt", u ">"); (u "apos;", u "'");
   (u "nbsp;", [chr 160]); (u "nbsp", [chr 160])].

Fixpoint lookup (name : str) (t : list (str * str)) : option str :=
  match t with
  | [] => None
  | (k, v) :: t' => if str_eqb k name then Some v else lookup name t'
  end.

(** [[^\t\n\f <&#;]] *)
Definition name_char (c : ascii) : bool :=
  negb (in_codes [9; 10; 12; 32; 60; 38; 35; 59]%N c).

Fixpoint name_run (n : nat) (s : str) : str :=
  match n, s with
  | S n', c :: s' => if name_char c then c :: name_run n' s' else []
  | _, _ => []
  end.

(** the text matched by [[^\t\n\f <&#;]{1,32};?] at the head of [s] *)
Definition charref_name (s : str) : str :=
  let run := name_run 32 s in
  match run with
  | [] => []
  | _ => match skipn (length run) s with
         | c :: _ => if ch_eqb c ";" then run ++ [c] else run
         | [] => run
         end
  end.

(** the longest proper prefix of [name], of two characters at least, that
    the table knows *)
Fixpoint longest_prefix (x : nat) (name : str) : option str :=
  match x with
  | O | 1 => None
  | S x' =>
      match lookup (firstn x name) html5 with
      | Some v => Some (v ++ skipn x name)
      | None => longest_prefix x' name
      end
  end.

Definition replace_charref (name : str) : str :=
  match lookup name html5 with
  | Some v => v
  | None =>
      match longest_prefix (length name - 1) name with
      | Some t => t
      | None => "&"%char :: name
      end
  end.

Fixpoint unescape_aux (skip : nat) (s : str) : str :=
  match s with
  | [] => []
  | c :: s' =>
      match skip with
      | S k => unescape_aux k s'
      | O =>
          if ch_eqb c "&" then
            match charref_name s' with
            | [] => c :: unescape_aux 0 s'
            | name => replace_charref name ++ unescape_aux (length name) s'
            end
          else c :: unescape_aux 0 s'
      end
  end.

Definition unescape (s : str) : result str :=
  Ret (if contains (u "&") s then unescape_aux 0 s else s).

End Html.

(* ===================================================================== *)
(** * Python floats                                                       *)
(* ===================================================================== *)

Module Float.

Definition prec : Z := 53.
Definition emax : Z := 1024.
Abbreviation float := spec_float.

(** the conversion of an [int] operand *)
Definition of_Z (n : Z) : float := binary_normalize prec emax n 0 false.
Definition add : float -> float -> float := SFadd prec emax.
Definition mul : float -> float -> float := SFmul prec emax.
Definition div : float -> float -> float := SFdiv prec emax.
Definition ltb : float -> float -> bool := SFltb.
Definition leb : float -> float -> bool := SFleb.
(** [float('inf')] *)
Definition inf : float := S754_infinity false.

Definition is_zero (x : float) : bool :=
  match x with
  | S754_zero _ => true
  | _ => false
  end.

(** [x / y] *)
Definition truediv (x y : float) : result float :=
  if is_zero y then Raise ZeroDivisionError else Ret (div x y).

(** [sum(l)]: additions from the left, starting at 0, each rounded (the
    plain loop of CPython up to 3.11; later versions carry a compensation
    term through the same loop). *)
Definition sum (l : list float) : float := fold_left add l (of_Z 0).

(** [m / 10^k], rounded once *)
Definition of_decimal (m : N) (k : nat) : float :=
  match m with
  | N0 => S754_zero false
  | Npos p => div (S754_finite false p 0)
                  (S754_finite false (Z.to_pos (10 ^ Z.of_nat k)) 0)
  end.

Definition digit_val (c : ascii) : N := (code c - 48)%N.
Definition digits_val (ds : str) : N :=
  fold_left (fun acc c => (acc * 10 + digit_val c)%N) ds 0%N.

Fixpoint span_digits (s : str) : str * str :=
  match s with
  | c :: s' => if is_digit c
               then let '(ds, rest) := span_digits s' in (c :: ds, rest)
               else ([], s)
  | [] => ([], [])
  end.

(** [float(s)] on decimal literals without sign or exponent, which is
    every shape the salary pattern can capture ([salary_token_parses]);
    [ValueError] otherwise. *)
Definition of_str (s : str) : result float :=
  let '(ip, rest) := span_digits s in
  match rest with
  | [] => if nonempty ip then Ret (of_decimal (digits_val ip) 0)
          else Raise ValueError
  | c :: fp =>
      if ch_eqb c "." && forallb is_digit fp && (nonempty ip || nonempty fp)
      then Ret (of_decimal (digits_val (ip ++ fp)) (length fp))
      else Raise ValueError
  end.

End Float.
Import Float.

(* ===================================================================== *)
(** * Salary parser                                                       *)
(* ===================================================================== *)

(** [job.get(key) or ''] *)
Definition get_or_empty (job : record) (key : string) : str :=
  match job !! key with
  | Some (Some s) => s
  | _ => []
  end.

(** [_SALARY_NUM_RE = re.compile(r'[\$]?\s*([\d,]+(?:\.\d+)?)')]: what
    comes before the group, and the group. *)
Definition _SALARY_NUM_RE : Re.regex * Re.regex :=
  (Re.Seq (Re.Opt (Re.Chr (Re.lit "$"))) (Re.Star is_space),
   Re.Seq (Re.Plus (fun c => is_digit c || ch_eqb "," c))
          (Re.Opt (Re.Seq (Re.Chr (Re.lit ".")) (Re.Plus is_digit)))).

(** [any(kw in low for kw in kws)] *)
Definition any_in (kws : list str) (low : str) : bool :=
  existsb (fun kw => contains kw low) kws.

Definition SKIP_EXACT : list str :=
  [u "tbd"; u "n/a"; u "doe"; u "any"; u "negotiable"; u "project-based"].
Definition HOURLY : list str :=
  [u "/hr"; u "/hour"; u "per hour"; u "hourly"; u "hour"].
Definition YEARLY : list str := [u "/yr"; u "/year"; u "annual"; u "yearly"].
Definition WEEKLY : list str := [u "/w"; u "/week"; u "weekly"; u "per week"].
Definition MONTHLY : list str :=
  [u "/mo"; u "/month"; u "monthly"; u "per month"].

(** the loop over the captured tokens *)
Fixpoint salary_nums (tokens : list str) : result (list float) :=
  match tokens with
  | [] => Ret []
  | n :: tokens' =>
      let n := strip (replace (u ",") [] n) in
      let* here :=
        (if nonempty n
         then try_except (let* f := of_str n in Ret [f]) [ValueError] (Ret [])
         else Ret []) in
      let* more := salary_nums tokens' in
      Ret (here ++ more)
  end.

(** [sum(nums) / len(nums)] *)
Definition mean (nums : list float) : result float :=
  truediv (sum nums) (of_Z (Z.of_nat (length nums))).

(** the period keywords, then the magnitude of the mean *)
Definition to_monthly (low : str) (avg : float) : result float :=
  if any_in HOURLY low then Ret (mul avg (of_Z 160))
  else if any_in YEARLY low then truediv avg (of_Z 12)
  else if any_in WEEKLY low then Ret (mul avg (of_Z 4))
  else if any_in MONTHLY low then Ret avg
  else if ltb (of_Z 10000) avg then truediv avg (of_Z 12)
  else if ltb avg (of_Z 50) then Ret (mul avg (of_Z 160))
  else Ret avg.

Definition salary_skipped (low : str) : bool :=
  existsb (str_eqb low) SKIP_EXACT
  || contains (u "based on") low || contains (u "competitive") low.

Definition parse_salary_monthly (job : record) : result (option float) :=
  let raw := strip (get_or_empty job "salary") in
  if negb (nonempty raw) then Ret None
  else
    let low := lower raw in
    if salary_skipped low then Ret None
    else
      let* nums := salary_nums (Re.findall (fst _SALARY_NUM_RE) (snd _SALARY_NUM_RE) raw) in
      match nums with
      | [] => Ret None
      | _ :: _ =>
          let* avg := mean nums in
          let* m := to_monthly low avg in
          Ret (Some m)
      end.

(* ===================================================================== *)
(** * Classifier                                                          *)
(* ===================================================================== *)

Definition ARRANGEMENT_KEYWORDS : list (str * list str) :=
  [(u "remote", [u "remote"; u "work from home"; u "wfh"; u "anywhere"]);
   (u "hybrid", [u "hybrid"]);
   (u "onsite", [u "onsite"; u "on-site"; u "on site"; u "in-office"; u "in office"])].

Definition TYPE_KEYWORDS : list (str * list str) :=
  [(u "full-time", [u "full-time"; u "full time"; u "fulltime"]);
   (u "part-time", [u "part-time"; u "part time"; u "parttime"]);
   (u "contract", [u "contract"]);
   (u "freelance", [u "freelance"; u "gig"])].

(** the two nested loops: the first label, in table order, one of whose
    keywords occurs in [text] *)
Fixpoint first_label (table : list (str * list str)) (text : str) : str :=
  match table with
  | [] => []
  | (label, keywords) :: table' =>
      if any_in keywords text then label else first_label table' text
  end.

Definition detect_arrangement (job : record) : str :=
  let text := lower (join SP [get_or_empty job "location"; get_or_empty job "title";
                              get_or_empty job "category"; get_or_empty job "type"]) in
  first_label ARRANGEMENT_KEYWORDS text.

Definition detect_job_type (job : record) : str :=
  let text := lower (join SP [get_or_empty job "category"; get_or_empty job "type";
                              get_or_empty job "title"]) in
  first_label TYPE_KEYWORDS text.

(* ===================================================================== *)
(** * Date parser and loading                                             *)
(* ===================================================================== *)

(** A naive [datetime] is its distance from [datetime.min] in
    microseconds; the order of naive datetimes is the order of these. *)
Abbreviation datetime := N.
Definition datetime_min : datetime := 0%N.

(** What a library parser returns: wall-clock time and optional offset. *)
Record pydatetime := { wall : datetime; tzinfo : option Z }.

(** [dt.replace(tzinfo=None)] *)
Definition replace_tzinfo_none (dt : pydatetime) : datetime := wall dt.

(** A job after [load_jobs]: the dictionary is [fields], the members
    that came from the file, cleaned, together with the six members the
    loader assigns, which have their own types. *)
Record njob := {
  fields : record;
  id : Z;
  _arrangement : str;
  _job_type : str;
  _parsed_date : option datetime;
  _display_date : str;
  _salary_monthly : option float
}.

(** the keys [load_jobs] assigns: a member of the file under one of
    them is overwritten *)
Definition DERIVED_KEYS : list string :=
  ["id"; "_arrangement"; "_job_type"; "_parsed_date"; "_display_date";
   "_salary_monthly"]%string.

Definition without_derived (job : record) : record :=
  fold_right (fun key job => delete key job) job DERIVED_KEYS.

Section Loader.
Variable unescape : str -> result str.
(** [datetime.fromisoformat], [email.utils.parsedate_to_datetime],
    [datetime.strptime], [datetime.strftime] *)
Variable fromisoformat : str -> result pydatetime.
Variable parsedate_to_datetime : str -> result pydatetime.
Variable strptime : str -> str -> result pydatetime.
Variable strftime : datetime -> str -> str.

Definition date_raw (job : record) : str :=
  let a := get_or_empty job "posted_date" in
  strip (if nonempty a then a else get_or_empty job "date_posted").

Definition parse_date (job : record) : result (option datetime) :=
  let raw := date_raw job in
  if negb (nonempty raw) then Ret None
  else
    try_except
      (let* dt := fromisoformat raw in Ret (Some (replace_tzinfo_none dt)))
      [ValueError; TypeError]
    (try_except
      (let* dt := parsedate_to_datetime raw in Ret (Some (replace_tzinfo_none dt)))
      [ValueError; TypeError; IndexError]
    (try_except
      (let* dt := strptime raw (u "%b %d, %Y") in Ret (Some (wall dt)))
      [ValueError; TypeError]
    (try_except
      (let* dt := strptime raw (u "%Y-%m-%d") in Ret (Some (wall dt)))
      [ValueError; TypeError]
      (Ret None)))).

Definition format_date (dt : option datetime) : str :=
  match dt with
  | None => []
  | Some d => replace (u " 0") SP (strftime d (u "%b %d, %Y"))
  end.

(** the body of the loop of [load_jobs] for the job at position [idx] *)
Definition load_one (idx : Z) (job : record) : result njob :=
  let* job := normalize_job_text unescape job in
  let arrangement := detect_arrangement job in
  let job_type := detect_job_type job in
  let* parsed := parse_date job in
  let display := format_date parsed in
  let* salary := parse_salary_monthly job in
  Ret {| fields := without_derived job; id := idx; _arrangement := arrangement;
         _job_type := job_type; _parsed_date := parsed;
         _display_date := display; _salary_monthly := salary |}.

Fixpoint load_loop (idx : Z) (jobs : list record) : result (list njob) :=
  match jobs with
  | [] => Ret []
  | job :: jobs' =>
      let* j := load_one idx job in
      let* js := load_loop (idx + 1) jobs' in
      Ret (j :: js)
  end.

(** [file] is the decoded content of the jobs file, [None] when opening
    it raises [FileNotFoundError] or decoding it [JSONDecodeError]. *)
Definition load_jobs (file : option (list record)) : result (list njob) :=
  match file with
  | None => Ret []
  | Some jobs => load_loop 0 jobs
  end.
End Loader.

(* ===================================================================== *)
(** * Filter and sort engine                                              *)
(* ===================================================================== *)

(** [l.sort(key=..)] and [l.sort(key=.., reverse=True)] are stable: equal
    keys keep their order in both directions. *)
Fixpoint insert_by {A} (before : A -> A -> bool) (x : A) (l : list A) : list A :=
  match l with
  | [] => [x]
  | y :: l' => if before x y then x :: l else y :: insert_by before x l'
  end.

Definition sort_before {A} (key : A -> N) (reverse : bool) (x y : A) : bool :=
  if reverse then (key y <=? key x)%N else (key x <=? key y)%N.

Definition list_sort {A} (key : A -> N) (reverse : bool) (l : list A) : list A :=
  fold_right (insert_by (sort_before key reverse)) [] l.

(** ** List objects

    [apply_filters] rebinds [filtered] to new lists and sorts the list it
    is bound to in place, so lists live in a store and are named by
    their address. *)
Abbreviation loc := nat.
Abbreviation store := (gmap nat (list njob)).
Definition St (A : Type) : Type := store -> A * store.

Definition st_ret {A} (a : A) : St A := fun s => (a, s).
Definition st_bind {A B} (m : St A) (f : A -> St B) : St B :=
  fun s => let '(a, s') := m s in f a s'.

(** the elements of the list at [l] *)
Definition st_read (l : loc) : St (list njob) :=
  fun s => (default [] (s !! l), s).
(** a new list object *)
Definition st_alloc (v : list njob) : St loc :=
  fun s => let l := fresh (dom s) in (l, <[l := v]> s).
(** [l.sort(key=key, reverse=reverse)] *)
Definition st_sort (l : loc) (key : njob -> N) (reverse : bool) : St unit :=
  fun s => (tt, alter (list_sort key reverse) l s).

(** [[j for j in filtered if keep j]] *)
Definition comprehension (filtered : loc) (keep : njob -> bool) : St loc :=
  st_bind (st_read filtered) (fun v => st_alloc (List.filter keep v)).

(** [SALARY_RANGES] *)
Definition SALARY_RANGES : list (str * (float * float)) :=
  [(u "under500", (of_Z 0, of_Z 500));
   (u "500to1000", (of_Z 500, of_Z 1000));
   (u "1000to2000", (of_Z 1000, of_Z 2000));
   (u "2000to5000", (of_Z 2000, of_Z 5000));
   (u "5000plus", (of_Z 5000, inf))].

Fixpoint range_of (key : str) (t : list (str * (float * float)))
  : option (float * float) :=
  match t with
  | [] => None
  | (k, r) :: t' => if str_eqb k key then Some r else range_of key t'
  end.

(** the arguments of [apply_filters] after [jobs] *)
Record query := {
  source_filter : str;
  category_filter : str;
  search_query : str;
  arrangement_filter : str;
  job_type_filter : str;
  sort_by : str;
  salary_filter : str
}.

(** [j.get(key, '') == x] *)
Definition field_is (j : njob) (key : string) (x : str) : bool :=
  match fields j !! key with
  | None => str_eqb [] x
  | Some None => false
  | Some (Some s) => str_eqb s x
  end.

Definition keep_source (q : query) (j : njob) : bool :=
  field_is j "source" (source_filter q).
Definition keep_category (q : query) (j : njob) : bool :=
  field_is j "category" (category_filter q) || field_is j "type" (category_filter q).
Definition keep_arrangement (q : query) (j : njob) : bool :=
  str_eqb (_arrangement j) (arrangement_filter q).
Definition keep_job_type (q : query) (j : njob) : bool :=
  str_eqb (_job_type j) (job_type_filter q).
Definition keep_salary (lo hi : float) (j : njob) : bool :=
  match _salary_monthly j with
  | None => false
  | Some v => leb lo v && ltb v hi
  end.
Definition keep_search (q : query) (j : njob) : bool :=
  let s := lower (search_query q) in
  contains s (lower (get_or_empty (fields j) "title"))
  || contains s (lower (get_or_empty (fields j) "description"))
  || contains s (lower (get_or_empty (fields j) "job_description")).

(** [j.get('_parsed_date') or datetime.min] *)
Definition date_key (j : njob) : datetime :=
  default datetime_min (_parsed_date j).

Definition when (b : bool) (filtered : loc) (keep : njob -> bool) : St loc :=
  if b then comprehension filtered keep else st_ret filtered.

(** [salary_filter and salary_filter in SALARY_RANGES], with the range *)
Definition salary_range (q : query) : option (float * float) :=
  if nonempty (salary_filter q) then range_of (salary_filter q) SALARY_RANGES
  else None.

Definition apply_filters (jobs : loc) (q : query) : St loc :=
  let filtered := jobs in
  st_bind (when (nonempty (source_filter q)) filtered (keep_source q)) (fun filtered =>
  st_bind (when (nonempty (category_filter q)) filtered (keep_category q)) (fun filtered =>
  st_bind (when (nonempty (arrangement_filter q)) filtered (keep_arrangement q)) (fun filtered =>
  st_bind (when (nonempty (job_type_filter q)) filtered (keep_job_type q)) (fun filtered =>
  st_bind (match salary_range q with
           | Some (lo, hi) => comprehension filtered (keep_salary lo hi)
           | None => st_ret filtered
           end) (fun filtered =>
  st_bind (when (nonempty (search_query q)) filtered (keep_search q)) (fun filtered =>
  st_bind (if str_eqb (sort_by q) (u "oldest")
           then st_sort filtered date_key false
           else st_sort filtered date_key true) (fun _ =>
  st_ret filtered))))))).

(* ===================================================================== *)
(** * Paginator and lookup                                                *)
(* ===================================================================== *)

Definition JOBS_PER_PAGE : Z := 20.

(** [math.ceil(n / d)] for a length [n] and [d > 0]: the quotient of two
    integers is rounded once and [math.ceil] of it is the integer ceiling
    for every length a list can have (see [ceil_div_float]). *)
Definition ceil_div (n d : Z) : Z := ((n + d - 1) / d)%Z.

(** [l[start:stop]] for [0 <= start] *)
Definition slice {A} (l : list A) (start stop : Z) : list A :=
  firstn (Z.to_nat (stop - start)) (skipn (Z.to_nat start) l).

(** the paging of [index]: the jobs of the page, [total_pages],
    [current_page] *)
Definition paginate {A} (filtered_jobs : list A) (page : Z) : list A * Z * Z :=
  let total_filtered := Z.of_nat (length filtered_jobs) in
  let total_pages := Z.max 1 (ceil_div total_filtered JOBS_PER_PAGE) in
  let current_page := Z.max 1 (Z.min page total_pages) in
  let start := ((current_page - 1) * JOBS_PER_PAGE)%Z in
  (slice filtered_jobs start (start + JOBS_PER_PAGE)%Z, total_pages, current_page).

(** the same quotient through binary64, for the comparison ([math.ceil]
    on the finite values; a quotient of lengths is finite) *)
Definition ceil_float (x : float) : Z :=
  match x with
  | S754_finite false m e =>
      if (0 <=? e)%Z then Z.shiftl (Zpos m) e
      else (- ((- Zpos m) / 2 ^ (- e)))%Z
  | S754_finite true m e =>
      if (0 <=? e)%Z then (- Z.shiftl (Zpos m) e)%Z
      else (- (Zpos m / 2 ^ (- e)))%Z
  | _ => 0%Z
  end.
Definition ceil_div_float (n d : Z) : Z := ceil_float (div (of_Z n) (of_Z d)).

(** [job_to_dict]: every member but [_parsed_date] *)
Record job_dict := {
  d_fields : record;
  d_id : Z;
  d_arrangement : str;
  d_job_type : str;
  d_display_date : str;
  d_salary_monthly : option float
}.

Definition job_to_dict (j : njob) : job_dict :=
  {| d_fields := fields j; d_id := id j; d_arrangement := _arrangement j;
     d_job_type := _job_type j; d_display_date := _display_date j;
     d_salary_monthly := _salary_monthly j |}.

(** a JSON response: the body and the status *)
Inductive response :=
| JsonJob (body : job_dict) (status : Z)
| JsonError (message : str) (status : Z).

Section Lookup.
Variable unescape : str -> result str.
Variable fromisoformat : str -> result pydatetime.
Variable parsedate_to_datetime : str -> result pydatetime.
Variable strptime : str -> str -> result pydatetime.
Variable strftime : datetime -> str -> str.

Definition api_job_detail (file : option (list record)) (job_id : Z)
  : result response :=
  let* jobs := load_jobs unescape fromisoformat parsedate_to_datetime
                         strptime strftime file in
  if (0 <=? job_id)%Z && (job_id <? Z.of_nat (length jobs))%Z
  then match nth_error jobs (Z.to_nat job_id) with
       | Some j => Ret (JsonJob (job_to_dict j) 200)
       | None => Raise IndexError
       end
  else Ret (JsonError (u "Job not found") 404).
End Lookup.

(* ===================================================================== *)
(** * Facets, routes and the template filter                              *)
(* ===================================================================== *)

(** The order of [str]: by code point, a proper prefix first. *)
Fixpoint str_ltb (a b : str) : bool :=
  match a, b with
  | _, [] => false
  | [], _ :: _ => true
  | x :: a', y :: b' =>
      (code x <? code y)%N || ((code x =? code y)%N && str_ltb a' b')
  end.

Definition str_leb (a b : str) : bool := negb (str_ltb b a).

(** [s.add(x)] for a set kept as the list of its elements, each once. *)
Definition set_add (x : str) (s : list str) : list str :=
  if existsb (str_eqb x) s then s else s ++ [x].

(** [sorted(list(s))] *)
Definition sorted_strs (s : list str) : list str :=
  fold_right (insert_by str_leb) [] s.

Fixpoint sources_loop (jobs : list njob) (sources : list str) : list str :=
  match jobs with
  | [] => sources
  | job :: jobs' =>
      let v := get_or_empty (fields job) "source" in
      sources_loop jobs' (if nonempty v then set_add v sources else sources)
  end.

Definition get_unique_sources (jobs : list njob) : list str :=
  sorted_strs (sources_loop jobs []).

Fixpoint categories_loop (jobs : list njob) (categories : list str) : list str :=
  match jobs with
  | [] => categories
  | job :: jobs' =>
      let c := get_or_empty (fields job) "category" in
      let categories := if nonempty c then set_add c categories else categories in
      let t := get_or_empty (fields job) "type" in
      let categories := if nonempty t then set_add t categories else categories in
      categories_loop jobs' categories
  end.

Definition get_unique_categories (jobs : list njob) : list str :=
  sorted_strs (categories_loop jobs []).

(** [words[:length]] *)
Definition take_upto {A} (l : list A) (n : Z) : list A :=
  if (0 <=? n)%Z then firstn (Z.to_nat n) l
  else firstn (Z.to_nat (Z.of_nat (length l) + n)) l.

(** [truncate_words(text, length)]; [text] is a string or [None]. *)
Definition truncate_words (text : option str) (length : Z) : str :=
  match text with
  | None | Some [] => []
  | Some text =>
      let words := split text in
      if (Z.of_nat (List.length words) <=? length)%Z then text
      else join SP (take_upto words length) ++ u "..."
  end.

(** What a route hands to the caller: the local list [jobs] is a list
    object of its own; [apply_filters] runs on it, and the route then
    reads both the returned list and [jobs]. *)
Definition filter_loaded (loaded : list njob) (q : query)
  : list njob * list njob :=
  let jobs : loc := 0%nat in
  let '(filtered, s) := apply_filters jobs q {[ jobs := loaded ]} in
  (default [] (s !! filtered), default [] (s !! jobs)).

(** the JSON object of [api_jobs] *)
Record jobs_json := {
  total : Z;
  filtered : Z;
  jobs_out : list job_dict
}.

(** the context [index] passes to its template; [current] holds the
    seven request arguments it echoes *)
Record index_context := {
  page_jobs : list njob;
  total_jobs : Z;
  filtered_count : Z;
  sources : list str;
  categories : list str;
  current : query;
  current_page : Z;
  total_pages : Z
}.

(** what [job_detail] returns: the template with its job, or a text and
    a status *)
Inductive html_response :=
| Rendered (template : string) (job : njob)
| Text (body : str) (status : Z).

Section Routes.
Variable unescape : str -> result str.
Variable fromisoformat : str -> result pydatetime.
Variable parsedate_to_datetime : str -> result pydatetime.
Variable strptime : str -> str -> result pydatetime.
Variable strftime : datetime -> str -> str.

(** [q] holds the request arguments, [page] the integer of the [page]
    argument (1 when it is absent or not an integer). *)
Definition index (file : option (list record)) (q : query) (page : Z)
  : result index_context :=
  let* loaded := load_jobs unescape fromisoformat parsedate_to_datetime
                           strptime strftime file in
  let '(filtered_jobs, jobs) := filter_loaded loaded q in
  let total_filtered := Z.of_nat (length filtered_jobs) in
  let '(paginated_jobs, pages, page') := paginate filtered_jobs page in
  let srcs := get_unique_sources jobs in
  let cats := get_unique_categories jobs in
  Ret {| page_jobs := paginated_jobs;
         total_jobs := Z.of_nat (length jobs);
         filtered_count := total_filtered;
         sources := srcs; categories := cats; current := q;
         current_page := page'; total_pages := pages |}.

Definition job_detail (file : option (list record)) (job_id : Z)
  : result html_response :=
  let* jobs := load_jobs unescape fromisoformat parsedate_to_datetime
                         strptime strftime file in
  if (0 <=? job_id)%Z && (job_id <? Z.of_nat (length jobs))%Z
  then match nth_error jobs (Z.to_nat job_id) with
       | Some j => Ret (Rendered "job_detail.html" j)
       | None => Raise IndexError
       end
  else Ret (Text (u "Job not found") 404).

Definition api_jobs (file : option (list record)) (q : query)
  : result jobs_json :=
  let* loaded := load_jobs unescape fromisoformat parsedate_to_datetime
                           strptime strftime file in
  let '(filtered_jobs, jobs) := filter_loaded loaded q in
  Ret {| total := Z.of_nat (length jobs);
         filtered := Z.of_nat (length filtered_jobs);
         jobs_out := map job_to_dict filtered_jobs |}.
End Routes.

(* ===================================================================== *)
(** * Vocabulary of the statements                                        *)
(* ===================================================================== *)

(** A criterion that is applied only when its argument is non-empty. *)
Definition opt_keep (b : bool) (keep : njob -> bool) (j : njob) : bool :=
  negb b || keep j.

Definition keeps_salary (q : query) (j : njob) : bool :=
  match salary_range q with
  | Some (lo, hi) => keep_salary lo hi j
  | None => true
  end.

(** every criterion but the salary bracket *)
Definition keeps_others (q : query) (j : njob) : bool :=
  opt_keep (nonempty (source_filter q)) (keep_source q) j
  && opt_keep (nonempty (category_filter q)) (keep_category q) j
  && opt_keep (nonempty (arrangement_filter q)) (keep_arrangement q) j
  && opt_keep (nonempty (job_type_filter q)) (keep_job_type q) j
  && opt_keep (nonempty (search_query q)) (keep_search q) j.

Definition keeps (q : query) (j : njob) : bool :=
  keeps_others q j && keeps_salary q j.

(** at least one list comprehension runs *)
Definition filters_active (q : query) : bool :=
  nonempty (source_filter q) || nonempty (category_filter q)
  || nonempty (arrangement_filter q) || nonempty (job_type_filter q)
  || (match salary_range q with Some _ => true | None => false end)
  || nonempty (search_query q).

(** [sort=oldest] sorts ascending, everything else descending *)
Definition newest_first (q : query) : bool := negb (str_eqb (sort_by q) (u "oldest")).

(** the jobs of [l] whose sort key is [d], in the order of [l] *)
Definition tied (d : datetime) (l : list njob) : list njob :=
  List.filter (fun j => (date_key j =? d)%N) l.

Definition with_salary_filter (q : query) (s : str) : query :=
  {| source_filter := source_filter q; category_filter := category_filter q;
     search_query := search_query q; arrangement_filter := arrangement_filter q;
     job_type_filter := job_type_filter q; sort_by := sort_by q;
     salary_filter := s |}.

(** ascending, or descending, order of the sort keys *)
Definition in_order (reverse : bool) (a b : njob) : Prop :=
  if reverse then (date_key b <= date_key a)%N else (date_key a <= date_key b)%N.

(** The state between two steps of [apply_filters], started in the
    store [s0]: [filtered] names the jobs that passed the criteria so
    far, every list of [s0] is as it was, and [filtered] is the input
    list exactly when no comprehension has run; otherwise it is a list
    that [s0] did not have. *)
Record stage (s0 : store) (jobs : loc) (v : list njob) (act : bool)
       (p : njob -> bool) (filtered : loc) (s : store) : Prop := {
  stage_cur : s !! filtered = Some (List.filter p v);
  stage_frame : forall l w, s0 !! l = Some w -> s !! l = Some w;
  stage_alias : if act then s0 !! filtered = None else filtered = jobs
}.

(** ** Sample data for closed statements *)

Definition sample_job (i : Z) (d : option datetime) (sal : option float) : njob :=
  {| fields := ∅; id := i; _arrangement := []; _job_type := [];
     _parsed_date := d; _display_date := []; _salary_monthly := sal |}.

Definition no_filters (sort : str) : query :=
  {| source_filter := []; category_filter := []; search_query := [];
     arrangement_filter := []; job_type_filter := []; sort_by := sort;
     salary_filter := [] |}.

Definition only_salary (key : str) : query := with_salary_filter (no_filters []) key.

(** ** Library stand-ins for closed statements

    The date parsers as CPython behaves on two inputs: every parser
    rejects a string that is not a date with [ValueError]; on
    ["1 Jan 99999999999 00:00:00"] [datetime.fromisoformat] raises
    [ValueError] and [parsedate_to_datetime], which passes the year to
    the [datetime] constructor, raises [OverflowError]. *)
Module Lib.
Definition overflow_date : str := u "1 Jan 99999999999 00:00:00".
Definition fromisoformat (s : str) : result pydatetime := Raise ValueError.
Definition parsedate_to_datetime (s : str) : result pydatetime :=
  if str_eqb s overflow_date then Raise OverflowError else Raise ValueError.
Definition strptime (s fmt : str) : result pydatetime := Raise ValueError.
Definition strftime (d : datetime) (fmt : str) : str := [].
End Lib.

(** ** Floats that are not negative *)

(** zero, a positive finite number or plus infinity: [0 <= f] holds *)
Definition is_nonneg (f : float) : bool :=
  match f with
  | S754_zero _ | S754_infinity false | S754_finite false _ _ => true
  | _ => false
  end.

(** a positive finite number *)
Definition is_pos_finite (f : float) : bool :=
  match f with
  | S754_finite false _ _ => true
  | _ => false
  end.

(** [sys.maxsize]: no string or list is longer *)
Definition maxsize : Z := 2 ^ 63 - 1.

(** the number of binary digits of a mantissa *)
Definition ndigits (m : Z) : Z := Zdigits2 m.

(** [r] returns, or raises an exception of one of [classes] *)
Definition caught (classes : list exn) {A} (r : result A) : Prop :=
  match r with
  | Ret _ => True
  | Raise e => existsb (exn_eqb e) classes = true
  end.

(** ** Tags and whitespace in a text *)

(** what follows the first [>] of [s] *)
Fixpoint after_gt (s : str) : option str :=
  match s with
  | [] => None
  | c :: s' => if ch_eqb ">" c then Some s' else after_gt s'
  end.

Definition has_gt (s : str) : bool := existsb (ch_eqb ">") s.

(** a tag, [<] then one character at least that is not [>] then [>],
    starts at the head of [s] *)
Definition tag_at (s : str) : bool :=
  match s with
  | c0 :: c :: s1 => ch_eqb "<" c0 && negb (ch_eqb ">" c) && has_gt s1
  | _ => false
  end.

(** no tag starts anywhere in [s] *)
Fixpoint no_tag (s : str) : bool :=
  match s with
  | [] => true
  | _ :: s' => negb (tag_at s) && no_tag s'
  end.

(** [join SP (split line)], the treatment of one line *)
Definition norm_line (line : str) : str := join SP (split line).

(** the last two lines of [clean_text] *)
Definition clean_lines (text : str) : str :=
  join LF (List.filter nonempty (map norm_line (splitlines text))).

(** [y] is [t] with some whitespace characters removed and some replaced
    by other whitespace characters *)
Inductive squeeze : str -> str -> Prop :=
| squeeze_nil : squeeze [] []
| squeeze_keep c t y : squeeze t y -> squeeze (c :: t) (c :: y)
| squeeze_drop c t y : is_space c = true -> squeeze t y -> squeeze (c :: t) y
| squeeze_repl c c' t y :
    is_space c = true -> is_space c' = true ->
    squeeze t y -> squeeze (c :: t) (c' :: y).

(** a word: not empty and free of whitespace *)
Definition wordy (w : str) : Prop :=
  w <> [] /\ Forall (fun c => is_space c = false) w.

(** a line of the result: not empty, free of line boundaries, and
    unchanged by [norm_line] *)
Definition liney (l : str) : Prop :=
  l <> [] /\ Forall (fun c => is_linebreak c = false) l /\ norm_line l = l.

(** ** The language of a pattern *)

(** [matches r s]: the whole of [s] is matched by [r]. *)
Inductive matches : Re.regex -> str -> Prop :=
| matches_eps : matches Re.Eps []
| matches_chr p c : p c = true -> matches (Re.Chr p) [c]
| matches_star_nil p : matches (Re.Star p) []
| matches_star_cons p c s :
    p c = true -> matches (Re.Star p) s -> matches (Re.Star p) (c :: s)
| matches_opt_none r : matches (Re.Opt r) []
| matches_opt_some r s : matches r s -> matches (Re.Opt r) s
| matches_seq r1 r2 s1 s2 :
    matches r1 s1 -> matches r2 s2 -> matches (Re.Seq r1 r2) (s1 ++ s2).

(** a captured salary token: digits and commas, then possibly a point
    and digits *)
Definition salary_token (g : str) : Prop :=
  exists a b,
    g = a ++ b
    /\ a <> [] /\ Forall (fun c => is_digit c || ch_eqb "," c = true) a
    /\ (b = [] \/ exists d, b = "."%char :: d /\ d <> []
                            /\ Forall (fun c => is_digit c = true) d).

(** ** Vocabulary of the further properties *)

(** a line with one word at least *)
Definition has_words (ws : list str) : bool :=
  match ws with
  | [] => false
  | _ :: _ => true
  end.

(** the query [q] with another search text *)
Definition with_search (q : query) (text : str) : query :=
  {| source_filter := source_filter q; category_filter := category_filter q;
     search_query := text; arrangement_filter := arrangement_filter q;
     job_type_filter := job_type_filter q; sort_by := sort_by q;
     salary_filter := salary_filter q |}.

(** [j] passes the criteria of [q] that are in effect, the salary
    bracket apart *)
Definition passes (q : query) (j : njob) : Prop :=
  (source_filter q <> [] -> fields j !! "source"%string = Some (Some (source_filter q)))
  /\ (category_filter q <> [] ->
      fields j !! "category"%string = Some (Some (category_filter q))
      \/ fields j !! "type"%string = Some (Some (category_filter q)))
  /\ (arrangement_filter q <> [] -> _arrangement j = arrangement_filter q)
  /\ (job_type_filter q <> [] -> _job_type j = job_type_filter q)
  /\ (search_query q <> [] ->
      exists key, In key ["title"; "description"; "job_description"]%string
        /\ contains (lower (search_query q)) (lower (get_or_empty (fields j) key)) = true).

(** the jobs [paginate] puts on page [p], and the number of pages *)
Definition page_items {A} (l : list A) (p : Z) : list A := fst (fst (paginate l p)).
Definition page_count {A} (l : list A) : Z := snd (fst (paginate l 1)).

(** ** A sample file for closed statements *)

Definition sample_file : list record :=
  [ {[ "title"%string := Some (u "<b>Dev</b>");
       "source"%string := Some (u "WeWorkRemotely");
       "salary"%string := Some (u "$20/hr");
       "location"%string := Some (u "Remote") ]};
    {[ "title"%string := Some (u "Ops");
       "source"%string := Some (u "OnlineJobs");
       "type"%string := Some (u "Contract");
       "description"%string := None ]} ].

(** the list [load_jobs] builds from it *)
Definition sample_loaded : list njob :=
  Eval vm_compute in
    match load_jobs Html.unescape Lib.fromisoformat Lib.parsedate_to_datetime
            Lib.strptime Lib.strftime (Some sample_file) with
    | Ret jobs => jobs
    | Raise _ => []
    end.

(** ** Sample records for closed statements *)

Definition markup_job : record :=
  {[ "title"%string := Some (u "<b>Dev</b>"); "source"%string := Some (u "<x>");
     "company"%string := None ]}.
Definition markup_job_cleaned : record :=
  {[ "title"%string := Some (u "Dev"); "source"%string := Some (u "<x>");
     "company"%string := Some [] ]}.

Definition home_job : record :=
  {[ "location"%string := Some (u "Hybrid (Berlin)");
     "title"%string := Some (u "Support, Work From Home") ]}.
Definition gig_job : record :=
  {[ "type"%string := Some (u "Gig");
     "title"%string := Some (u "CONTRACT designer") ]}.

Definition blank_date_job : record := {[ "posted_date"%string := Some (u "  ") ]}.
Definition soon_job : record := {[ "date_posted"%string := Some (u " soon ") ]}.
Definition overflow_file : list record :=
  [ {[ "title"%string := Some (u "Dev") ]};
    {[ "posted_date"%string := Some Lib.overflow_date ]} ].

Definition design_job : njob :=
  {| fields := {[ "source"%string := Some (u "WeWorkRemotely");
                  "category"%string := Some (u "Design") ]};
     id := 0; _arrangement := []; _job_type := [];
     _parsed_date := None; _display_date := []; _salary_monthly := None |}.
Definition contract_job : njob :=
  {| fields := {[ "source"%string := Some (u "OnlineJobs");
                  "type"%string := Some (u "Contract") ]};
     id := 1; _arrangement := []; _job_type := [];
     _parsed_date := None; _display_date := []; _salary_monthly := None |}.

(** zero or a positive finite number *)
Definition is_finite_nonneg (f : float) : bool :=
  match f with
  | S754_zero _ | S754_finite false _ _ => true
  | _ => false
  end.

(** the brackets of [SALARY_RANGES] that accept the job *)
Definition brackets_of (j : njob) : list (str * (float * float)) :=
  List.filter (fun e => keep_salary (fst (snd e)) (snd (snd e)) j) SALARY_RANGES.

(* ===================================================================== *)
(** * Text normaliser: substitution of the two patterns                   *)
(* ===================================================================== *)

Lemma ch_eqb_eq a b : ch_eqb a b = true <-> a = b.
Proof. apply Ascii.eqb_eq. Qed.

Lemma ch_eqb_refl a : ch_eqb a a = true.
Proof. now apply ch_eqb_eq. Qed.

(** ** Matching *)

Lemma star_match_sound {A} p (k : str -> option A) s x :
  Re.star_match p k s = Some x ->
  exists pre s2, s = pre ++ s2 /\ matches (Re.Star p) pre /\ k s2 = Some x.
Proof.
  induction s as [|c s IH]; cbn [Re.star_match]; intros H.
  - exists [], []. repeat split; [constructor | exact H].
  - destruct (p c) eqn:Ec.
    + destruct (Re.star_match p k s) as [y|] eqn:E.
      * inversion H. subst y.
        destruct (IH eq_refl) as (pre & s2 & -> & Hm & Hk).
        exists (c :: pre), s2. repeat split; [now constructor | exact Hk].
      * exists [], (c :: s). repeat split; [constructor | exact H].
    + exists [], (c :: s). repeat split; [constructor | exact H].
Qed.

(** What a successful match consumed belongs to the language of the
    pattern, and the continuation ran on the rest. *)
Lemma mtch_sound {A} r : forall (k : str -> option A) s x,
  Re.mtch r k s = Some x ->
  exists pre s2, s = pre ++ s2 /\ matches r pre /\ k s2 = Some x.
Proof.
  induction r as [|p|p|r IH|r1 IH1 r2 IH2]; intros k s x H; cbn [Re.mtch] in H.
  - exists [], s. repeat split; [constructor | exact H].
  - destruct s as [|c s]; [discriminate|]. destruct (p c) eqn:Ec; [|discriminate].
    exists [c], s. repeat split; [now constructor | exact H].
  - eapply star_match_sound; exact H.
  - destruct (Re.mtch r k s) as [y|] eqn:E.
    + inversion H. subst y. destruct (IH _ _ _ E) as (pre & s2 & -> & Hm & Hk).
      exists pre, s2. repeat split; [now constructor | exact Hk].
    + exists [], s. repeat split; [constructor | exact H].
  - apply IH1 in H. destruct H as (pre1 & s1 & -> & Hm1 & H).
    apply IH2 in H. destruct H as (pre2 & s2 & -> & Hm2 & H).
    exists (pre1 ++ pre2), s2. repeat split; [|now constructor | exact H].
    now rewrite <- app_assoc.
Qed.

(** In particular the continuation runs on a suffix. *)
Lemma star_match_suffix {A} p (k : str -> option A) s x :
  Re.star_match p k s = Some x -> exists pre s2, s = pre ++ s2 /\ k s2 = Some x.
Proof.
  intros H. apply star_match_sound in H.
  destruct H as (pre & s2 & E & _ & Hk). now exists pre, s2.
Qed.

Lemma mtch_suffix {A} r (k : str -> option A) s x :
  Re.mtch r k s = Some x -> exists pre s2, s = pre ++ s2 /\ k s2 = Some x.
Proof.
  intros H. apply mtch_sound in H.
  destruct H as (pre & s2 & E & _ & Hk). now exists pre, s2.
Qed.

Lemma after_gt_has_gt s : after_gt s = None <-> has_gt s = false.
Proof.
  induction s as [|c s IH]; [cbn; tauto|].
  cbn [after_gt has_gt existsb]. fold (has_gt s).
  destruct (ch_eqb ">" c); cbn [orb]; [split; discriminate | exact IH].
Qed.

Lemma after_gt_suffix s rest :
  after_gt s = Some rest -> exists body, s = body ++ ">"%char :: rest.
Proof.
  revert rest. induction s as [|c s IH]; cbn [after_gt]; intros rest H; [discriminate|].
  destruct (ch_eqb ">" c) eqn:E.
  - inversion H. subst rest. apply ch_eqb_eq in E. subst c. now exists [].
  - destruct (IH _ H) as [body ->]. now exists (c :: body).
Qed.

Lemma has_gt_app a b : has_gt (a ++ b) = has_gt a || has_gt b.
Proof. apply existsb_app. Qed.

(** The greedy [[^>]*] followed by [>] stops at the first [>]. *)
Lemma star_not_gt s :
  Re.star_match (Re.not_lit ">")
    (Re.mtch (Re.Seq (Re.Chr (Re.lit ">")) Re.Eps) Some) s = after_gt s.
Proof.
  induction s as [|d s IH]; [reflexivity|].
  cbn [Re.star_match after_gt]. rewrite IH.
  unfold Re.not_lit at 1. cbn [Re.mtch]. unfold Re.lit.
  destruct (ch_eqb ">" d); cbn [negb]; [reflexivity|].
  now destruct (after_gt s).
Qed.

(** [_TAG_RE] matches at the head of [s] exactly when a tag starts
    there, and leaves what follows the first [>]. *)
Lemma tag_match s :
  Re.match_at _TAG_RE s
  = if tag_at s then after_gt (tl (tl s)) else None.
Proof.
  unfold Re.match_at, _TAG_RE, tag_at, Re.Plus.
  cbn [Re.cat fold_right].
  destruct s as [|c0 [|c s1]]; try reflexivity.
  - cbn [Re.mtch]. unfold Re.lit. now destruct (ch_eqb "<" c0).
  - cbn [tl].
    change (Re.mtch (Re.Seq (Re.Chr (Re.lit "<"))
              (Re.Seq (Re.Seq (Re.Chr (Re.not_lit ">")) (Re.Star (Re.not_lit ">")))
                 (Re.Seq (Re.Chr (Re.lit ">")) Re.Eps))) Some (c0 :: c :: s1))
      with (if Re.lit "<" c0
            then if Re.not_lit ">" c
                 then Re.star_match (Re.not_lit ">")
                        (Re.mtch (Re.Seq (Re.Chr (Re.lit ">")) Re.Eps) Some) s1
                 else None
            else None).
    rewrite star_not_gt. unfold Re.lit, Re.not_lit.
    destruct (ch_eqb "<" c0); [|reflexivity].
    destruct (ch_eqb ">" c); [reflexivity|]. cbn [negb andb].
    destruct (has_gt s1) eqn:Eg; [reflexivity|].
    now apply after_gt_has_gt in Eg.
Qed.

Lemma tag_match_some s : tag_at s = true ->
  exists body rest, Re.match_at _TAG_RE s = Some rest
                    /\ tl (tl s) = body ++ ">"%char :: rest.
Proof.
  intros H. rewrite tag_match, H.
  destruct s as [|c0 [|c s1]]; try discriminate.
  cbn [tl]. unfold tag_at in H.
  apply andb_true_iff in H. destruct H as [_ H].
  destruct (after_gt s1) as [rest|] eqn:E.
  - destruct (after_gt_suffix _ _ E) as [body ->]. now exists body, rest.
  - apply after_gt_has_gt in E. congruence.
Qed.

(** A match of [_BR_RE] is a tag. *)
Lemma br_match_tag s rest : Re.match_at _BR_RE s = Some rest -> tag_at s = true.
Proof.
  unfold Re.match_at, _BR_RE. cbn [Re.cat fold_right]. intros H.
  cbn [Re.mtch] in H.
  destruct s as [|c0 s]; [discriminate|].
  unfold Re.lit at 1 in H. destruct (ch_eqb "<" c0) eqn:E0; [|discriminate].
  destruct s as [|c1 s]; [discriminate|].
  unfold Re.lit at 1 in H. destruct (ch_eqb "\" c1) eqn:E1; [|discriminate].
  apply ch_eqb_eq in E1. subst c1. cbv beta iota in H.
  apply star_match_suffix in H. destruct H as (p1 & s2 & -> & H).
  destruct s2 as [|c2 s2]; [discriminate|].
  destruct (Re.lit_i "b" c2); [|discriminate].
  destruct s2 as [|c3 s2]; [discriminate|].
  destruct (Re.lit_i "r" c3); [|discriminate].
  destruct s2 as [|c4 s2]; [discriminate|].
  destruct (Re.lit "\" c4); [|discriminate]. cbv beta iota in H.
  apply star_match_suffix in H. destruct H as (p2 & s3 & -> & H).
  apply (mtch_suffix (Re.Opt (Re.Chr (Re.lit "/")))) in H.
  destruct H as (p3 & s4 & -> & H).
  destruct s4 as [|c5 s4]; [discriminate|].
  destruct (Re.lit "\" c5); [|discriminate]. cbv beta iota in H.
  apply star_match_suffix in H. destruct H as (p4 & s5 & -> & H).
  destruct s5 as [|c6 s5]; [discriminate|].
  unfold Re.lit in H. destruct (ch_eqb ">" c6) eqn:E6; [|discriminate].
  assert (Hg : has_gt (p1 ++ c2 :: c3 :: c4 :: p2 ++ p3 ++ c5 :: p4 ++ c6 :: s5) = true).
  { unfold has_gt. apply existsb_exists. exists c6. split; [|exact E6].
    repeat first [left; reflexivity | apply in_or_app; right | right]. }
  unfold tag_at. rewrite E0, Hg. reflexivity.
Qed.

(** ** Substitution *)

Lemma sub_aux_skip r repl s : forall k,
  Re.sub_aux r repl k s = Re.sub_aux r repl 0 (skipn k s).
Proof.
  induction s as [|c s IH]; intros [|k]; try reflexivity.
  cbn [Re.sub_aux skipn]. apply IH.
Qed.

(** Where the pattern matches nowhere, nothing is replaced. *)
Lemma sub_no_match r repl s :
  (forall pre q, s = pre ++ q -> Re.match_at r q = None) ->
  Re.sub r repl s = s.
Proof.
  unfold Re.sub. induction s as [|c s IH]; intros H.
  - simpl. now rewrite (H [] []).
  - cbn [Re.sub_aux]. rewrite (H [] (c :: s)) by reflexivity.
    f_equal. apply IH. intros pre q ->. now apply (H (c :: pre)).
Qed.

Lemma no_tag_suffix pre q : no_tag (pre ++ q) = true -> tag_at q = false.
Proof.
  induction pre as [|c pre IH]; simpl.
  - destruct q as [|c q]; [reflexivity|].
    cbn [no_tag]. intros H. apply andb_true_iff in H.
    now destruct (tag_at (c :: q)).
  - intros H. apply andb_true_iff in H. now apply IH.
Qed.

Lemma sub_tag_no_tag y : no_tag y = true -> Re.sub _TAG_RE SP y = y.
Proof.
  intros H. apply sub_no_match. intros pre q ->.
  rewrite tag_match. now rewrite (no_tag_suffix _ _ H).
Qed.

Lemma sub_br_no_tag y : no_tag y = true -> Re.sub _BR_RE LF y = y.
Proof.
  intros H. apply sub_no_match. intros pre q ->.
  destruct (Re.match_at _BR_RE q) as [rest|] eqn:E; [|reflexivity].
  apply br_match_tag in E. now rewrite (no_tag_suffix _ _ H) in E.
Qed.

(** [_BR_RE] needs a backslash after [<]: it changes no text without
    backslashes, whatever line-break tags the text has. *)
Lemma sub_br_no_backslash s :
  ~ In "\"%char s -> Re.sub _BR_RE LF s = s.
Proof.
  intros H. apply sub_no_match. intros pre q ->.
  destruct (Re.match_at _BR_RE q) as [rest|] eqn:E; [|reflexivity].
  exfalso. apply H. apply in_or_app. right.
  unfold Re.match_at, _BR_RE in E. cbn [Re.cat fold_right Re.mtch] in E.
  destruct q as [|c0 q]; [discriminate|].
  destruct (Re.lit "<" c0); [|discriminate].
  destruct q as [|c1 q]; [discriminate|].
  unfold Re.lit at 1 in E. destruct (ch_eqb "\" c1) eqn:E1; [|discriminate].
  apply ch_eqb_eq in E1. subst c1. right. now left.
Qed.

(** The step of a substitution of [_TAG_RE] at the head of a text. *)
Lemma sub_tag_step c s :
  Re.sub _TAG_RE SP (c :: s)
  = if tag_at (c :: s)
    then match after_gt (tl s) with
         | Some rest => SP ++ Re.sub _TAG_RE SP rest
         | None => c :: Re.sub _TAG_RE SP s
         end
    else c :: Re.sub _TAG_RE SP s.
Proof.
  unfold Re.sub at 1. cbn [Re.sub_aux].
  rewrite tag_match. destruct (tag_at (c :: s)) eqn:Et; [|reflexivity].
  destruct s as [|c1 s1]; [discriminate|]. cbn [tl].
  destruct (after_gt s1) as [rest|] eqn:Ea; [|reflexivity].
  destruct (after_gt_suffix _ _ Ea) as [body ->].
  cbn [length]. rewrite length_app. cbn [length].
  replace (S (S (length body + S (length rest))) - length rest)%nat
    with (S (S (S (length body)))) by lia.
  f_equal. rewrite sub_aux_skip. unfold Re.sub. f_equal.
  change (skipn (S (S (length body))) (c1 :: body ++ ">"%char :: rest))
    with (skipn (S (length body)) (body ++ ">"%char :: rest)).
  change (">"%char :: rest) with ([">"%char] ++ rest).
  rewrite app_assoc.
  rewrite skipn_app.
  replace (S (length body)) with (length (body ++ [">"%char]))
    by (rewrite length_app; simpl; lia).
  rewrite skipn_all, Nat.sub_diag. reflexivity.
Qed.

Lemma sub_tag_no_gt s : has_gt s = false -> Re.sub _TAG_RE SP s = s.
Proof.
  intros H. apply sub_tag_no_tag.
  induction s as [|c s IH]; [reflexivity|].
  cbn [no_tag]. cbn [has_gt existsb] in H. apply orb_false_iff in H.
  destruct H as [Hc Hs]. fold (has_gt s) in Hs.
  rewrite (IH Hs), andb_true_r.
  unfold tag_at. destruct s as [|c1 s1]; [reflexivity|].
  cbn [has_gt existsb] in Hs. apply orb_false_iff in Hs. destruct Hs as [_ Hs].
  fold (has_gt s1) in Hs. now rewrite Hs, andb_false_r.
Qed.

(** After the substitution no tag is left. *)
Lemma sub_tag_result_no_tag s : no_tag (Re.sub _TAG_RE SP s) = true.
Proof.
  remember (length s) as n eqn:Hn. revert s Hn.
  induction n as [n IH] using lt_wf_ind. intros s Hn.
  destruct s as [|c s]; [reflexivity|].
  rewrite sub_tag_step.
  destruct (tag_at (c :: s)) eqn:Et.
  - destruct s as [|c1 s1]; [discriminate|]. cbn [tl].
    destruct (after_gt s1) as [rest|] eqn:Ea.
    + destruct (after_gt_suffix _ _ Ea) as [body ->].
      cbn [SP app no_tag]. 
      rewrite (IH (length rest)); [|subst n; cbn [length]; rewrite length_app; cbn [length]; lia|reflexivity].
      rewrite andb_true_r. unfold tag_at.
      now destruct (Re.sub _TAG_RE SP rest) as [|? ?].
    + unfold tag_at in Et. apply after_gt_has_gt in Ea.
      rewrite Ea, andb_false_r in Et. discriminate.
  - cbn [no_tag]. rewrite (IH (length s)); [|subst n; cbn [length]; lia|reflexivity].
    rewrite andb_true_r.
    (* the head is not the start of a tag in the result either *)
    unfold tag_at in Et |- *.
    destruct (ch_eqb "<" c) eqn:Ec; [|now destruct (Re.sub _TAG_RE SP s) as [|? ?]].
    cbn [andb] in *.
    destruct s as [|c1 s1]; [reflexivity|].
    destruct (ch_eqb ">" c1) eqn:E1.
    + (* "<>": the second character starts no tag and is copied *)
      rewrite sub_tag_step.
      assert (Ht : tag_at (c1 :: s1) = false).
      { unfold tag_at. destruct s1; [reflexivity|].
        apply ch_eqb_eq in E1. subst c1. reflexivity. }
      rewrite Ht. now rewrite E1.
    + cbn [negb andb] in Et.
      assert (Hs : has_gt (c1 :: s1) = false).
      { cbn [has_gt existsb]. rewrite E1. exact Et. }
      rewrite (sub_tag_no_gt _ Hs). now rewrite E1, Et.
Qed.
(* ===================================================================== *)
(** * Text normaliser: whitespace                                         *)
(* ===================================================================== *)

Lemma linebreak_space c : is_linebreak c = true -> is_space c = true.
Proof.
  destruct c as [b0 b1 b2 b3 b4 b5 b6 b7].
  destruct b0, b1, b2, b3, b4, b5, b6, b7; intros H;
    first [reflexivity | discriminate H].
Qed.

Lemma space_not_lt c : is_space c = true -> ch_eqb "<" c = false.
Proof.
  intros H. destruct (ch_eqb "<" c) eqn:E; [|reflexivity].
  apply ch_eqb_eq in E. subst c. discriminate H.
Qed.

Lemma space_not_gt c : is_space c = true -> ch_eqb ">" c = false.
Proof.
  intros H. destruct (ch_eqb ">" c) eqn:E; [|reflexivity].
  apply ch_eqb_eq in E. subst c. discriminate H.
Qed.

(** ** [join] *)

Lemma join_cons sep x rest :
  join sep (x :: rest)
  = x ++ match rest with [] => [] | _ :: _ => sep ++ join sep rest end.
Proof. destruct rest; simpl; [now rewrite app_nil_r | reflexivity]. Qed.

Lemma join_cons_char sep c w ws :
  join sep ((c :: w) :: ws) = c :: join sep (w :: ws).
Proof. now rewrite !join_cons. Qed.

(** ** [squeeze] *)

Lemma squeeze_refl s : squeeze s s.
Proof. induction s; constructor; assumption. Qed.

Lemma squeeze_app a a' b b' :
  squeeze a a' -> squeeze b b' -> squeeze (a ++ b) (a' ++ b').
Proof.
  induction 1 as [|x t y H IH|x t y Hx H IH|x x' t y Hx Hx' H IH];
    intros Hb; cbn [app].
  - exact Hb.
  - apply squeeze_keep. now apply IH.
  - apply squeeze_drop; [assumption|]. now apply IH.
  - apply squeeze_repl; try assumption. now apply IH.
Qed.

Lemma squeeze_nil_inv y : squeeze [] y -> y = [].
Proof. now inversion 1. Qed.

Lemma squeeze_trans a b : squeeze a b -> forall c, squeeze b c -> squeeze a c.
Proof.
  induction 1 as [|x t y H IH|x t y Hx H IH|x x' t y Hx Hx' H IH]; intros c Hc.
  - exact Hc.
  - inversion Hc; subst.
    + apply squeeze_keep. now apply IH.
    + apply squeeze_drop; [assumption|]. now apply IH.
    + apply squeeze_repl; try assumption. now apply IH.
  - apply squeeze_drop; [assumption|]. now apply IH.
  - inversion Hc; subst.
    + apply squeeze_repl; try assumption. now apply IH.
    + apply squeeze_drop; [assumption|]. now apply IH.
    + apply squeeze_repl; try assumption. now apply IH.
Qed.

Lemma has_gt_cons c s : has_gt (c :: s) = ch_eqb ">" c || has_gt s.
Proof. reflexivity. Qed.

Lemma squeeze_has_gt t y : squeeze t y -> has_gt t = false -> has_gt y = false.
Proof.
  induction 1 as [|x t y H IH|x t y Hx H IH|x x' t y Hx Hx' H IH];
    rewrite ?has_gt_cons; intros Hg; try reflexivity;
    apply orb_false_iff in Hg; destruct Hg as [Hc Hg].
  - now rewrite Hc, IH.
  - now apply IH.
  - now rewrite (space_not_gt _ Hx'), IH.
Qed.

(** Squeezing makes no tag: a tag needs its [<], its [>] and a
    character between them, and none of these is added. *)
Lemma squeeze_no_tag t y : squeeze t y -> no_tag t = true -> no_tag y = true.
Proof.
  induction 1 as [|x t y H IH|x t y Hx H IH|x x' t y Hx Hx' H IH];
    cbn [no_tag]; intros Hn; try reflexivity;
    apply andb_true_iff in Hn; destruct Hn as [Ht Hn].
  - rewrite (IH Hn), andb_true_r.
    apply negb_true_iff in Ht. apply negb_true_iff.
    unfold tag_at in Ht |- *.
    destruct y as [|y1 y']; [reflexivity|].
    destruct (ch_eqb "<" x) eqn:Ex; [|reflexivity]. cbn [andb] in *.
    destruct t as [|t1 t']; [now apply squeeze_nil_inv in H|].
    destruct (ch_eqb ">" t1) eqn:E1.
    + (* the next character of [t] is [>]: it is kept *)
      apply ch_eqb_eq in E1. subst t1.
      inversion H; subst; try discriminate.
      reflexivity.
    + cbn [negb andb] in Ht.
      assert (Hg : has_gt (t1 :: t') = false).
      { rewrite has_gt_cons. now rewrite E1. }
      pose proof (squeeze_has_gt _ _ H Hg) as Hy.
      rewrite has_gt_cons in Hy. apply orb_false_iff in Hy.
      destruct Hy as [_ Hy].
      now rewrite Hy, andb_false_r.
  - now apply IH.
  - rewrite (IH Hn), andb_true_r. apply negb_true_iff.
    unfold tag_at. destruct y as [|y1 y']; [reflexivity|].
    now rewrite (space_not_lt _ Hx').
Qed.

(** ** One line *)

Lemma split_space c s : is_space c = true -> split (c :: s) = split s.
Proof. intros H. cbn [split]. now rewrite H. Qed.

Lemma squeeze_norm_line l :
  squeeze l (norm_line l)
  /\ (forall c s, l = c :: s -> is_space c = true ->
        squeeze l (SP ++ norm_line l)).
Proof.
  unfold norm_line. induction l as [|c s [IH1 IH2]].
  - split; [constructor | discriminate].
  - destruct (is_space c) eqn:Ec.
    + rewrite (split_space _ _ Ec). split.
      * now apply squeeze_drop.
      * intros _ _ _ _. apply squeeze_repl; [assumption|reflexivity|assumption].
    + split; [|intros c0 s0 E; inversion E; subst; congruence].
      cbn [split]. rewrite Ec.
      destruct s as [|c' s'].
      * apply squeeze_keep. constructor.
      * destruct (is_space c') eqn:Ec'.
        -- rewrite join_cons. apply squeeze_keep. cbn [app].
           destruct (split (c' :: s')) eqn:Es.
           ++ exact IH1.
           ++ apply (IH2 c' s' eq_refl Ec').
        -- destruct (split (c' :: s')) as [|w ws] eqn:Es.
           ++ apply squeeze_keep. exact IH1.
           ++ rewrite join_cons_char. apply squeeze_keep. exact IH1.
Qed.

Lemma split_wordy s : Forall wordy (split s).
Proof.
  induction s as [|c s IH]; [constructor|].
  cbn [split]. destruct (is_space c) eqn:Ec; [exact IH|].
  assert (H1 : wordy [c]).
  { split; [discriminate|]. now constructor. }
  destruct s as [|c' s']; [now constructor|].
  destruct (is_space c'); [now constructor|].
  destruct (split (c' :: s')) as [|w ws]; [now constructor|].
  inversion IH as [|? ? [Hw1 Hw2] Hws]; subst.
  constructor; [|assumption].
  split; [discriminate|]. now constructor.
Qed.

Lemma split_app_word w r :
  wordy w ->
  split (w ++ r)
  = match r with
    | [] => [w]
    | c :: _ => if is_space c then w :: split r
                else match split r with
                     | v :: vs => (w ++ v) :: vs
                     | [] => [w]
                     end
    end.
Proof.
  intros [Hne Hall]. induction w as [|c w IH]; [congruence|].
  inversion Hall as [|? ? Hc Hw]; subst.
  destruct w as [|c1 w1].
  - cbn [app split]. rewrite Hc. destruct r as [|c' r']; [reflexivity|].
    destruct (is_space c'); [reflexivity|].
    now destruct (split (c' :: r')).
  - assert (Hne1 : c1 :: w1 <> []) by discriminate.
    specialize (IH Hne1 Hw).
    inversion Hw as [|? ? Hc1 _]; subst.
    change ((c :: c1 :: w1) ++ r) with (c :: (c1 :: w1) ++ r).
    cbn [split]. rewrite Hc.
    change ((c1 :: w1) ++ r) with (c1 :: w1 ++ r) at 1.
    cbv beta iota. rewrite Hc1.
    change (c1 :: w1 ++ r) with ((c1 :: w1) ++ r). rewrite IH.
    destruct r as [|c' r']; [reflexivity|].
    destruct (is_space c'); [reflexivity|].
    now destruct (split (c' :: r')).
Qed.

Lemma split_join ws : Forall wordy ws -> split (join SP ws) = ws.
Proof.
  induction 1 as [|w ws Hw Hws IH]; [reflexivity|].
  rewrite join_cons. rewrite (split_app_word _ _ Hw).
  destruct ws as [|w' ws']; [reflexivity|].
  cbn [SP app]. cbn [is_space]. 
  replace (is_space " ") with true by reflexivity.
  rewrite split_space by reflexivity. now rewrite IH.
Qed.

Lemma norm_line_idem l : norm_line (norm_line l) = norm_line l.
Proof. unfold norm_line. now rewrite split_join by apply split_wordy. Qed.

Lemma norm_line_no_linebreak l :
  Forall (fun c => is_linebreak c = false) (norm_line l).
Proof.
  unfold norm_line. pose proof (split_wordy l) as H.
  induction H as [|w ws [_ Hw] Hws IH]; [constructor|].
  rewrite join_cons. apply Forall_app. split.
  - eapply List.Forall_impl; [|exact Hw]. intros c Hc.
    destruct (is_linebreak c) eqn:E; [|reflexivity].
    apply linebreak_space in E. congruence.
  - destruct ws; [constructor|]. apply Forall_app. split; [|exact IH].
    now repeat constructor.
Qed.
(** ** Lines *)

Lemma squeeze_splitlines t : squeeze t (join LF (splitlines t)).
Proof.
  remember (length t) as n eqn:Hn. revert t Hn.
  induction n as [n IH] using lt_wf_ind. intros t Hn.
  destruct t as [|c s]; [constructor|].
  assert (IHs : squeeze s (join LF (splitlines s))).
  { apply (IH (length s)); [subst n; simpl; lia | reflexivity]. }
  cbn [splitlines]. destruct (is_linebreak c) eqn:Ec.
  - pose proof (linebreak_space _ Ec) as Hsp.
    rewrite join_cons. cbn [app].
    destruct s as [|c' s''].
    + apply squeeze_drop; [assumption|constructor].
    + destruct (ch_eqb c "013" && ch_eqb c' "010") eqn:Ecr.
      * apply andb_true_iff in Ecr. destruct Ecr as [_ Ec'].
        apply ch_eqb_eq in Ec'. subst c'.
        assert (IHs2 : squeeze s'' (join LF (splitlines s''))).
        { apply (IH (length s'')); [subst n; simpl; lia | reflexivity]. }
        apply squeeze_drop; [assumption|].
        destruct (splitlines s'') as [|l ls].
        -- apply squeeze_drop; [reflexivity | exact IHs2].
        -- apply squeeze_keep. exact IHs2.
      * destruct (splitlines (c' :: s'')) as [|l ls].
        -- apply squeeze_drop; [assumption | exact IHs].
        -- apply squeeze_repl; [assumption | reflexivity | exact IHs].
  - destruct (splitlines s) as [|l ls].
    + apply squeeze_keep. exact IHs.
    + rewrite join_cons_char. apply squeeze_keep. exact IHs.
Qed.

Lemma squeeze_join_map (f : str -> str) ls :
  (forall l, squeeze l (f l)) ->
  squeeze (join LF ls) (join LF (map f ls)).
Proof.
  intros Hf. induction ls as [|x rest IH]; [constructor|].
  cbn [map]. rewrite !join_cons. apply squeeze_app; [apply Hf|].
  destruct rest as [|y rest']; [constructor|].
  cbn [map] in *. apply squeeze_app; [apply squeeze_refl | exact IH].
Qed.

Lemma squeeze_join_filter ls :
  squeeze (join LF ls) (join LF (List.filter nonempty ls)).
Proof.
  induction ls as [|x rest IH]; [constructor|].
  rewrite join_cons. cbn [List.filter].
  destruct x as [|c x']; cbn [nonempty app].
  - destruct rest as [|y rest']; [constructor|].
    apply squeeze_drop; [reflexivity | exact IH].
  - rewrite join_cons.
    apply (squeeze_app (c :: x') (c :: x')); [apply squeeze_refl|].
    destruct rest as [|y rest']; [constructor|].
    destruct (List.filter nonempty (y :: rest')) as [|z zs].
    + apply squeeze_drop; [reflexivity | exact IH].
    + apply squeeze_keep. exact IH.
Qed.

(** The last two lines of [clean_text] only squeeze. *)
Lemma squeeze_clean_lines t : squeeze t (clean_lines t).
Proof.
  unfold clean_lines.
  eapply squeeze_trans; [apply squeeze_splitlines|].
  eapply squeeze_trans; [apply (squeeze_join_map norm_line)|].
  - intros l. apply squeeze_norm_line.
  - apply squeeze_join_filter.
Qed.

Lemma splitlines_line x :
  Forall (fun c => is_linebreak c = false) x ->
  (x <> [] -> splitlines x = [x])
  /\ forall r, splitlines (x ++ LF ++ r) = x :: splitlines r.
Proof.
  induction 1 as [|c x Hc Hx [IH1 IH2]].
  - split; [congruence|]. intros r. cbn [LF app splitlines].
    replace (is_linebreak "010") with true by reflexivity.
    replace (ch_eqb "010" "013") with false by reflexivity.
    cbn [andb]. now destruct r.
  - split.
    + intros _. cbn [splitlines]. rewrite Hc.
      destruct x as [|c1 x1]; [reflexivity|].
      now rewrite IH1 by discriminate.
    + intros r. cbn [app splitlines]. rewrite Hc.
      fold (x ++ LF ++ r). now rewrite IH2.
Qed.

Lemma splitlines_join ls : Forall liney ls -> splitlines (join LF ls) = ls.
Proof.
  induction 1 as [|x rest (Hne & Hlb & _) Hrest IH]; [reflexivity|].
  rewrite join_cons. destruct rest as [|y rest'].
  - rewrite app_nil_r. now apply splitlines_line.
  - destruct (splitlines_line x Hlb) as [_ H2].
    rewrite H2. now rewrite IH.
Qed.

Lemma clean_lines_liney t :
  Forall liney (List.filter nonempty (map norm_line (splitlines t))).
Proof.
  induction (splitlines t) as [|l ls IH]; [constructor|].
  cbn [map List.filter]. destruct (nonempty (norm_line l)) eqn:E; [|exact IH].
  constructor; [|exact IH].
  split; [|split].
  - intros E0. rewrite E0 in E. discriminate.
  - apply norm_line_no_linebreak.
  - apply norm_line_idem.
Qed.

Lemma liney_fixed ls :
  Forall liney ls -> List.filter nonempty (map norm_line ls) = ls.
Proof.
  induction 1 as [|x rest (Hne & _ & Hfix) Hrest IH]; [reflexivity|].
  cbn [map List.filter]. rewrite Hfix, IH.
  destruct x; [congruence | reflexivity].
Qed.

(** The treatment of lines is idempotent. *)
Lemma clean_lines_idem t : clean_lines (clean_lines t) = clean_lines t.
Proof.
  unfold clean_lines at 1 3.
  pose proof (clean_lines_liney t) as H.
  unfold clean_lines.
  rewrite (splitlines_join _ H). now rewrite (liney_fixed _ H).
Qed.

(* ===================================================================== *)
(** * Text normaliser: the claims                                         *)
(* ===================================================================== *)

Section TextTotal.
Variable unescape : str -> result str.

(** [clean_text] returns whenever [html.unescape] does. *)
Lemma clean_text_returns (value : option str) :
  (forall s, returns (unescape s)) -> returns (clean_text unescape value).
Proof.
  intros H. destruct value as [v|]; simpl; [|now eexists].
  destruct (H (Re.sub _BR_RE LF v)) as [t ->]. simpl. now eexists.
Qed.

(** An exception of [html.unescape] leaves [clean_text]. *)
Lemma clean_text_raises (v : str) e :
  unescape (Re.sub _BR_RE LF v) = Raise e ->
  clean_text unescape (Some v) = Raise e.
Proof. intros H. simpl. now rewrite H. Qed.
End TextTotal.

Section TextClaims.
Variable unescape : str -> result str.

Lemma clean_text_unfold v :
  clean_text unescape (Some v)
  = let* text := unescape (Re.sub _BR_RE LF v) in
    Ret (clean_lines (Re.sub _TAG_RE SP text)).
Proof. reflexivity. Qed.

(** The cleaned text has no tag left. *)
Lemma clean_text_no_tag v y :
  clean_text unescape (Some v) = Ret y -> no_tag y = true.
Proof.
  rewrite clean_text_unfold.
  destruct (unescape (Re.sub _BR_RE LF v)) as [text|]; [|discriminate].
  cbn [bind]. intros H. inversion H. subst y.
  eapply squeeze_no_tag; [apply squeeze_clean_lines|].
  apply sub_tag_result_no_tag.
Qed.

(** C2, as amended.  Cleaning a cleaned text again changes nothing
    provided [html.unescape] leaves the cleaned text as it is, as it does
    for every text without [&]. *)
Theorem clean_text_idempotent (x y : str) :
  clean_text unescape (Some x) = Ret y ->
  unescape y = Ret y ->
  clean_text unescape (Some y) = Ret y.
Proof.
  intros Hx Hu. pose proof (clean_text_no_tag _ _ Hx) as Hnt.
  rewrite clean_text_unfold.
  rewrite (sub_br_no_tag _ Hnt), Hu. cbn [bind].
  rewrite (sub_tag_no_tag _ Hnt).
  rewrite clean_text_unfold in Hx.
  destruct (unescape (Re.sub _BR_RE LF x)) as [text|]; [|discriminate].
  cbn [bind] in Hx. inversion Hx. now rewrite clean_lines_idem.
Qed.
End TextClaims.

Lemma clean_text_idempotent_witness :
  clean_text Html.unescape (Some (u "Senior Dev & Ops" ++ LF ++ u "remote"))
  = Ret (u "Senior Dev & Ops" ++ LF ++ u "remote").
Proof.
  apply (clean_text_idempotent Html.unescape
           (u "Senior <b>Dev</b>  &amp;  Ops" ++ LF ++ LF ++ u " remote "));
    vm_compute; reflexivity.
Defined.

(** [html.unescape] returns a text without [&] as it is, so such a
    cleaned text is a fixed point of [clean_text]. *)
Lemma unescape_no_amp s : contains (u "&") s = false -> Html.unescape s = Ret s.
Proof. unfold Html.unescape. now intros ->. Qed.

Lemma clean_text_fixed_no_amp x y :
  clean_text Html.unescape (Some x) = Ret y ->
  contains (u "&") y = false ->
  clean_text Html.unescape (Some y) = Ret y.
Proof.
  intros Hx Hy. pose proof (clean_text_no_tag _ _ _ Hx) as Hnt.
  rewrite clean_text_unfold.
  rewrite (sub_br_no_tag _ Hnt), (unescape_no_amp _ Hy). cbn [bind].
  rewrite (sub_tag_no_tag _ Hnt).
  rewrite clean_text_unfold in Hx.
  destruct (Html.unescape (Re.sub _BR_RE LF x)) as [text|]; [|discriminate].
  cbn [bind] in Hx. inversion Hx. now rewrite clean_lines_idem.
Qed.

(** C2 as stated fails: one pass decodes [&amp;amp;] to [&amp;], the
    next decodes that to [&]. *)
Lemma clean_text_not_idempotent :
  clean_text Html.unescape (Some (u "&amp;amp;")) = Ret (u "&amp;")
  /\ clean_text Html.unescape (Some (u "&amp;")) = Ret (u "&")
  /\ u "&" <> u "&amp;".
Proof. repeat split; try (vm_compute; reflexivity). discriminate. Qed.

(** C1 fails on the code.  [_BR_RE] matches nothing in "a<br>b", the tag
    is then replaced by a space like any other tag, and the text comes
    out as one line, not two.  ([html.unescape] returns a text without
    [&] as it is.) *)
Theorem clean_text_br_is_space (unescape : str -> result str) :
  unescape (u "a<br>b") = Ret (u "a<br>b") ->
  clean_text unescape (Some (u "a<br>b")) = Ret (u "a b").
Proof.
  intros H. rewrite clean_text_unfold.
  change (Re.sub _BR_RE LF (u "a<br>b")) with (u "a<br>b").
  rewrite H. reflexivity.
Qed.

Lemma clean_text_br_is_space_witness :
  clean_text Html.unescape (Some (u "a<br>b")) = Ret (u "a b").
Proof. apply clean_text_br_is_space. reflexivity. Defined.

(** The pattern with [\s] in place of backslash and [s] does what the
    claim says. *)
Example br_tag_pattern :
  Re.sub BR_TAG_RE LF (u "a<br>b< BR  / >c<br/>d")
  = u "a" ++ LF ++ u "b" ++ LF ++ u "c" ++ LF ++ u "d"
  /\ Re.sub _BR_RE LF (u "a<br>b< BR  / >c<br/>d") = u "a<br>b< BR  / >c<br/>d".
Proof. split; vm_compute; reflexivity. Qed.
(* ===================================================================== *)
(** * Signs of binary64 results                                           *)
(* ===================================================================== *)

Module FloatFacts.
Local Open Scope Z_scope.

Lemma shr_1_nonneg mrs : (0 <= shr_m mrs)%Z -> (0 <= shr_m (shr_1 mrs))%Z.
Proof.
  destruct mrs as [m r s0]. simpl.
  destruct m as [|[p|p|]|p]; simpl; lia.
Qed.

Lemma iter_shr_1_nonneg n : forall mrs,
  (0 <= shr_m mrs)%Z -> (0 <= shr_m (SpecFloat.iter_pos shr_1 n mrs))%Z.
Proof.
  induction n as [n IH|n IH|]; intros mrs H; simpl.
  - apply IH, IH, shr_1_nonneg, H.
  - apply IH, IH, H.
  - apply shr_1_nonneg, H.
Qed.

Lemma shr_nonneg mrs e n :
  (0 <= shr_m mrs)%Z -> (0 <= shr_m (fst (shr mrs e n)))%Z.
Proof.
  intros H. unfold shr. destruct n; simpl; try assumption.
  now apply iter_shr_1_nonneg.
Qed.

Lemma shr_fexp_nonneg m e l :
  (0 <= m)%Z -> (0 <= shr_m (fst (shr_fexp prec emax m e l)))%Z.
Proof.
  intros H. unfold shr_fexp. apply shr_nonneg.
  destruct l as [|[]]; simpl; assumption.
Qed.

Lemma round_nearest_even_nonneg m l :
  (0 <= m)%Z -> (0 <= round_nearest_even m l)%Z.
Proof.
  intros H. unfold round_nearest_even.
  destruct l as [|[]]; try assumption; [destruct (Z.even m)|]; lia.
Qed.

(** Rounding a non-negative mantissa with sign bit clear gives zero, a
    positive number or plus infinity, never NaN. *)
Lemma binary_round_aux_nonneg mx ex lx :
  (0 <= mx)%Z -> is_nonneg (binary_round_aux prec emax false mx ex lx) = true.
Proof.
  intros H. unfold binary_round_aux.
  pose proof (shr_fexp_nonneg mx ex lx H) as H1.
  destruct (shr_fexp prec emax mx ex lx) as [mrs' e']. simpl in H1.
  pose proof (shr_fexp_nonneg _ e' loc_Exact
                (round_nearest_even_nonneg _ (loc_of_shr_record mrs') H1)) as H2.
  destruct (shr_fexp prec emax _ e' loc_Exact) as [mrs'' e'']. simpl in H2.
  destruct (shr_m mrs''); [reflexivity| |lia].
  now destruct (Z.leb e'' (emax - prec)).
Qed.

Lemma binary_round_nonneg m e :
  is_nonneg (binary_round prec emax false m e) = true.
Proof.
  unfold binary_round. destruct (shl_align _ _ _) as [mz ez].
  now apply binary_round_aux_nonneg.
Qed.

Lemma add_nonneg x y :
  is_nonneg x = true -> is_nonneg y = true -> is_nonneg (add x y) = true.
Proof.
  destruct x as [sx|[]| |[] mx ex], y as [sy|[]| |[] my ey];
    try discriminate; intros _ _; try reflexivity.
  - now destruct sx, sy.
  - unfold add, SFadd, binary_normalize. simpl cond_Zopp.
    rewrite <- Pos2Z.inj_add. apply binary_round_nonneg.
Qed.

Lemma mul_nonneg x c :
  is_nonneg x = true -> is_pos_finite c = true -> is_nonneg (mul x c) = true.
Proof.
  destruct x as [sx|[]| |[] mx ex], c as [sy|[]| |[] my ey];
    try discriminate; intros _ _; try reflexivity.
  unfold mul, SFmul. simpl xorb. now apply binary_round_aux_nonneg.
Qed.

Lemma div_core_nonneg m1 e1 m2 e2 :
  (0 <= fst (fst (SFdiv_core_binary prec emax (Zpos m1) e1 (Zpos m2) e2)))%Z.
Proof.
  unfold SFdiv_core_binary.
  set (s0 := (e1 - e2 - _)%Z).
  set (m' := match s0 with Zpos _ => Z.shiftl (Zpos m1) s0 | Z0 => Zpos m1 | Zneg _ => Z0 end).
  assert (Hm : (0 <= m')%Z).
  { subst m'. destruct s0; try lia. apply Z.shiftl_nonneg. lia. }
  pose proof (Z_div_mod m' (Zpos m2) ltac:(lia)) as Hd.
  destruct (Z.div_eucl m' (Zpos m2)) as [q r]. simpl. nia.
Qed.

Lemma div_nonneg x c :
  is_nonneg x = true -> is_pos_finite c = true -> is_nonneg (div x c) = true.
Proof.
  destruct x as [sx|[]| |[] mx ex], c as [sy|[]| |[] my ey];
    try discriminate; intros _ _; try reflexivity.
  unfold div, SFdiv.
  pose proof (div_core_nonneg mx ex my ey) as H.
  destruct (SFdiv_core_binary prec emax (Zpos mx) ex (Zpos my) ey) as [[mz ez] lz].
  simpl in H. simpl xorb. now apply binary_round_aux_nonneg.
Qed.

Lemma of_decimal_nonneg m k : is_nonneg (of_decimal m k) = true.
Proof.
  unfold of_decimal. destruct m; [reflexivity|].
  now apply div_nonneg.
Qed.

Lemma sum_nonneg l :
  Forall (fun x => is_nonneg x = true) l -> is_nonneg (sum l) = true.
Proof.
  unfold sum. generalize (of_Z 0) (eq_refl : is_nonneg (of_Z 0) = true).
  induction l as [|x l IH]; intros acc Hacc Hl; simpl; [assumption|].
  inversion Hl; subst. apply IH; [|assumption].
  now apply add_nonneg.
Qed.

(** ** The conversion of a length is finite and not zero *)

Lemma digits2_size p : digits2_pos p = Pos.size p.
Proof. induction p; simpl; congruence. Qed.

Lemma ndigits_bounds p : 2 ^ (ndigits (Zpos p) - 1) <= Zpos p < 2 ^ ndigits (Zpos p).
Proof.
  unfold ndigits. simpl. rewrite digits2_size.
  pose proof (Pos.size_gt p) as Hgt. pose proof (Pos.size_le p) as Hle.
  assert (H2 : Zpos (2 ^ Pos.size p) = 2 ^ Zpos (Pos.size p)) by apply Pos2Z.inj_pow.
  split.
  - assert (2 ^ Zpos (Pos.size p) <= 2 * Zpos p).
    { rewrite <- H2. change (2 * Zpos p) with (Zpos p~0). apply Pos2Z.pos_le_pos. exact Hle. }
    replace (Zpos (Pos.size p)) with (Z.succ (Zpos (Pos.size p) - 1)) in H by lia.
    rewrite Z.pow_succ_r in H by lia. lia.
  - rewrite <- H2. apply Pos2Z.pos_lt_pos. exact Hgt.
Qed.

Lemma ndigits_pos m : 0 < m -> 1 <= ndigits m /\ 2 ^ (ndigits m - 1) <= m < 2 ^ ndigits m.
Proof.
  destruct m as [|p|p]; try lia. intros _. split; [|apply ndigits_bounds].
  unfold ndigits. simpl. lia.
Qed.

Lemma ndigits_mono a b : 0 < a <= b -> ndigits a <= ndigits b.
Proof.
  intros [Ha Hab].
  destruct (ndigits_pos a Ha) as [Ha1 [Ha2 _]].
  destruct (ndigits_pos b ltac:(lia)) as [Hb1 [_ Hb2]].
  destruct (Z.le_gt_cases (ndigits a) (ndigits b)) as [|Hgt]; [assumption|].
  assert (2 ^ ndigits b <= 2 ^ (ndigits a - 1)) by (apply Z.pow_le_mono_r; lia).
  lia.
Qed.

Lemma ndigits_succ a : 0 < a -> ndigits (a + 1) <= ndigits a + 1.
Proof.
  intros Ha.
  destruct (ndigits_pos a Ha) as [Ha1 [_ Ha2]].
  destruct (ndigits_pos (a + 1) ltac:(lia)) as [Hb1 [Hb2 _]].
  destruct (Z.le_gt_cases (ndigits (a + 1)) (ndigits a + 1)) as [|Hgt]; [assumption|].
  assert (2 ^ (ndigits a + 1) <= 2 ^ (ndigits (a + 1) - 1)) by (apply Z.pow_le_mono_r; lia).
  rewrite Z.pow_add_r in H by lia. lia.
Qed.

Lemma shr_1_div2 mrs : 0 <= shr_m mrs -> shr_m (shr_1 mrs) = shr_m mrs / 2.
Proof.
  destruct mrs as [m r s0]. cbn [shr_m]. intros H.
  destruct m as [|[p|p|]|p]; unfold shr_1; cbn [shr_m]; try lia.
  - reflexivity.
  - apply Z.div_unique with 1; lia.
  - apply Z.div_unique with 0; lia.
  - reflexivity.
Qed.

Lemma iter_shr_1_div n : forall mrs,
  0 <= shr_m mrs ->
  shr_m (SpecFloat.iter_pos shr_1 n mrs) = shr_m mrs / 2 ^ Zpos n.
Proof.
  induction n as [n IH|n IH|]; intros mrs H; simpl SpecFloat.iter_pos.
  - rewrite IH by (apply iter_shr_1_nonneg, shr_1_nonneg, H).
    rewrite IH by (apply shr_1_nonneg, H).
    rewrite shr_1_div2 by assumption.
    rewrite !Z.div_div by lia. f_equal.
    rewrite Pos2Z.inj_xI. rewrite <- Z.pow_add_r, <- Z.pow_succ_r by lia.
    f_equal. lia.
  - rewrite IH by (apply iter_shr_1_nonneg, H).
    rewrite IH by assumption.
    rewrite !Z.div_div by lia. f_equal.
    rewrite Pos2Z.inj_xO. rewrite <- Z.pow_add_r by lia. f_equal. lia.
  - rewrite shr_1_div2 by assumption. reflexivity.
Qed.

Lemma shr_record_of_loc_m m l : shr_m (shr_record_of_loc m l) = m.
Proof. destruct l as [|[]]; reflexivity. Qed.

(** One normalisation step on a positive mantissa whose exponent is above
    the subnormal range: the mantissa stays positive, does not get
    longer, and the exponent is the larger of [e] and [digits + e - 53]. *)
Lemma shr_fexp_pos m e l :
  0 < m -> -1074 <= e ->
  let r := shr_fexp prec emax m e l in
  0 < shr_m (fst r) /\ ndigits (shr_m (fst r)) <= ndigits m
  /\ snd r = Z.max e (ndigits m + e - 53).
Proof.
  intros Hm He. unfold shr_fexp, shr, fexp, emin, prec, emax.
  destruct (ndigits_pos m Hm) as [Hd1 [Hd2 Hd3]]. fold (ndigits m).
  destruct (Z.max (ndigits m + e - 53) (3 - 1024 - 53) - e) as [|n|n] eqn:En; simpl.
  - rewrite shr_record_of_loc_m. lia.
  - rewrite iter_shr_1_div by (rewrite shr_record_of_loc_m; lia).
    rewrite shr_record_of_loc_m.
    assert (Hn : Zpos n = ndigits m - 53) by lia.
    assert (Hle : 2 ^ Zpos n <= m).
    { eapply Z.le_trans; [|exact Hd2]. apply Z.pow_le_mono_r; lia. }
    assert (Hq : 0 < m / 2 ^ Zpos n) by (apply Z.div_str_pos; lia).
    split; [exact Hq|]. split; [|lia].
    apply ndigits_mono. split; [exact Hq|].
    apply Z.div_le_upper_bound; [lia|]. nia.
  - rewrite shr_record_of_loc_m. lia.
Qed.

Lemma ndigits_iter_xO k p : ndigits (Zpos (Pos.iter xO p k)) = ndigits (Zpos p) + Zpos k.
Proof.
  unfold ndigits. cbn [Zdigits2].
  revert p. induction k using Pos.peano_ind; intros p.
  - simpl. lia.
  - rewrite Pos.iter_succ. cbn [digits2_pos].
    rewrite Pos2Z.inj_succ, IHk. lia.
Qed.

Lemma of_Z_pos_finite n : 0 < n <= maxsize -> is_pos_finite (of_Z n) = true.
Proof.
  intros [Hn Hmax]. destruct n as [|p|p]; try lia.
  unfold of_Z, binary_normalize, binary_round.
  destruct (ndigits_pos (Zpos p) ltac:(lia)) as [Hd1 [Hd2 Hd3]].
  assert (Hd63 : ndigits (Zpos p) <= 63).
  { destruct (Z.le_gt_cases (ndigits (Zpos p)) 63) as [|Hgt]; [assumption|].
    assert (2 ^ 63 <= 2 ^ (ndigits (Zpos p) - 1)) by (apply Z.pow_le_mono_r; lia).
    unfold maxsize in Hmax. lia. }
  assert (Hal : exists mz ez,
    shl_align p 0 (fexp prec emax (Zpos (digits2_pos p) + 0)) = (mz, ez)
    /\ -52 <= ez <= 0 /\ ndigits (Zpos mz) + ez = ndigits (Zpos p)).
  { unfold shl_align, fexp, emin, prec, emax. 
    change (Zpos (digits2_pos p)) with (ndigits (Zpos p)).
    destruct (Z.max (ndigits (Zpos p) + 0 - 53) (3 - 1024 - 53) - 0) as [|k|k] eqn:Ek.
    - eexists _, _. split; [reflexivity|]. lia.
    - eexists _, _. split; [reflexivity|]. lia.
    - eexists _, _. split; [reflexivity|].
      rewrite ndigits_iter_xO. lia. }
  destruct Hal as (mz & ez & -> & Hez & Hdz).
  unfold binary_round_aux.
  pose proof (shr_fexp_pos (Zpos mz) ez loc_Exact ltac:(lia) ltac:(lia)) as H1.
  destruct (shr_fexp prec emax (Zpos mz) ez loc_Exact) as [mrs1 e1].
  cbv zeta in H1. cbn [fst snd] in H1. destruct H1 as (Hm1 & Hd1' & He1).
  set (m2 := round_nearest_even (shr_m mrs1) (loc_of_shr_record mrs1)).
  assert (Hm2 : shr_m mrs1 <= m2 <= shr_m mrs1 + 1).
  { subst m2. unfold round_nearest_even.
    destruct (loc_of_shr_record mrs1) as [|[]]; try lia.
    destruct (Z.even _); lia. }
  clearbody m2.
  assert (Hd2' : ndigits m2 <= ndigits (Zpos mz) + 1).
  { destruct (Z.eq_dec m2 (shr_m mrs1)) as [->|Hne]; [lia|].
    replace m2 with (shr_m mrs1 + 1) by lia.
    pose proof (ndigits_succ (shr_m mrs1) Hm1). lia. }
  pose proof (shr_fexp_pos m2 e1 loc_Exact ltac:(lia) ltac:(lia)) as H2.
  destruct (shr_fexp prec emax m2 e1 loc_Exact) as [mrs2 e2].
  cbv zeta in H2. cbn [fst snd] in H2. destruct H2 as (Hm3 & _ & He2).
  destruct (shr_m mrs2) as [|m3|m3]; try lia.
  assert (He : (e2 <=? emax - prec) = true).
  { apply Z.leb_le. unfold emax, prec. lia. }
  rewrite He. reflexivity.
Qed.

(** [0 <= f] *)
Lemma leb_zero_nonneg f : leb (of_Z 0) f = is_nonneg f.
Proof. destruct f as [s|[]| |[] m e]; reflexivity. Qed.

End FloatFacts.
(* ===================================================================== *)
(** * Salary parser: the claims                                           *)
(* ===================================================================== *)

(** ** The tokens of the salary pattern *)

Lemma matches_star_all p s : matches (Re.Star p) s -> Forall (fun c => p c = true) s.
Proof.
  intros H. remember (Re.Star p) as r eqn:Er.
  induction H; try discriminate; inversion Er; subst; constructor; auto.
Qed.

Lemma matches_plus p s :
  matches (Re.Plus p) s -> s <> [] /\ Forall (fun c => p c = true) s.
Proof.
  unfold Re.Plus. intros H. inversion H as [| | | | | |? ? s1 s2 H1 H2]; subst.
  inversion H1; subst. apply matches_star_all in H2.
  split; [discriminate|]. now constructor.
Qed.

(** The group of [_SALARY_NUM_RE] captures salary tokens only. *)
Lemma match_group_token s g rest :
  Re.match_group (fst _SALARY_NUM_RE) (snd _SALARY_NUM_RE) s = Some (g, rest) ->
  salary_token g.
Proof.
  unfold Re.match_group. intros H.
  apply mtch_sound in H. destruct H as (pre0 & s1 & -> & _ & H).
  apply mtch_sound in H. destruct H as (pre & s2 & -> & Hm & H).
  inversion H. subst rest. clear H.
  rewrite length_app, Nat.add_sub, firstn_app, Nat.sub_diag, firstn_all.
  cbn [firstn]. rewrite app_nil_r.
  cbn [_SALARY_NUM_RE snd] in Hm.
  inversion Hm as [| | | | | |? ? a b Ha Hb]; subst.
  apply matches_plus in Ha. destruct Ha as [Hne Ha].
  exists a, b. repeat split; try assumption.
  inversion Hb as [| | | |?|? ? Hb'|]; subst; [now left|].
  right. inversion Hb' as [| | | | | |? ? b1 d Hb1 Hd]; subst.
  inversion Hb1; subst. apply matches_plus in Hd. destruct Hd as [Hdne Hd].
  exists d. repeat split; try assumption.
  match goal with H : Re.lit "." ?c = true |- _ => apply ch_eqb_eq in H; now subst end.
Qed.

Lemma findall_salary_tokens s : forall k,
  Forall salary_token
    (Re.findall_aux (fst _SALARY_NUM_RE) (snd _SALARY_NUM_RE) k s).
Proof.
  induction s as [|c s IH]; intros k.
  - cbn. constructor.
  - cbn [Re.findall_aux]. destruct k as [|k]; [|apply IH].
    destruct (Re.match_group _ _ (c :: s)) as [[g rest]|] eqn:E; [|apply IH].
    constructor; [|apply IH]. now apply match_group_token in E.
Qed.

(** ** Every token parses *)

Lemma replace_comma s :
  replace (u ",") [] s = List.filter (fun c => negb (ch_eqb "," c)) s.
Proof.
  unfold replace. change (u ",") with [","%char].
  induction s as [|c s IH]; [reflexivity|].
  cbn [replace_aux startswith List.filter length Nat.sub].
  rewrite andb_true_r.
  destruct (ch_eqb "," c); cbn [negb app]; now rewrite IH.
Qed.

Lemma digit_not_space c : is_digit c = true -> is_space c = false.
Proof.
  destruct c as [b0 b1 b2 b3 b4 b5 b6 b7].
  destruct b0, b1, b2, b3, b4, b5, b6, b7; intros H;
    first [reflexivity | discriminate H].
Qed.

Lemma digit_not_comma c : is_digit c = true -> ch_eqb "," c = false.
Proof.
  intros H. destruct (ch_eqb "," c) eqn:E; [|reflexivity].
  apply ch_eqb_eq in E. subst c. discriminate H.
Qed.

Lemma lstrip_id s :
  match s with c :: _ => is_space c = false | [] => True end -> lstrip s = s.
Proof. destruct s as [|c s]; [reflexivity|]. cbn [lstrip]. now intros ->. Qed.

Lemma strip_id s :
  Forall (fun c => is_space c = false) s -> strip s = s.
Proof.
  intros H. unfold strip.
  rewrite (lstrip_id s) by (destruct H; auto).
  rewrite (lstrip_id (rev s)); [apply rev_involutive|].
  apply Forall_rev in H. destruct H; auto.
Qed.

Lemma span_digits_app ds rest :
  Forall (fun c => is_digit c = true) ds ->
  match rest with c :: _ => is_digit c = false | [] => True end ->
  span_digits (ds ++ rest) = (ds, rest).
Proof.
  intros Hds Hrest. induction Hds as [|c ds Hc Hds IH].
  - destruct rest as [|c rest]; [reflexivity|]. cbn [app span_digits]. now rewrite Hrest.
  - cbn [app span_digits]. now rewrite Hc, IH.
Qed.

(** [float] accepts every token the pattern captures, once its commas
    are removed: the [except ValueError] of the loop is never entered. *)
Lemma salary_token_parses g :
  salary_token g ->
  let n := strip (replace (u ",") [] g) in
  nonempty n = true -> exists f, of_str n = Ret f.
Proof.
  intros (a & b & -> & _ & Ha & Hb) n.
  set (ds := List.filter (fun c => negb (ch_eqb "," c)) a).
  assert (Hds : Forall (fun c => is_digit c = true) ds).
  { subst ds. clear -Ha. induction Ha as [|c a Hc Ha IH]; [constructor|].
    cbn [List.filter]. destruct (ch_eqb "," c) eqn:E; cbn [negb]; [exact IH|].
    constructor; [|exact IH]. now rewrite orb_false_r in Hc. }
  assert (Hb' : List.filter (fun c => negb (ch_eqb "," c)) b = b
                /\ Forall (fun c => is_space c = false) b
                /\ match b with c :: _ => is_digit c = false | [] => True end).
  { destruct Hb as [->|(d & -> & _ & Hd)]; [repeat split; constructor|].
    split; [|split; [|reflexivity]].
    - cbn [List.filter]. change (negb (ch_eqb "," ".")) with true. cbv iota.
      f_equal. clear -Hd. induction Hd as [|c d Hc Hd IH]; [reflexivity|].
      cbn [List.filter]. now rewrite (digit_not_comma _ Hc), IH.
    - constructor; [reflexivity|].
      eapply List.Forall_impl; [|exact Hd]. apply digit_not_space. }
  destruct Hb' as (Hfb & Hsb & Hhb).
  assert (Hn : n = ds ++ b).
  { subst n. rewrite replace_comma, List.filter_app, Hfb. fold ds.
    apply strip_id. apply Forall_app. split; [|exact Hsb].
    eapply List.Forall_impl; [|exact Hds]. apply digit_not_space. }
  rewrite Hn. intros Hne. unfold of_str.
  rewrite (span_digits_app _ _ Hds Hhb).
  destruct Hb as [->|(d & -> & Hdne & Hd)].
  - rewrite app_nil_r in Hne. rewrite Hne. now eexists.
  - change (ch_eqb "." ".") with true. cbn [andb].
    assert (Hall : forallb is_digit d = true).
    { clear -Hd. induction Hd as [|c d Hc Hd IH]; [reflexivity|].
      cbn [forallb]. now rewrite Hc, IH. }
    rewrite Hall. destruct d as [|d0 d']; [congruence|].
    cbn [nonempty]. rewrite orb_true_r. now eexists.
Qed.

(** The numbers collected from the tokens of a salary string are the
    floats of all its non-empty tokens. *)
Lemma salary_nums_of_tokens tokens :
  Forall salary_token tokens ->
  exists nums, salary_nums tokens = Ret nums
    /\ Forall2 (fun n f => of_str n = Ret f)
         (List.filter nonempty (map (fun g => strip (replace (u ",") [] g)) tokens))
         nums.
Proof.
  induction 1 as [|g tokens Hg Hall (nums & E & IH)].
  - exists []. split; [reflexivity | constructor].
  - cbn [salary_nums map List.filter]. rewrite E.
    destruct (nonempty (strip (replace (u ",") [] g))) eqn:En.
    + destruct (salary_token_parses g Hg En) as [f Ef].
      rewrite Ef. exists (f :: nums). split; [reflexivity|]. now constructor.
    + exists nums. split; [reflexivity | exact IH].
Qed.

(** ** Counting and signs *)

Lemma lstrip_length s : (length (lstrip s) <= length s)%nat.
Proof.
  induction s as [|c s IH]; simpl; [lia|].
  destruct (is_space c); simpl; lia.
Qed.

Lemma strip_length s : (length (strip s) <= length s)%nat.
Proof.
  unfold strip. rewrite length_rev.
  etransitivity; [apply lstrip_length|].
  rewrite length_rev. apply lstrip_length.
Qed.

(** A search yields at most one token per character. *)
Lemma findall_salary_length s : forall k,
  (length (Re.findall_aux (fst _SALARY_NUM_RE) (snd _SALARY_NUM_RE) k s)
   <= length s)%nat.
Proof.
  induction s as [|c s IH]; intros k.
  - simpl. lia.
  - cbn [Re.findall_aux]. destruct k as [|k].
    + destruct (Re.match_group _ _ (c :: s)) as [[g rest]|].
      * cbn [length]. specialize (IH (length s - length rest)%nat). lia.
      * specialize (IH 0%nat). cbn [length]. lia.
    + specialize (IH k). cbn [length]. lia.
Qed.

Lemma of_str_raises s e : of_str s = Raise e -> e = ValueError.
Proof.
  unfold of_str. destruct (span_digits s) as [ip rest].
  destruct rest as [|c fp].
  - destruct (nonempty ip); intros H; inversion H; reflexivity.
  - destruct (_ && _ && _); intros H; inversion H; reflexivity.
Qed.

Lemma of_str_nonneg s f : of_str s = Ret f -> is_nonneg f = true.
Proof.
  unfold of_str. destruct (span_digits s) as [ip rest].
  destruct rest as [|c fp].
  - destruct (nonempty ip); intros H; inversion H.
    apply FloatFacts.of_decimal_nonneg.
  - destruct (_ && _ && _); intros H; inversion H.
    apply FloatFacts.of_decimal_nonneg.
Qed.

(** The loop over the tokens never raises: [float] raises nothing but
    [ValueError], which the loop catches.  It collects at most one number
    per token, none of them negative. *)
Lemma salary_nums_returns tokens :
  exists nums, salary_nums tokens = Ret nums
    /\ (length nums <= length tokens)%nat
    /\ Forall (fun x => is_nonneg x = true) nums.
Proof.
  induction tokens as [|n tokens (nums & E & Hlen & Hall)].
  - exists []. repeat split; [simpl; lia | constructor].
  - cbn [salary_nums]. rewrite E.
    destruct (nonempty (strip (replace (u ",") [] n))).
    + destruct (of_str (strip (replace (u ",") [] n))) as [f|e] eqn:Ef.
      * exists (f :: nums). simpl. repeat split; [lia|].
        constructor; [now apply of_str_nonneg in Ef | assumption].
      * apply of_str_raises in Ef. subst e.
        exists nums. simpl. repeat split; [lia | assumption].
    + exists nums. simpl. repeat split; [lia | assumption].
Qed.

(** The mean never divides by zero: the length of a non-empty list
    converts to a positive finite float. *)
Lemma mean_returns nums :
  nums <> [] -> (Z.of_nat (length nums) <= maxsize)%Z ->
  mean nums = Ret (div (sum nums) (of_Z (Z.of_nat (length nums))))
  /\ is_pos_finite (of_Z (Z.of_nat (length nums))) = true.
Proof.
  intros Hne Hmax.
  assert (Hpos : is_pos_finite (of_Z (Z.of_nat (length nums))) = true).
  { apply FloatFacts.of_Z_pos_finite. destruct nums; [congruence|].
    cbn [length] in *. lia. }
  split; [|exact Hpos].
  unfold mean, truediv.
  destruct (of_Z (Z.of_nat (length nums))) as [| | |[]]; try discriminate.
  reflexivity.
Qed.

Lemma mean_nonneg nums :
  nums <> [] -> (Z.of_nat (length nums) <= maxsize)%Z ->
  Forall (fun x => is_nonneg x = true) nums ->
  is_nonneg (div (sum nums) (of_Z (Z.of_nat (length nums)))) = true.
Proof.
  intros Hne Hmax Hall.
  apply FloatFacts.div_nonneg; [now apply FloatFacts.sum_nonneg|].
  now apply mean_returns.
Qed.

(** what [to_monthly] returns, case by case *)
Lemma to_monthly_cases low avg :
  to_monthly low avg =
    Ret (if any_in HOURLY low then mul avg (of_Z 160)
         else if any_in YEARLY low then div avg (of_Z 12)
         else if any_in WEEKLY low then mul avg (of_Z 4)
         else if any_in MONTHLY low then avg
         else if ltb (of_Z 10000) avg then div avg (of_Z 12)
         else if ltb avg (of_Z 50) then mul avg (of_Z 160)
         else avg).
Proof.
  unfold to_monthly.
  destruct (any_in HOURLY low), (any_in YEARLY low), (any_in WEEKLY low),
    (any_in MONTHLY low), (ltb (of_Z 10000) avg), (ltb avg (of_Z 50));
    reflexivity.
Qed.

Lemma to_monthly_nonneg low avg m :
  is_nonneg avg = true -> to_monthly low avg = Ret m -> is_nonneg m = true.
Proof.
  intros Havg. rewrite to_monthly_cases. intros H. inversion H. clear H.
  repeat match goal with
  | |- context [if ?b then _ else _] => destruct b
  end; try assumption;
  first [apply FloatFacts.mul_nonneg | apply FloatFacts.div_nonneg];
  try assumption; reflexivity.
Qed.

(** the tokens of a salary string and the bound on their number *)
Lemma salary_tokens_bound (job : record) :
  (Z.of_nat (length (get_or_empty job "salary")) <= maxsize)%Z ->
  (Z.of_nat (length (Re.findall (fst _SALARY_NUM_RE) (snd _SALARY_NUM_RE)
                       (strip (get_or_empty job "salary")))) <= maxsize)%Z.
Proof.
  intros H. unfold Re.findall.
  pose proof (findall_salary_length (strip (get_or_empty job "salary")) 0).
  pose proof (strip_length (get_or_empty job "salary")). lia.
Qed.

(** C5.  When numbers are extracted from a salary string, the result is
    their mean, times 160 if an hourly keyword occurs in the lower-cased
    string, else divided by 12 if a yearly one does, else times 4 if a
    weekly one does, else unchanged if a monthly one does; with no
    keyword, a mean above 10000 is divided by 12, a mean below 50 is
    multiplied by 160 and any other mean is returned as it is.  "$20/hr"
    gives 3200.0 and "$60,000/year" gives 5000.0. *)
Theorem parse_salary_monthly_periods (job : record) (nums : list float) :
  let raw := strip (get_or_empty job "salary") in
  let low := lower raw in
  (Z.of_nat (length (get_or_empty job "salary")) <= maxsize)%Z ->
  salary_skipped low = false ->
  salary_nums (Re.findall (fst _SALARY_NUM_RE) (snd _SALARY_NUM_RE) raw) = Ret nums ->
  nums <> [] ->
  exists avg,
    mean nums = Ret avg
    /\ avg = div (sum nums) (of_Z (Z.of_nat (length nums)))
    /\ (any_in HOURLY low = true ->
        parse_salary_monthly job = Ret (Some (mul avg (of_Z 160))))
    /\ (any_in HOURLY low = false -> any_in YEARLY low = true ->
        parse_salary_monthly job = Ret (Some (div avg (of_Z 12))))
    /\ (any_in HOURLY low = false -> any_in YEARLY low = false ->
        any_in WEEKLY low = true ->
        parse_salary_monthly job = Ret (Some (mul avg (of_Z 4))))
    /\ (any_in HOURLY low = false -> any_in YEARLY low = false ->
        any_in WEEKLY low = false -> any_in MONTHLY low = true ->
        parse_salary_monthly job = Ret (Some avg))
    /\ (any_in HOURLY low = false -> any_in YEARLY low = false ->
        any_in WEEKLY low = false -> any_in MONTHLY low = false ->
        (ltb (of_Z 10000) avg = true ->
         parse_salary_monthly job = Ret (Some (div avg (of_Z 12))))
        /\ (ltb (of_Z 10000) avg = false -> ltb avg (of_Z 50) = true ->
            parse_salary_monthly job = Ret (Some (mul avg (of_Z 160))))
        /\ (ltb (of_Z 10000) avg = false -> ltb avg (of_Z 50) = false ->
            parse_salary_monthly job = Ret (Some avg)))
    /\ parse_salary_monthly {[ "salary"%string := Some (u "$20/hr") ]}
       = Ret (Some (of_Z 3200))
    /\ parse_salary_monthly {[ "salary"%string := Some (u "$60,000/year") ]}
       = Ret (Some (of_Z 5000)).
Proof.
  intros raw low Hmax Hskip Hnums Hne.
  assert (Hlen : (Z.of_nat (length nums) <= maxsize)%Z).
  { pose proof (salary_tokens_bound job Hmax) as Hb. fold raw in Hb.
    destruct (salary_nums_returns
                (Re.findall (fst _SALARY_NUM_RE) (snd _SALARY_NUM_RE) raw))
      as (nums' & E & Hl & _).
    rewrite Hnums in E. inversion E. subst nums'. lia. }
  destruct (mean_returns nums Hne Hlen) as [Hmean _].
  exists (div (sum nums) (of_Z (Z.of_nat (length nums)))).
  split; [exact Hmean|]. split; [reflexivity|].
  assert (Hraw : nonempty raw = true).
  { destruct raw as [|c r] eqn:Eraw; [|reflexivity].
    exfalso. apply Hne.
    change (salary_nums [] = Ret nums) in Hnums. inversion Hnums. reflexivity. }
  assert (Hparse : parse_salary_monthly job
     = let* m := to_monthly low (div (sum nums) (of_Z (Z.of_nat (length nums)))) in
       Ret (Some m)).
  { unfold parse_salary_monthly. fold raw. rewrite Hraw. cbn [negb].
    fold low. rewrite Hskip, Hnums. cbn [bind].
    destruct nums as [|x nums']; [congruence|]. cbn [negb].
    rewrite Hmean. reflexivity. }
  rewrite Hparse, to_monthly_cases. cbn [bind].
  split; [intros ->; reflexivity|].
  split; [intros -> ->; reflexivity|].
  split; [intros -> -> ->; reflexivity|].
  split; [intros -> -> -> ->; reflexivity|].
  split.
  { intros -> -> -> ->. split; [intros ->; reflexivity|].
    split; intros -> ->; reflexivity. }
  split; vm_compute; reflexivity.
Qed.

Lemma parse_salary_monthly_periods_witness :
  parse_salary_monthly {[ "salary"%string := Some (u "$20/hr") ]}
  = Ret (Some (mul (div (sum [of_Z 20]) (of_Z 1)) (of_Z 160))).
Proof.
  destruct (parse_salary_monthly_periods
              {[ "salary"%string := Some (u "$20/hr") ]} [of_Z 20])
    as (avg & _ & -> & Hhourly & _).
  - vm_compute. discriminate.
  - vm_compute. reflexivity.
  - vm_compute. reflexivity.
  - discriminate.
  - apply Hhourly. vm_compute. reflexivity.
Defined.

(** The parser always returns, and what it returns is [None] or a float
    that is not negative. *)
Lemma parse_salary_monthly_returns (job : record) :
  (Z.of_nat (length (get_or_empty job "salary")) <= maxsize)%Z ->
  exists r, parse_salary_monthly job = Ret r
            /\ forall v, r = Some v -> is_nonneg v = true.
Proof.
  intros Hmax. unfold parse_salary_monthly.
  set (raw := strip (get_or_empty job "salary")).
  destruct (nonempty raw); cbn [negb].
  2:{ exists None. split; [reflexivity | discriminate]. }
  destruct (salary_skipped (lower raw)).
  { exists None. split; [reflexivity | discriminate]. }
  destruct (salary_nums_returns
              (Re.findall (fst _SALARY_NUM_RE) (snd _SALARY_NUM_RE) raw))
    as (nums & E & Hl & Hall).
  rewrite E. cbn [bind].
  destruct nums as [|x nums'] eqn:En; cbn [negb].
  { exists None. split; [reflexivity | discriminate]. }
  rewrite <- En in *.
  assert (Hne : nums <> []) by (rewrite En; discriminate).
  assert (Hlen : (Z.of_nat (length nums) <= maxsize)%Z).
  { pose proof (salary_tokens_bound job Hmax) as Hb. fold raw in Hb. lia. }
  destruct (mean_returns nums Hne Hlen) as [Hmean _].
  rewrite Hmean. cbn [bind].
  rewrite to_monthly_cases. cbn [bind].
  eexists. split; [reflexivity|].
  intros v Hv. inversion Hv. subst v.
  eapply to_monthly_nonneg; [|apply to_monthly_cases].
  now apply mean_nonneg.
Qed.

(** C10.  The parser returns, and what it returns is [None] or a number
    that is not negative: [0 <= v] holds and [v < 0] does not, so the
    lower bound of the bracket [under500] excludes no parsed salary. *)
Theorem parse_salary_monthly_nonneg (job : record) :
  (Z.of_nat (length (get_or_empty job "salary")) <= maxsize)%Z ->
  exists r,
    parse_salary_monthly job = Ret r
    /\ forall v, r = Some v ->
         leb (of_Z 0) v = true
         /\ ltb v (of_Z 0) = false
         /\ forall lo hi, range_of (u "under500") SALARY_RANGES = Some (lo, hi) ->
                          leb lo v = true.
Proof.
  intros Hmax.
  destruct (parse_salary_monthly_returns job Hmax) as (r & E & Hr).
  exists r. split; [exact E|].
  intros v Hv. specialize (Hr v Hv).
  split; [|split].
  - now rewrite FloatFacts.leb_zero_nonneg.
  - destruct v as [s|[]| |[] m e]; try discriminate; reflexivity.
  - intros lo hi H. vm_compute in H. inversion H. subst lo hi.
    now rewrite FloatFacts.leb_zero_nonneg.
Qed.

Lemma parse_salary_monthly_nonneg_witness :
  exists r,
    parse_salary_monthly {[ "salary"%string := Some (u "$50-$70") ]} = Ret r
    /\ forall v, r = Some v ->
         leb (of_Z 0) v = true
         /\ ltb v (of_Z 0) = false
         /\ forall lo hi, range_of (u "under500") SALARY_RANGES = Some (lo, hi) ->
                          leb lo v = true.
Proof.
  apply (parse_salary_monthly_nonneg {[ "salary"%string := Some (u "$50-$70") ]}).
  vm_compute. discriminate.
Defined.

(** More salaries of the specification's examples. *)
Example parse_salary_monthly_examples :
  parse_salary_monthly {[ "salary"%string := Some (u "$3000/month") ]}
    = Ret (Some (of_Z 3000))
  /\ parse_salary_monthly {[ "salary"%string := Some (u "TBD") ]} = Ret None
  /\ parse_salary_monthly {[ "salary"%string := Some (u "$50-$70") ]}
    = Ret (Some (of_Z 60))
  /\ parse_salary_monthly {[ "title"%string := Some (u "Developer") ]} = Ret None
  /\ parse_salary_monthly {[ "salary"%string := None ]} = Ret None.
Proof. repeat split; vm_compute; reflexivity. Qed.
(* ===================================================================== *)
(** * Date parser and totality                                            *)
(* ===================================================================== *)

Section DateFacts.
Variable fromisoformat : str -> result pydatetime.
Variable parsedate_to_datetime : str -> result pydatetime.
Variable strptime : str -> str -> result pydatetime.

Lemma try_except_returns {A} (r : result pydatetime) (f : pydatetime -> A)
    classes (handler : result A) :
  caught classes r -> returns handler ->
  returns (try_except (let* dt := r in Ret (f dt)) classes handler).
Proof.
  intros Hc Hh. destruct r as [dt|e]; simpl in *.
  - now eexists.
  - now rewrite Hc.
Qed.

(** [parse_date] returns whenever each parser returns or raises one of
    the classes its [except] clause names. *)
Lemma parse_date_returns (job : record) :
  caught [ValueError; TypeError] (fromisoformat (date_raw job)) ->
  caught [ValueError; TypeError; IndexError] (parsedate_to_datetime (date_raw job)) ->
  (forall fmt, caught [ValueError; TypeError] (strptime (date_raw job) fmt)) ->
  returns (parse_date fromisoformat parsedate_to_datetime strptime job).
Proof.
  intros H1 H2 H3. unfold parse_date.
  destruct (nonempty (date_raw job)); cbn [negb]; [|now eexists].
  apply try_except_returns; [exact H1|].
  apply try_except_returns; [exact H2|].
  apply try_except_returns; [apply H3|].
  apply try_except_returns; [apply H3|].
  now eexists.
Qed.

(** C9 fails on [parse_date].  [datetime.fromisoformat] rejects the
    string with [ValueError], which is caught; the next parser,
    [parsedate_to_datetime], raises [OverflowError] on a year that does
    not fit a C integer, and the [except] clause around it names
    [ValueError], [TypeError] and [IndexError] only: the exception leaves
    [parse_date]. *)
Theorem parse_date_overflow_escapes (job : record) :
  nonempty (date_raw job) = true ->
  fromisoformat (date_raw job) = Raise ValueError ->
  parsedate_to_datetime (date_raw job) = Raise OverflowError ->
  parse_date fromisoformat parsedate_to_datetime strptime job = Raise OverflowError.
Proof.
  intros Hne H1 H2. unfold parse_date.
  rewrite Hne, H1, H2. reflexivity.
Qed.

End DateFacts.

Lemma parse_date_overflow_escapes_witness :
  parse_date Lib.fromisoformat Lib.parsedate_to_datetime Lib.strptime
    {[ "posted_date"%string := Some Lib.overflow_date ]} = Raise OverflowError.
Proof.
  apply parse_date_overflow_escapes; vm_compute; reflexivity.
Defined.

(** The exception leaves [load_jobs] too: no job is served. *)
Lemma load_jobs_overflow_escapes :
  load_jobs Html.unescape Lib.fromisoformat Lib.parsedate_to_datetime
    Lib.strptime Lib.strftime
    (Some [ {[ "posted_date"%string := Some Lib.overflow_date ]} ])
  = Raise OverflowError.
Proof. vm_compute. reflexivity. Qed.

(* ===================================================================== *)
(** * Classifier                                                          *)
(* ===================================================================== *)

(** The label returned is the first of the table one of whose keywords
    occurs in the text, and the empty string when there is none. *)
Lemma first_label_spec table text :
  (exists before label kws after,
     table = before ++ (label, kws) :: after
     /\ any_in kws text = true
     /\ Forall (fun e => any_in (snd e) text = false) before
     /\ first_label table text = label)
  \/ (Forall (fun e => any_in (snd e) text = false) table
      /\ first_label table text = []).
Proof.
  induction table as [|[label kws] table IH].
  - right. split; [constructor | reflexivity].
  - cbn [first_label]. destruct (any_in kws text) eqn:E.
    + left. exists [], label, kws, table. repeat split; auto.
    + destruct IH as [(before & l & k & after & -> & Hk & Hb & Hl)|[Hall Hl]].
      * left. exists ((label, kws) :: before), l, k, after.
        repeat split; auto.
      * right. split; [|exact Hl]. constructor; [exact E | exact Hall].
Qed.

Example detect_examples :
  detect_arrangement {[ "location"%string := Some (u "Remote, US") ]} = u "remote"
  /\ detect_job_type {[ "type"%string := Some (u "Full-time") ]} = u "full-time"
  /\ detect_arrangement {[ "title"%string := Some (u "Engineer") ]} = []
  /\ detect_arrangement
       {[ "location"%string := Some (u "Hybrid - Berlin");
          "title"%string := Some (u "Remote support") ]} = u "remote".
Proof. repeat split; vm_compute; reflexivity. Qed.
(* ===================================================================== *)
(** * Sorting                                                             *)
(* ===================================================================== *)

Section Sorting.
Context {A : Type} (key : A -> N) (reverse : bool).

Local Abbreviation before := (sort_before key reverse).

Lemma before_total x y : before x y = false -> before y x = true.
Proof. unfold sort_before. destruct reverse; intros H; apply N.leb_gt in H; apply N.leb_le; lia. Qed.

Lemma before_trans x y z : before x y = true -> before y z = true -> before x z = true.
Proof.
  unfold sort_before. destruct reverse; intros H1 H2;
    apply N.leb_le in H1; apply N.leb_le in H2; apply N.leb_le; lia.
Qed.

Lemma insert_by_perm x l : Permutation (insert_by before x l) (x :: l).
Proof.
  induction l as [|y l IH]; simpl; [reflexivity|].
  destruct (before x y); [reflexivity|].
  rewrite IH. apply perm_swap.
Qed.

Lemma list_sort_perm l : Permutation (list_sort key reverse l) l.
Proof.
  unfold list_sort.
  induction l as [|x l IH]; simpl; [reflexivity|].
  rewrite insert_by_perm. now constructor.
Qed.

Lemma insert_by_filter (p : A -> bool) x l :
  (forall y, p x = true -> p y = true -> before x y = true) ->
  List.filter p (insert_by before x l)
  = if p x then x :: List.filter p l else List.filter p l.
Proof.
  intros Hp. induction l as [|y l IH]; simpl; [reflexivity|].
  destruct (before x y) eqn:Hb; simpl.
  - reflexivity.
  - rewrite IH. specialize (Hp y).
    destruct (p x), (p y); try reflexivity.
    rewrite Hp in Hb by reflexivity. discriminate.
Qed.

(** Stability: the elements of one key keep their order. *)
Lemma list_sort_stable (d : N) l :
  List.filter (fun x => (key x =? d)%N) (list_sort key reverse l)
  = List.filter (fun x => (key x =? d)%N) l.
Proof.
  unfold list_sort.
  induction l as [|x l IH]; simpl; [reflexivity|].
  rewrite insert_by_filter.
  - now rewrite IH.
  - intros y Hx Hy. apply N.eqb_eq in Hx, Hy. unfold sort_before.
    destruct reverse; apply N.leb_le; lia.
Qed.

Lemma insert_by_sorted x l :
  StronglySorted (fun a b => before a b = true) l ->
  StronglySorted (fun a b => before a b = true) (insert_by before x l).
Proof.
  induction 1 as [|y l Hs IH Hall]; simpl.
  - repeat constructor.
  - destruct (before x y) eqn:Hb.
    + constructor; [now constructor|].
      constructor; [assumption|].
      eapply List.Forall_impl; [|exact Hall].
      intros z Hz. eapply before_trans; eassumption.
    + constructor; [assumption|].
      eapply Permutation_Forall; [symmetry; apply insert_by_perm|].
      constructor; [now apply before_total | assumption].
Qed.

Lemma list_sort_sorted l :
  StronglySorted (fun a b => before a b = true) (list_sort key reverse l).
Proof.
  unfold list_sort.
  induction l as [|x l IH]; simpl; [constructor|].
  now apply insert_by_sorted.
Qed.
End Sorting.

(* ===================================================================== *)
(** * What a run of [apply_filters] does to the store                     *)
(* ===================================================================== *)

Lemma filter_and {A} (p q : A -> bool) l :
  List.filter q (List.filter p l) = List.filter (fun x => p x && q x) l.
Proof.
  induction l as [|x l IH]; simpl; [reflexivity|].
  destruct (p x); simpl; [destruct (q x)|]; now rewrite IH.
Qed.

Lemma filter_true {A} (p : A -> bool) l :
  (forall x, p x = true) -> List.filter p l = l.
Proof.
  intros H. induction l as [|x l IH]; simpl; [reflexivity|].
  now rewrite H, IH.
Qed.

Lemma stage_init jobs v (s : store) :
  s !! jobs = Some v -> stage s jobs v false (fun _ => true) jobs s.
Proof.
  intros H. split; [|auto|reflexivity].
  now rewrite filter_true.
Qed.

(** A comprehension allocates: its list is new, the lists of the store
    stay. *)
Lemma comprehension_stage s0 jobs v act p filtered (s : store) keep :
  stage s0 jobs v act p filtered s ->
  exists f' s', comprehension filtered keep s = (f', s')
    /\ stage s0 jobs v true (fun j => p j && keep j) f' s'.
Proof.
  intros [Hc Hf Ha].
  unfold comprehension, st_bind, st_read, st_alloc. rewrite Hc. simpl.
  eexists _, _. split; [reflexivity|].
  assert (Hnew : s !! fresh (dom s) = None).
  { apply not_elem_of_dom. apply is_fresh. }
  split.
  - rewrite lookup_insert_eq. now rewrite filter_and.
  - intros l w Hl. rewrite lookup_insert_ne; [now apply Hf|].
    intros E. apply Hf in Hl. rewrite <- E in Hl. congruence.
  - destruct (s0 !! fresh (dom s)) as [w|] eqn:E; [|reflexivity].
    apply Hf in E. congruence.
Qed.

Lemma stage_ext s0 jobs v act act' p p' filtered (s : store) :
  stage s0 jobs v act p filtered s ->
  act = act' -> (forall j, p j = p' j) ->
  stage s0 jobs v act' p' filtered s.
Proof.
  intros [Hc Hf Ha] <- Hp. split; [|assumption|assumption].
  rewrite Hc. f_equal. now apply filter_ext.
Qed.

Lemma when_stage s0 jobs v act p filtered (s : store) b keep :
  stage s0 jobs v act p filtered s ->
  exists f' s', when b filtered keep s = (f', s')
    /\ stage s0 jobs v (act || b) (fun j => p j && opt_keep b keep j) f' s'.
Proof.
  intros H. destruct b; simpl.
  - destruct (comprehension_stage _ _ _ _ _ _ _ keep H) as (f' & s' & E & H').
    exists f', s'. split; [exact E|].
    rewrite orb_true_r. exact H'.
  - exists filtered, s. split; [reflexivity|].
    eapply stage_ext; [exact H | now rewrite orb_false_r |].
    intros j. unfold opt_keep. simpl. now rewrite andb_true_r.
Qed.

(** A run returns the list of the jobs that pass every criterion in
    effect, sorted.  When a criterion is in effect that list is a new
    object and every list of the store, the input list too, is as it
    was; when none is, the run returns the input list itself, and every
    other list is as it was. *)
Lemma apply_filters_run (q : query) (s : store) (jobs : loc) (v : list njob) :
  s !! jobs = Some v ->
  exists r s',
    apply_filters jobs q s = (r, s')
    /\ s' !! r = Some (list_sort date_key (newest_first q) (List.filter (keeps q) v))
    /\ (if filters_active q then s !! r = None /\ s' !! jobs = Some v else r = jobs)
    /\ (forall l w, s !! l = Some w -> l <> jobs -> s' !! l = Some w).
Proof.
  intros Hv. unfold apply_filters, st_bind.
  pose proof (stage_init _ _ _ Hv) as H0.
  destruct (when_stage _ _ _ _ _ _ _ (nonempty (source_filter q)) (keep_source q) H0)
    as (f1 & s1 & E1 & H1). rewrite E1.
  destruct (when_stage _ _ _ _ _ _ _ (nonempty (category_filter q)) (keep_category q) H1)
    as (f2 & s2 & E2 & H2). rewrite E2.
  destruct (when_stage _ _ _ _ _ _ _ (nonempty (arrangement_filter q)) (keep_arrangement q) H2)
    as (f3 & s3 & E3 & H3). rewrite E3.
  destruct (when_stage _ _ _ _ _ _ _ (nonempty (job_type_filter q)) (keep_job_type q) H3)
    as (f4 & s4 & E4 & H4). rewrite E4.
  assert (exists f5 s5,
    match salary_range q with
    | Some (lo, hi) => comprehension f4 (keep_salary lo hi)
    | None => st_ret f4
    end s4 = (f5, s5)
    /\ stage s jobs v
         (false || nonempty (source_filter q) || nonempty (category_filter q)
          || nonempty (arrangement_filter q) || nonempty (job_type_filter q)
          || match salary_range q with Some _ => true | None => false end)
         (fun j => true && opt_keep (nonempty (source_filter q)) (keep_source q) j
                   && opt_keep (nonempty (category_filter q)) (keep_category q) j
                   && opt_keep (nonempty (arrangement_filter q)) (keep_arrangement q) j
                   && opt_keep (nonempty (job_type_filter q)) (keep_job_type q) j
                   && keeps_salary q j) f5 s5) as (f5 & s5 & E5 & H5).
  { unfold keeps_salary. destruct (salary_range q) as [[lo hi]|].
    - destruct (comprehension_stage _ _ _ _ _ _ _ (keep_salary lo hi) H4)
        as (f5 & s5 & E5 & H5).
      exists f5, s5. split; [exact E5|].
      rewrite orb_true_r. exact H5.
    - exists f4, s4. split; [reflexivity|].
      eapply stage_ext; [exact H4| now rewrite orb_false_r |].
      intros j. now rewrite andb_true_r. }
  rewrite E5.
  destruct (when_stage _ _ _ _ _ _ _ (nonempty (search_query q)) (keep_search q) H5)
    as (f6 & s6 & E6 & H6). rewrite E6.
  assert (H7 : stage s jobs v (filters_active q) (keeps q) f6 s6).
  { eapply stage_ext; [exact H6| reflexivity |].
    intros j. unfold keeps, keeps_others. simpl.
    destruct (opt_keep (nonempty (source_filter q)) (keep_source q) j),
             (opt_keep (nonempty (category_filter q)) (keep_category q) j),
             (opt_keep (nonempty (arrangement_filter q)) (keep_arrangement q) j),
             (opt_keep (nonempty (job_type_filter q)) (keep_job_type q) j),
             (keeps_salary q j),
             (opt_keep (nonempty (search_query q)) (keep_search q) j); reflexivity. }
  destruct H7 as [Hc Hf Ha].
  assert (Hsort : forall rev, exists s',
    st_sort f6 date_key rev s6 = (tt, s')
    /\ s' !! f6 = Some (list_sort date_key rev (List.filter (keeps q) v))
    /\ (forall l w, s !! l = Some w -> l <> f6 -> s' !! l = Some w)).
  { intros rev. unfold st_sort. eexists. split; [reflexivity|]. split.
    - rewrite lookup_alter_eq, Hc. reflexivity.
    - intros l w Hl Hne. rewrite lookup_alter_ne by congruence. now apply Hf. }
  unfold newest_first.
  destruct (str_eqb (sort_by q) (u "oldest")); unfold negb; cbv beta iota;
    [destruct (Hsort false) as (s' & E & Hr & Hj)
    |destruct (Hsort true) as (s' & E & Hr & Hj)];
    rewrite E; exists f6, s'; (split; [reflexivity|]); (split; [exact Hr|]);
    destruct (filters_active q).
  all: try (split; [split; [exact Ha|]|]).
  all: try (apply Hj; [exact Hv | intros <-; congruence]).
  all: try (intros l w Hl Hne; apply (Hj l w Hl); intros ->; congruence).
  all: subst f6; split; [reflexivity | exact Hj].
Qed.
(* ===================================================================== *)
(** * Filter and sort engine: the claims                                  *)
(* ===================================================================== *)

Lemma in_order_before (reverse : bool) (a b : njob) :
  sort_before date_key reverse a b = true <-> in_order reverse a b.
Proof. unfold in_order, sort_before. destruct reverse; apply N.leb_le. Qed.

Lemma list_sort_in_order (reverse : bool) (l : list njob) :
  StronglySorted (in_order reverse) (list_sort date_key reverse l).
Proof.
  pose proof (list_sort_sorted date_key reverse l) as H.
  induction H as [|x l' Hs IH Hall]; constructor; [assumption|].
  eapply List.Forall_impl; [|exact Hall].
  intros b Hb. now apply in_order_before.
Qed.

Lemma salary_range_known q r :
  range_of (salary_filter q) SALARY_RANGES = Some r -> salary_range q = Some r.
Proof.
  unfold salary_range. destruct (salary_filter q); [discriminate|].
  intros H. exact H.
Qed.

Lemma salary_range_unknown q :
  range_of (salary_filter q) SALARY_RANGES = None -> salary_range q = None.
Proof.
  unfold salary_range. intros ->. now destruct (nonempty _).
Qed.

(** The keys of [SALARY_RANGES] and their ranges. *)
Lemma salary_ranges_table key lo hi :
  range_of key SALARY_RANGES = Some (lo, hi) <->
  (key = u "under500" /\ lo = of_Z 0 /\ hi = of_Z 500)
  \/ (key = u "500to1000" /\ lo = of_Z 500 /\ hi = of_Z 1000)
  \/ (key = u "1000to2000" /\ lo = of_Z 1000 /\ hi = of_Z 2000)
  \/ (key = u "2000to5000" /\ lo = of_Z 2000 /\ hi = of_Z 5000)
  \/ (key = u "5000plus" /\ lo = of_Z 5000 /\ hi = inf).
Proof.
  assert (Heq : forall a b, str_eqb a b = true <-> a = b).
  { induction a as [|x a IH]; destruct b as [|y b]; simpl; try easy.
    unfold ch_eqb. rewrite andb_true_iff, IH, Ascii.eqb_eq.
    split; [intros [-> ->]; reflexivity | intros E; now inversion E]. }
  split.
  - unfold SALARY_RANGES, range_of.
    repeat match goal with
    | |- context [str_eqb ?a key] =>
        let E := fresh "E" in
        destruct (str_eqb a key) eqn:E;
        [apply Heq in E; subst key; intros H; inversion H; subst; tauto|]
    end.
    discriminate.
  - intros [(-> & -> & ->)|[(-> & -> & ->)|[(-> & -> & ->)|[(-> & -> & ->)
      |(-> & -> & ->)]]]]; reflexivity.
Qed.

(** C3, as amended.  A run never changes a job record: the input list
    holds the same records afterwards and every returned job is one of
    them.  When at least one filter criterion is in effect the returned
    list is a new object and the input list is left in its original
    order.  Every other list of the store is left as it was. *)
Theorem apply_filters_input_preserved (q : query) (s : store) (jobs : loc)
    (v : list njob) :
  s !! jobs = Some v ->
  exists r s' out after,
    apply_filters jobs q s = (r, s')
    /\ s' !! r = Some out
    /\ s' !! jobs = Some after
    /\ Permutation after v
    /\ (forall j, In j out -> In j v)
    /\ (filters_active q = true -> r <> jobs /\ after = v)
    /\ (forall l w, s !! l = Some w -> l <> jobs -> s' !! l = Some w).
Proof.
  intros Hv.
  destruct (apply_filters_run q s jobs v Hv) as (r & s' & E & Hr & Hal & Hfr).
  pose proof (list_sort_perm date_key (newest_first q) (List.filter (keeps q) v)) as Hp.
  assert (Hin : forall j, In j (list_sort date_key (newest_first q)
                                  (List.filter (keeps q) v)) -> In j v).
  { intros j Hj. eapply Permutation_in in Hj; [|exact Hp].
    now apply filter_In in Hj. }
  destruct (filters_active q) eqn:Hact.
  - destruct Hal as [Hne Hj].
    exists r, s', (list_sort date_key (newest_first q) (List.filter (keeps q) v)), v.
    repeat split; try assumption; try reflexivity.
    intros ->. congruence.
  - subst r. assert (Hk : List.filter (keeps q) v = v).
    { apply filter_true. intros j. unfold filters_active in Hact.
      repeat (apply orb_false_iff in Hact; destruct Hact as [Hact ?]).
      unfold keeps, keeps_others, keeps_salary, opt_keep.
      destruct (salary_range q); [discriminate|].
      repeat match goal with H : nonempty _ = false |- _ => rewrite H; clear H end.
      reflexivity. }
    rewrite Hk in *.
    exists jobs, s', (list_sort date_key (newest_first q) v),
           (list_sort date_key (newest_first q) v).
    repeat split; try assumption; discriminate.
Qed.

Lemma apply_filters_input_preserved_witness :
  exists r s' out after,
    apply_filters 0 (only_salary (u "under500"))
      {[ 0 := [sample_job 0 (Some 1%N) None; sample_job 1 (Some 2%N) (Some (of_Z 100))] ]}
      = (r, s')
    /\ s' !! r = Some out
    /\ s' !! 0 = Some after
    /\ Permutation after [sample_job 0 (Some 1%N) None; sample_job 1 (Some 2%N) (Some (of_Z 100))]
    /\ (forall j, In j out ->
          In j [sample_job 0 (Some 1%N) None; sample_job 1 (Some 2%N) (Some (of_Z 100))])
    /\ (filters_active (only_salary (u "under500")) = true ->
          r <> 0 /\ after = [sample_job 0 (Some 1%N) None;
                             sample_job 1 (Some 2%N) (Some (of_Z 100))])
    /\ (forall l w,
          ({[ 0 := [sample_job 0 (Some 1%N) None;
                    sample_job 1 (Some 2%N) (Some (of_Z 100))] ]} : store) !! l = Some w ->
          l <> 0 -> s' !! l = Some w).
Proof.
  apply (apply_filters_input_preserved (only_salary (u "under500"))
           {[ 0 := [sample_job 0 (Some 1%N) None;
                    sample_job 1 (Some 2%N) (Some (of_Z 100))] ]} 0).
  reflexivity.
Defined.

(** C3 as stated fails: with no criterion in effect [filtered] is the
    input list, and sorting it reorders the caller's list. *)
Lemma apply_filters_reorders_input :
  snd (apply_filters 0 (no_filters [])
         {[ 0 := [sample_job 0 (Some 1%N) None; sample_job 1 (Some 2%N) None] ]}) !! 0
  = Some [sample_job 1 (Some 2%N) None; sample_job 0 (Some 1%N) None]
  /\ [sample_job 1 (Some 2%N) None; sample_job 0 (Some 1%N) None]
     <> [sample_job 0 (Some 1%N) None; sample_job 1 (Some 2%N) None].
Proof. split; [vm_compute; reflexivity | discriminate]. Qed.

(** C4, as amended.  The returned list is sorted by [_parsed_date], a
    missing date counting as [datetime.min], descending by default and
    ascending for [sort=oldest]; in both directions the jobs of equal
    key keep the relative order they had in the input. *)
Theorem sort_ties_keep_order (q : query) (s : store) (jobs : loc)
    (v : list njob) (d : datetime) :
  s !! jobs = Some v ->
  exists r s' out,
    apply_filters jobs q s = (r, s')
    /\ s' !! r = Some out
    /\ Permutation out (List.filter (keeps q) v)
    /\ StronglySorted (in_order (newest_first q)) out
    /\ tied d out = tied d (List.filter (keeps q) v).
Proof.
  intros Hv.
  destruct (apply_filters_run q s jobs v Hv) as (r & s' & E & Hr & _ & _).
  exists r, s', (list_sort date_key (newest_first q) (List.filter (keeps q) v)).
  repeat split; try assumption.
  - apply list_sort_perm.
  - apply list_sort_in_order.
  - apply list_sort_stable.
Qed.

Lemma sort_ties_keep_order_witness :
  exists r s' out,
    apply_filters 0 (no_filters (u "oldest"))
      {[ 0 := [sample_job 0 None None; sample_job 1 None None] ]} = (r, s')
    /\ s' !! r = Some out
    /\ Permutation out
         (List.filter (keeps (no_filters (u "oldest")))
            [sample_job 0 None None; sample_job 1 None None])
    /\ StronglySorted (in_order (newest_first (no_filters (u "oldest")))) out
    /\ tied datetime_min out
       = tied datetime_min
           (List.filter (keeps (no_filters (u "oldest")))
              [sample_job 0 None None; sample_job 1 None None]).
Proof.
  apply (sort_ties_keep_order (no_filters (u "oldest"))
           {[ 0 := [sample_job 0 None None; sample_job 1 None None] ]} 0).
  reflexivity.
Defined.

(** C4 as stated fails: under [sort=oldest] two jobs without a date come
    back in their original order, not reversed. *)
Lemma oldest_keeps_tie_order :
  exists r s',
    apply_filters 0 (no_filters (u "oldest"))
      {[ 0 := [sample_job 0 None None; sample_job 1 None None] ]} = (r, s')
    /\ s' !! r = Some [sample_job 0 None None; sample_job 1 None None]
    /\ tied datetime_min [sample_job 0 None None; sample_job 1 None None]
       <> rev (tied datetime_min [sample_job 0 None None; sample_job 1 None None]).
Proof.
  eexists _, _. split; [vm_compute; reflexivity|].
  split; [vm_compute; reflexivity | vm_compute; discriminate].
Qed.

(** C7.  When [salaryBracket] names a bracket of the table with range
    [lo, hi), a job is returned iff it passes the other criteria, has a
    monthly salary and [lo <= salary < hi].  When it names no bracket
    the run is the run without that criterion. *)
Theorem salary_bracket_filter (q : query) (s : store) (jobs : loc)
    (v : list njob) :
  s !! jobs = Some v ->
  exists r s' out,
    apply_filters jobs q s = (r, s')
    /\ s' !! r = Some out
    /\ (forall lo hi, range_of (salary_filter q) SALARY_RANGES = Some (lo, hi) ->
        forall j, In j out <->
          In j v /\ keeps_others q j = true
          /\ exists x, _salary_monthly j = Some x
                       /\ leb lo x = true /\ ltb x hi = true)
    /\ (range_of (salary_filter q) SALARY_RANGES = None ->
        apply_filters jobs q s = apply_filters jobs (with_salary_filter q []) s
        /\ forall j, In j out <-> In j v /\ keeps_others q j = true).
Proof.
  intros Hv.
  destruct (apply_filters_run q s jobs v Hv) as (r & s' & E & Hr & _ & _).
  exists r, s', (list_sort date_key (newest_first q) (List.filter (keeps q) v)).
  split; [exact E|]. split; [exact Hr|].
  assert (Hin : forall j,
    In j (list_sort date_key (newest_first q) (List.filter (keeps q) v))
    <-> In j v /\ keeps_others q j = true /\ keeps_salary q j = true).
  { intros j. split.
    - intros Hj. eapply Permutation_in in Hj; [|apply list_sort_perm].
      apply filter_In in Hj. destruct Hj as [Hj Hk].
      unfold keeps in Hk. apply andb_true_iff in Hk. tauto.
    - intros (Hj & H1 & H2).
      eapply Permutation_in; [symmetry; apply list_sort_perm|].
      apply filter_In. split; [assumption|].
      unfold keeps. now rewrite H1, H2. }
  split.
  - intros lo hi Hk j. rewrite Hin. unfold keeps_salary.
    rewrite (salary_range_known _ _ Hk). unfold keep_salary.
    split.
    + intros (Hj & H1 & H2). repeat split; try assumption.
      destruct (_salary_monthly j) as [x|]; [|discriminate].
      apply andb_true_iff in H2. exists x. tauto.
    + intros (Hj & H1 & x & -> & H2 & H3). repeat split; try assumption.
      now rewrite H2, H3.
  - intros Hk. split.
    + unfold apply_filters. rewrite (salary_range_unknown _ Hk).
      assert (E0 : salary_range (with_salary_filter q []) = None) by reflexivity.
      rewrite E0. reflexivity.
    + intros j. rewrite Hin. unfold keeps_salary.
      rewrite (salary_range_unknown _ Hk). tauto.
Qed.

Lemma salary_bracket_filter_witness :
  exists r s' out,
    apply_filters 0 (only_salary (u "under500"))
      {[ 0 := [sample_job 0 None None; sample_job 1 None (Some (of_Z 100))] ]} = (r, s')
    /\ s' !! r = Some out
    /\ (forall lo hi,
         range_of (salary_filter (only_salary (u "under500"))) SALARY_RANGES
         = Some (lo, hi) ->
         forall j, In j out <->
           In j [sample_job 0 None None; sample_job 1 None (Some (of_Z 100))]
           /\ keeps_others (only_salary (u "under500")) j = true
           /\ exists x, _salary_monthly j = Some x
                        /\ leb lo x = true /\ ltb x hi = true)
    /\ (range_of (salary_filter (only_salary (u "under500"))) SALARY_RANGES = None ->
         apply_filters 0 (only_salary (u "under500"))
           {[ 0 := [sample_job 0 None None; sample_job 1 None (Some (of_Z 100))] ]}
         = apply_filters 0 (with_salary_filter (only_salary (u "under500")) [])
             {[ 0 := [sample_job 0 None None; sample_job 1 None (Some (of_Z 100))] ]}
         /\ forall j, In j out <->
              In j [sample_job 0 None None; sample_job 1 None (Some (of_Z 100))]
              /\ keeps_others (only_salary (u "under500")) j = true).
Proof.
  apply (salary_bracket_filter (only_salary (u "under500"))
           {[ 0 := [sample_job 0 None None; sample_job 1 None (Some (of_Z 100))] ]} 0).
  reflexivity.
Defined.

(** The filter on closed data: the job in the bracket is returned, the
    one without a salary is not, and an unknown key returns both. *)
Example salary_bracket_example :
  (let '(r, s') := apply_filters 0 (only_salary (u "under500"))
      {[ 0 := [sample_job 0 None None; sample_job 1 None (Some (of_Z 100))] ]} in
   s' !! r) = Some [sample_job 1 None (Some (of_Z 100))]
  /\ (let '(r, s') := apply_filters 0 (only_salary (u "lots"))
      {[ 0 := [sample_job 0 None None; sample_job 1 None (Some (of_Z 100))] ]} in
   s' !! r) = Some [sample_job 0 None None; sample_job 1 None (Some (of_Z 100))].
Proof. split; vm_compute; reflexivity. Qed.
(* ===================================================================== *)
(** * Paginator                                                           *)
(* ===================================================================== *)

Lemma ceil_div_spec (n : Z) :
  (0 <= n)%Z ->
  (20 * (ceil_div n JOBS_PER_PAGE - 1) < n <= 20 * ceil_div n JOBS_PER_PAGE)%Z.
Proof.
  intros Hn. unfold ceil_div, JOBS_PER_PAGE.
  pose proof (Z.div_mod (n + 20 - 1) 20 ltac:(lia)) as Hd.
  pose proof (Z.mod_pos_bound (n + 20 - 1) 20 ltac:(lia)) as Hm.
  lia.
Qed.

(** The integer ceiling agrees with [math.ceil] of the binary64 quotient
    on every length up to 2000. *)
Lemma ceil_div_float_agrees :
  forallb (fun n => Z.eqb (ceil_div (Z.of_nat n) JOBS_PER_PAGE)
                          (ceil_div_float (Z.of_nat n) JOBS_PER_PAGE))
          (seq 0 2001) = true.
Proof. vm_compute. reflexivity. Qed.

Lemma slice_nth {A} (l : list A) (start stop : Z) (i : nat) :
  (0 <= start)%Z ->
  nth_error (slice l start stop) i
  = if (Z.of_nat i <? stop - start)%Z then nth_error l (Z.to_nat start + i) else None.
Proof.
  intros Hs. unfold slice.
  destruct (Z.ltb_spec (Z.of_nat i) (stop - start)) as [Hlt|Hge].
  - rewrite nth_error_firstn.
    destruct (Nat.ltb_spec i (Z.to_nat (stop - start))) as [_|Hc]; [|lia].
    apply nth_error_skipn.
  - rewrite nth_error_firstn.
    destruct (Nat.ltb_spec i (Z.to_nat (stop - start))) as [Hc|_]; [lia|reflexivity].
Qed.

(** C6.  With [count] jobs and a requested page [p]: [total_pages] is
    [max(1, ceil(count / 20))], the page served is [p] clamped to
    [1..total_pages], and its jobs are those at the positions
    [(page-1)*20 .. (page-1)*20+19] that exist.  No job gives one empty
    page, and page 99 of 45 jobs is page 3 with the last 5 jobs. *)
Theorem paginate_spec {A} (l : list A) (p : Z) :
  exists items total page c,
    paginate l p = (items, total, page)
    /\ (20 * (c - 1) < Z.of_nat (length l) <= 20 * c)%Z
    /\ total = Z.max 1 c
    /\ page = Z.max 1 (Z.min p total)
    /\ (1 <= page <= total)%Z
    /\ items = slice l ((page - 1) * 20) ((page - 1) * 20 + 20)
    /\ (forall i, nth_error items i
                  = if (i <? 20)%nat
                    then nth_error l (Z.to_nat ((page - 1) * 20) + i)
                    else None)
    /\ (l = [] -> items = [] /\ total = 1%Z /\ page = 1%Z)
    /\ (length l = 45%nat -> p = 99%Z ->
        items = skipn 40 l /\ length items = 5%nat /\ total = 3%Z /\ page = 3%Z).
Proof.
  set (n := Z.of_nat (length l)).
  set (c := ceil_div n JOBS_PER_PAGE).
  set (total := Z.max 1 c).
  set (page := Z.max 1 (Z.min p total)).
  exists (slice l ((page - 1) * 20) ((page - 1) * 20 + 20)), total, page, c.
  assert (Hc : (20 * (c - 1) < n <= 20 * c)%Z) by (apply ceil_div_spec; lia).
  assert (Hpage : (1 <= page <= total)%Z) by lia.
  split; [reflexivity|]. split; [exact Hc|]. split; [reflexivity|].
  split; [reflexivity|]. split; [exact Hpage|]. split; [reflexivity|].
  split; [|split].
  - intros i. rewrite slice_nth by lia.
    destruct (Nat.ltb_spec i 20),
      (Z.ltb_spec (Z.of_nat i) ((page - 1) * 20 + 20 - (page - 1) * 20));
      try reflexivity; lia.
  - intros ->. assert (Hn0 : n = 0%Z) by reflexivity.
    assert (Hc0 : c = 0%Z) by (subst c; rewrite Hn0; reflexivity).
    unfold slice. rewrite skipn_nil, firstn_nil. repeat split; lia.
  - intros H45 H99.
    assert (Hn : n = 45%Z) by (subst n; rewrite H45; reflexivity).
    assert (Hc3 : c = 3%Z) by (subst c; rewrite Hn; reflexivity).
    assert (Ht : total = 3%Z) by lia.
    assert (Hp3 : page = 3%Z) by lia.
    rewrite Hp3. unfold slice. simpl.
    rewrite firstn_all2 by (rewrite length_skipn; lia).
    rewrite length_skipn. repeat split; lia.
Qed.

(* ===================================================================== *)
(** * Lookup by id                                                        *)
(* ===================================================================== *)

Lemma without_derived_lookup (job : record) key :
  ~ In key DERIVED_KEYS -> without_derived job !! key = job !! key.
Proof.
  intros H. unfold without_derived, DERIVED_KEYS in *. cbn [fold_right].
  rewrite !lookup_delete_ne; [reflexivity|..]; intros <-; apply H; cbn; auto 10.
Qed.

Lemma without_derived_derived (job : record) key :
  In key DERIVED_KEYS -> without_derived job !! key = None.
Proof.
  unfold without_derived, DERIVED_KEYS. cbn [fold_right In].
  intros H.
  repeat (destruct H as [<-|H];
          [repeat (first [ apply lookup_delete_eq
                         | rewrite lookup_delete_ne by discriminate ])|]).
  destruct H.
Qed.

Section LookupFacts.
Variable unescape : str -> result str.
Variable fromisoformat : str -> result pydatetime.
Variable parsedate_to_datetime : str -> result pydatetime.
Variable strptime : str -> str -> result pydatetime.
Variable strftime : datetime -> str -> str.

Local Abbreviation load_one' :=
  (load_one unescape fromisoformat parsedate_to_datetime strptime strftime).
Local Abbreviation load_loop' :=
  (load_loop unescape fromisoformat parsedate_to_datetime strptime strftime).

Lemma load_one_id idx raw j : load_one' idx raw = Ret j -> id j = idx.
Proof.
  unfold load_one. intros H.
  destruct (normalize_job_text unescape raw) as [job|]; [|discriminate]. simpl in H.
  destruct (parse_date _ _ _ job) as [pd|]; [|discriminate]. simpl in H.
  destruct (parse_salary_monthly job) as [sal|]; [|discriminate]. simpl in H.
  inversion H. reflexivity.
Qed.

(** What the loop body builds from a record. *)
Lemma load_one_inv idx raw j :
  load_one' idx raw = Ret j ->
  exists cleaned parsed salary,
    normalize_job_text unescape raw = Ret cleaned
    /\ parse_date fromisoformat parsedate_to_datetime strptime cleaned = Ret parsed
    /\ parse_salary_monthly cleaned = Ret salary
    /\ j = {| fields := without_derived cleaned; id := idx;
              _arrangement := detect_arrangement cleaned;
              _job_type := detect_job_type cleaned;
              _parsed_date := parsed;
              _display_date := format_date strftime parsed;
              _salary_monthly := salary |}.
Proof.
  unfold load_one. intros H.
  destruct (normalize_job_text unescape raw) as [job|]; [|discriminate]. simpl in H.
  destruct (parse_date _ _ _ job) as [pd|] eqn:Ep; [|discriminate]. simpl in H.
  destruct (parse_salary_monthly job) as [sal|] eqn:Es; [|discriminate].
  inversion H. exists job, pd, sal. repeat split; assumption.
Qed.

(** The loop keeps the positions: the job at position [i] of the result
    is the job loaded from the record at position [i], with [idx + i] as
    its [id]. *)
Lemma load_loop_nth raws : forall idx jobs,
  load_loop' idx raws = Ret jobs ->
  length jobs = length raws
  /\ forall i raw, nth_error raws i = Some raw ->
       exists j, nth_error jobs i = Some j
                 /\ load_one' (idx + Z.of_nat i) raw = Ret j.
Proof.
  induction raws as [|raw0 raws IH]; intros idx jobs H.
  - inversion H. split; [reflexivity|]. intros [|i] raw Hn; discriminate.
  - cbn [load_loop] in H.
    destruct (load_one' idx raw0) as [j0|] eqn:E0; [|discriminate]. simpl in H.
    destruct (load_loop' (idx + 1) raws) as [js|] eqn:E1; [|discriminate]. simpl in H.
    inversion H. subst jobs. clear H.
    destruct (IH _ _ E1) as [Hlen Hnth].
    split; [simpl; now rewrite Hlen|].
    intros [|i] raw Hn; simpl in Hn.
    + inversion Hn. subst raw. exists j0. split; [reflexivity|].
      now rewrite Z.add_0_r.
    + destruct (Hnth i raw Hn) as (j & Hj & Hl).
      exists j. split; [exact Hj|].
      replace (idx + Z.of_nat (S i))%Z with (idx + 1 + Z.of_nat i)%Z by lia.
      exact Hl.
Qed.

(** C8.  For a loaded collection of [n] jobs, the lookup of [job_id]
    answers, when [0 <= job_id < n], with status 200 and the object of
    the job at position [job_id]: its [id] is [job_id], its members are
    the cleaned members of the record at that position of the file
    (none of them under a key the loader assigns), and its
    [_arrangement], [_job_type], [_display_date] and [_salary_monthly]
    are those computed from the cleaned record; [_parsed_date] is not
    part of it.  Otherwise it answers with the error object and status
    404; the two answers are different. *)
Theorem api_job_detail_lookup (raws : list record) (jobs : list njob) (job_id : Z) :
  load_jobs unescape fromisoformat parsedate_to_datetime strptime strftime
            (Some raws) = Ret jobs ->
  length jobs = length raws
  /\ ((0 <= job_id < Z.of_nat (length raws))%Z ->
      exists raw j cleaned parsed salary,
        nth_error raws (Z.to_nat job_id) = Some raw
        /\ load_one' job_id raw = Ret j
        /\ nth_error jobs (Z.to_nat job_id) = Some j
        /\ id j = job_id
        /\ normalize_job_text unescape raw = Ret cleaned
        /\ parse_date fromisoformat parsedate_to_datetime strptime cleaned
           = Ret parsed
        /\ parse_salary_monthly cleaned = Ret salary
        /\ fields j = without_derived cleaned
        /\ (forall key, ~ In key DERIVED_KEYS ->
              d_fields (job_to_dict j) !! key = cleaned !! key)
        /\ (forall key, In key DERIVED_KEYS ->
              d_fields (job_to_dict j) !! key = None)
        /\ job_to_dict j
           = {| d_fields := without_derived cleaned; d_id := job_id;
                d_arrangement := detect_arrangement cleaned;
                d_job_type := detect_job_type cleaned;
                d_display_date := format_date strftime parsed;
                d_salary_monthly := salary |}
        /\ api_job_detail unescape fromisoformat parsedate_to_datetime strptime
             strftime (Some raws) job_id
           = Ret (JsonJob {| d_fields := without_derived cleaned; d_id := job_id;
                             d_arrangement := detect_arrangement cleaned;
                             d_job_type := detect_job_type cleaned;
                             d_display_date := format_date strftime parsed;
                             d_salary_monthly := salary |} 200))
  /\ (~ (0 <= job_id < Z.of_nat (length raws))%Z ->
      api_job_detail unescape fromisoformat parsedate_to_datetime strptime
        strftime (Some raws) job_id = Ret (JsonError (u "Job not found") 404))
  /\ (forall j, JsonJob (job_to_dict j) 200 <> JsonError (u "Job not found") 404).
Proof.
  intros Hload. pose proof Hload as Hload'.
  cbn [load_jobs] in Hload'.
  destruct (load_loop_nth _ _ _ Hload') as [Hlen Hnth].
  split; [exact Hlen|]. split; [|split].
  - intros Hr.
    destruct (nth_error raws (Z.to_nat job_id)) as [raw|] eqn:Eraw.
    2:{ apply nth_error_None in Eraw. lia. }
    destruct (Hnth _ _ Eraw) as (j & Hj & Hl).
    rewrite Z.add_0_l, Z2Nat.id in Hl by lia.
    destruct (load_one_inv _ _ _ Hl) as (cleaned & parsed & salary & Hn & Hp & Hs & Ej).
    exists raw, j, cleaned, parsed, salary.
    assert (Hbody : job_to_dict j
              = {| d_fields := without_derived cleaned; d_id := job_id;
                   d_arrangement := detect_arrangement cleaned;
                   d_job_type := detect_job_type cleaned;
                   d_display_date := format_date strftime parsed;
                   d_salary_monthly := salary |}).
    { rewrite Ej. reflexivity. }
    split; [reflexivity|]. split; [exact Hl|]. split; [exact Hj|].
    split; [now apply load_one_id in Hl|].
    split; [exact Hn|]. split; [exact Hp|]. split; [exact Hs|].
    split; [rewrite Ej; reflexivity|].
    split; [intros key Hk; rewrite Hbody; cbn [d_fields];
            now apply without_derived_lookup|].
    split; [intros key Hk; rewrite Hbody; cbn [d_fields];
            now apply without_derived_derived|].
    split; [exact Hbody|].
    rewrite <- Hbody.
    unfold api_job_detail. rewrite Hload. simpl. rewrite Hlen.
    destruct (Z.leb_spec 0 job_id); [|lia].
    destruct (Z.ltb_spec job_id (Z.of_nat (length raws))); [|lia].
    simpl. now rewrite Hj.
  - intros Hr. unfold api_job_detail. rewrite Hload. simpl. rewrite Hlen.
    destruct (Z.leb_spec 0 job_id); [|reflexivity].
    destruct (Z.ltb_spec job_id (Z.of_nat (length raws))); [lia|reflexivity].
  - intros j. discriminate.
Qed.

(** A file that is missing or does not decode is an empty collection:
    every lookup is answered with the error object. *)
Lemma api_job_detail_unavailable (job_id : Z) :
  api_job_detail unescape fromisoformat parsedate_to_datetime strptime strftime
    None job_id = Ret (JsonError (u "Job not found") 404).
Proof.
  unfold api_job_detail, load_jobs, bind.
  change (Z.of_nat (length (@nil njob))) with 0%Z.
  destruct (Z.leb_spec 0 job_id), (Z.ltb_spec job_id 0); try reflexivity; lia.
Qed.

End LookupFacts.

Lemma api_job_detail_lookup_witness :
  api_job_detail Html.unescape Lib.fromisoformat Lib.parsedate_to_datetime
    Lib.strptime Lib.strftime (Some sample_file) 0
  = Ret (JsonJob
           {| d_fields := {[ "title"%string := Some (u "Dev");
                             "source"%string := Some (u "WeWorkRemotely");
                             "salary"%string := Some (u "$20/hr");
                             "location"%string := Some (u "Remote") ]};
              d_id := 0;
              d_arrangement := u "remote";
              d_job_type := [];
              d_display_date := [];
              d_salary_monthly := Some (of_Z 3200) |} 200)
  /\ api_job_detail Html.unescape Lib.fromisoformat Lib.parsedate_to_datetime
       Lib.strptime Lib.strftime (Some sample_file) 2
     = Ret (JsonError (u "Job not found") 404).
Proof.
  assert (Hload : load_jobs Html.unescape Lib.fromisoformat
                    Lib.parsedate_to_datetime Lib.strptime Lib.strftime
                    (Some sample_file) = Ret sample_loaded)
    by (vm_compute; reflexivity).
  split.
  - destruct (api_job_detail_lookup Html.unescape Lib.fromisoformat
                Lib.parsedate_to_datetime Lib.strptime Lib.strftime
                sample_file sample_loaded 0 Hload) as (_ & Hin & _).
    destruct Hin as (raw & j & cleaned & parsed & salary & Hraw & _ & _ & _
                     & Hn & Hp & Hs & _ & _ & _ & _ & Hapi);
      [cbn; lia|].
    rewrite Hapi.
    vm_compute in Hraw. injection Hraw as <-.
    vm_compute in Hn. injection Hn as <-.
    vm_compute in Hp. injection Hp as <-.
    vm_compute in Hs. injection Hs as <-.
    vm_compute. reflexivity.
  - destruct (api_job_detail_lookup Html.unescape Lib.fromisoformat
                Lib.parsedate_to_datetime Lib.strptime Lib.strftime
                sample_file sample_loaded 2 Hload) as (_ & _ & Hout & _).
    apply Hout. cbn. lia.
Defined.
(* ===================================================================== *)
(** * Text normaliser: further properties                                 *)
(* ===================================================================== *)

Lemma join_words_nonempty ws :
  Forall wordy ws -> nonempty (join SP ws) = has_words ws.
Proof.
  intros H. destruct H as [|w ws [Hne _] _]; [reflexivity|].
  rewrite join_cons. destruct w; [congruence | reflexivity].
Qed.

Lemma filter_norm_lines ls :
  List.filter nonempty (map norm_line ls)
  = map (join SP) (List.filter has_words (map split ls)).
Proof.
  induction ls as [|l ls IH]; [reflexivity|].
  cbn [map List.filter]. change (norm_line l) with (join SP (split l)).
  rewrite (join_words_nonempty _ (split_wordy l)).
  destruct (has_words (split l)); cbn [map]; now rewrite IH.
Qed.

Lemma TEXT_KEYS_nodup : List.NoDup TEXT_KEYS.
Proof.
  unfold TEXT_KEYS. repeat (constructor; [simpl; intuition discriminate|]).
  constructor.
Qed.

Section TextMore.
Variable unescape : str -> result str.

(** X1.  A cleaned text is a sequence of lines separated by single line
    feeds; each line has one word at least, its words are separated by
    single spaces, and a word holds no whitespace. *)
Theorem clean_text_shape (v y : str) :
  clean_text unescape (Some v) = Ret y ->
  exists lines : list (list str),
    y = join LF (map (join SP) lines)
    /\ Forall (fun ws => ws <> [] /\ Forall wordy ws) lines.
Proof.
  rewrite clean_text_unfold.
  destruct (unescape (Re.sub _BR_RE LF v)) as [t|]; [|discriminate].
  cbn [bind]. intros H. inversion H. clear H.
  unfold clean_lines. rewrite filter_norm_lines.
  eexists. split; [reflexivity|].
  induction (splitlines (Re.sub _TAG_RE SP t)) as [|l ls IH]; [constructor|].
  cbn [map List.filter]. destruct (split l) as [|w ws] eqn:E; [exact IH|].
  cbn [has_words]. constructor; [|exact IH].
  split; [discriminate|]. rewrite <- E. apply split_wordy.
Qed.

(** X2.  A cleaned text holds no tag: replacing tags, or line-break
    tags, in it changes nothing, and wherever [<] comes before a [>] in
    it, either nothing stands between the two or another [>] does. *)
Theorem clean_text_tag_free (v y : str) :
  clean_text unescape (Some v) = Ret y ->
  Re.sub _TAG_RE SP y = y
  /\ Re.sub _BR_RE LF y = y
  /\ forall pre body rest,
       y = pre ++ "<"%char :: body ++ ">"%char :: rest ->
       body = [] \/ In ">"%char body.
Proof.
  intros H. apply clean_text_no_tag in H.
  split; [now apply sub_tag_no_tag|]. split; [now apply sub_br_no_tag|].
  intros pre body rest ->.
  apply no_tag_suffix in H.
  destruct body as [|c body]; [now left|]. right.
  unfold tag_at in H. cbn [app] in H.
  destruct (ch_eqb ">" c) eqn:Hc.
  { apply ch_eqb_eq in Hc. subst c. now left. }
  rewrite has_gt_app in H. cbn in H.
  now rewrite orb_true_r in H.
Qed.

Lemma squeeze_to_nil t : squeeze t [] -> Forall (fun c => is_space c = true) t.
Proof.
  intros H. remember [] as y eqn:Ey.
  induction H; try discriminate; constructor; auto.
Qed.

Lemma split_spaces t : Forall (fun c => is_space c = true) t -> split t = [].
Proof.
  induction 1 as [|c t Hc Ht IH]; [reflexivity|]. now rewrite split_space.
Qed.

Lemma splitlines_spaces t :
  Forall (fun c => is_space c = true) t ->
  Forall (Forall (fun c => is_space c = true)) (splitlines t).
Proof.
  remember (length t) as n eqn:Hn. revert t Hn.
  induction n as [n IH] using lt_wf_ind. intros t Hn Ht.
  destruct t as [|c s]; [constructor|].
  inversion Ht as [|? ? Hc Hs]; subst.
  assert (IHs : Forall (Forall (fun c => is_space c = true)) (splitlines s)).
  { apply (IH (length s)); [simpl; lia | reflexivity | assumption]. }
  cbn [splitlines]. destruct (is_linebreak c).
  - constructor; [constructor|].
    destruct s as [|c' s'']; [constructor|].
    destruct (ch_eqb c "013" && ch_eqb c' "010"); [|exact IHs].
    inversion Hs; subst.
    apply (IH (length s'')); [simpl; lia | reflexivity | assumption].
  - destruct (splitlines s) as [|l ls]; [repeat constructor; assumption|].
    inversion IHs; subst. constructor; [now constructor | assumption].
Qed.

Lemma clean_lines_spaces t :
  Forall (fun c => is_space c = true) t -> clean_lines t = [].
Proof.
  intros H. apply splitlines_spaces in H. unfold clean_lines.
  induction H as [|l ls Hl Hls IH]; [reflexivity|].
  cbn [map List.filter]. unfold norm_line at 1. now rewrite (split_spaces _ Hl).
Qed.

(** X3.  The cleaned text is empty exactly when nothing but whitespace
    is left once the tags are replaced. *)
Theorem clean_text_empty_iff (v t : str) :
  unescape (Re.sub _BR_RE LF v) = Ret t ->
  (clean_text unescape (Some v) = Ret []
   <-> Forall (fun c => is_space c = true) (Re.sub _TAG_RE SP t)).
Proof.
  intros Hu. rewrite clean_text_unfold, Hu. cbn [bind]. split.
  - intros H. inversion H as [E]. apply squeeze_to_nil.
    rewrite <- E. apply squeeze_clean_lines.
  - intros H. now rewrite clean_lines_spaces.
Qed.

Lemma normalize_keys_spec keys : forall job job',
  List.NoDup keys ->
  normalize_keys unescape keys job = Ret job' ->
  (forall k, ~ In k keys -> job' !! k = job !! k)
  /\ (forall k, In k keys ->
        match job !! k with
        | None => job' !! k = None
        | Some value => exists t, clean_text unescape value = Ret t
                                  /\ job' !! k = Some (Some t)
        end).
Proof.
  induction keys as [|key keys IH]; intros job job' Hnd H.
  - inversion H. split; [reflexivity | intros k []].
  - inversion Hnd as [|? ? Hnk Hnd']; subst. cbn [normalize_keys] in H.
    destruct (job !! key) as [value|] eqn:Ek.
    + destruct (clean_text unescape value) as [t|] eqn:Ec; [|discriminate].
      cbn [bind] in H. destruct (IH _ _ Hnd' H) as [Hout Hin]. split.
      * intros k Hk. rewrite Hout by (intros Hk'; apply Hk; now right).
        apply lookup_insert_ne. intros ->. apply Hk. now left.
      * intros k [<-|Hk].
        -- rewrite Ek. exists t. split; [exact Ec|].
           rewrite (Hout key Hnk). apply lookup_insert_eq.
        -- specialize (Hin k Hk).
           rewrite lookup_insert_ne in Hin; [exact Hin|].
           intros ->. contradiction.
    + destruct (IH _ _ Hnd' H) as [Hout Hin]. split.
      * intros k Hk. apply Hout. intros Hk'. apply Hk. now right.
      * intros k [<-|Hk]; [|now apply Hin].
        rewrite Ek. now rewrite (Hout key Hnk).
Qed.

(** X4.  [normalize_job_text] changes the eight text members only: a
    member under any other key is left as it is, a text member that is
    absent stays absent, and one that is present holds the cleaned text
    of its old value, [""] for null. *)
Theorem normalize_job_text_spec (job job' : record) :
  normalize_job_text unescape job = Ret job' ->
  (forall k, ~ In k TEXT_KEYS -> job' !! k = job !! k)
  /\ (forall k, In k TEXT_KEYS ->
        match job !! k with
        | None => job' !! k = None
        | Some value => exists t, clean_text unescape value = Ret t
                                  /\ job' !! k = Some (Some t)
        end)
  /\ dom job' = dom job.
Proof.
  intros H. unfold normalize_job_text in H.
  destruct (normalize_keys_spec _ _ _ TEXT_KEYS_nodup H) as [Hout Hin].
  split; [exact Hout|]. split; [exact Hin|].
  apply set_eq. intros k. rewrite !elem_of_dom.
  destruct (in_dec string_dec k TEXT_KEYS) as [Hk|Hk].
  - specialize (Hin k Hk). destruct (job !! k) as [value|].
    + destruct Hin as (t & _ & ->). split; intros _; eexists; reflexivity.
    + rewrite Hin. reflexivity.
  - now rewrite (Hout k Hk).
Qed.
End TextMore.

Lemma clean_text_shape_witness :
  exists lines : list (list str),
    u "Senior Dev" ++ LF ++ u "remote" = join LF (map (join SP) lines)
    /\ Forall (fun ws => ws <> [] /\ Forall wordy ws) lines.
Proof.
  apply (clean_text_shape Html.unescape (u " Senior   <b>Dev</b>" ++ LF ++ LF ++ u "remote ")).
  vm_compute. reflexivity.
Defined.

Lemma clean_text_tag_free_witness :
  Re.sub _TAG_RE SP (u "a > b <") = u "a > b <"
  /\ Re.sub _BR_RE LF (u "a > b <") = u "a > b <"
  /\ forall pre body rest,
       u "a > b <" = pre ++ "<"%char :: body ++ ">"%char :: rest ->
       body = [] \/ In ">"%char body.
Proof.
  apply (clean_text_tag_free Html.unescape (u "a > <i>b</i> <")).
  vm_compute. reflexivity.
Defined.

Lemma clean_text_empty_iff_witness :
  clean_text Html.unescape (Some (u " <p> <b></b> </p> ")) = Ret []
  <-> Forall (fun c => is_space c = true) (Re.sub _TAG_RE SP (u " <p> <b></b> </p> ")).
Proof.
  apply (clean_text_empty_iff Html.unescape). vm_compute. reflexivity.
Defined.

Lemma normalize_job_text_spec_witness :
  (forall k, ~ In k TEXT_KEYS -> markup_job_cleaned !! k = markup_job !! k)
  /\ (forall k, In k TEXT_KEYS ->
        match markup_job !! k with
        | None => markup_job_cleaned !! k = None
        | Some value => exists t, clean_text Html.unescape value = Ret t
                                  /\ markup_job_cleaned !! k = Some (Some t)
        end)
  /\ dom markup_job_cleaned = dom markup_job.
Proof.
  apply (normalize_job_text_spec Html.unescape markup_job markup_job_cleaned).
  vm_compute. reflexivity.
Defined.
(* ===================================================================== *)
(** * Classifier: keywords and priority                                   *)
(* ===================================================================== *)

Lemma startswith_app p : forall s t,
  startswith p s = true -> startswith p (s ++ t) = true.
Proof.
  induction p as [|x p IH]; intros [|y s] t H; try reflexivity; try discriminate.
  cbn [startswith app] in *. apply andb_true_iff in H as [H1 H2].
  now rewrite H1, (IH _ _ H2).
Qed.

Lemma contains_nil p : contains p [] = true -> p = [].
Proof. destruct p; [reflexivity | discriminate]. Qed.

Lemma contains_app_l p s t :
  contains p s = true -> contains p (s ++ t) = true.
Proof.
  induction s as [|c s IH]; intros H.
  - apply contains_nil in H. subst p. destruct t; reflexivity.
  - cbn [contains app] in *. apply orb_true_iff in H as [H|H].
    + pose proof (startswith_app _ _ t H) as H'. cbn [app] in H'.
      now rewrite H'.
    + rewrite (IH H). apply orb_true_r.
Qed.

Lemma contains_app_r p s t :
  contains p t = true -> contains p (s ++ t) = true.
Proof.
  intros H. induction s as [|c s IH]; [exact H|].
  cbn [contains app]. rewrite IH. apply orb_true_r.
Qed.

Lemma contains_join p sep x l :
  In x l -> contains p x = true -> contains p (join sep l) = true.
Proof.
  intros Hin Hp. induction l as [|y l IH]; [destruct Hin|].
  rewrite join_cons. destruct Hin as [->|Hin].
  - now apply contains_app_l.
  - destruct l as [|z l]; [destruct Hin|].
    apply contains_app_r, contains_app_r, IH, Hin.
Qed.

Lemma lower_join sep l : lower (join sep l) = join (lower sep) (map lower l).
Proof.
  induction l as [|x l IH]; [reflexivity|].
  rewrite join_cons. cbn [map]. rewrite join_cons.
  unfold lower in *. rewrite map_app.
  destruct l as [|y l]; [reflexivity|].
  rewrite map_app. now rewrite IH.
Qed.

Lemma any_in_intro kw kws text :
  In kw kws -> contains kw text = true -> any_in kws text = true.
Proof.
  intros Hin Hc. unfold any_in. apply existsb_exists. now exists kw.
Qed.

(** the label found is that of the entry at position [n], or of an
    entry before it *)
Lemma first_label_upto table text : forall n label kws,
  nth_error table n = Some (label, kws) ->
  any_in kws text = true ->
  In (first_label table text) (map fst (firstn (S n) table)).
Proof.
  induction table as [|[l k] table IH]; intros n label kws Hn Hk.
  - destruct n; discriminate.
  - cbn [first_label]. destruct (any_in k text) eqn:E.
    + now left.
    + destruct n as [|n].
      * inversion Hn. subst. congruence.
      * right. apply (IH n label kws); assumption.
Qed.

(** X5.  A keyword of the arrangement table that occurs, in any case, in
    the location, the title, the category or the type decides the
    arrangement unless a label earlier in the table has a keyword in
    the text too: the arrangement is the keyword's label or one before
    it, never empty.  A keyword of [remote] gives [remote] whatever
    else the fields say. *)
Theorem detect_arrangement_keyword (job : record) key n label kws kw :
  In key ["location"; "title"; "category"; "type"]%string ->
  nth_error ARRANGEMENT_KEYWORDS n = Some (label, kws) ->
  In kw kws ->
  contains kw (lower (get_or_empty job key)) = true ->
  In (detect_arrangement job) (map fst (firstn (S n) ARRANGEMENT_KEYWORDS))
  /\ detect_arrangement job <> []
  /\ (n = 0%nat -> detect_arrangement job = u "remote").
Proof.
  intros Hkey Hn Hkw Hc.
  assert (Hin : In (detect_arrangement job)
                   (map fst (firstn (S n) ARRANGEMENT_KEYWORDS))).
  { unfold detect_arrangement. apply (first_label_upto _ _ n label kws Hn).
    apply (any_in_intro kw); [exact Hkw|].
    rewrite lower_join. apply (contains_join _ _ (lower (get_or_empty job key))); [|exact Hc].
    cbn [map]. cbn [In] in Hkey |- *.
    destruct Hkey as [<-|[<-|[<-|[<-|[]]]]]; auto. }
  split; [exact Hin|]. split.
  - intros E. rewrite E in Hin.
    destruct n as [|[|[|n]]]; cbn in Hin; intuition discriminate.
  - intros ->. destruct Hin as [E|[]]. symmetry. exact E.
Qed.

(** X6.  The same for the job type, read from the category, the type
    and the title: a keyword of [full-time] gives [full-time] whatever
    else the fields say, and any keyword gives a label at or before its
    own. *)
Theorem detect_job_type_keyword (job : record) key n label kws kw :
  In key ["category"; "type"; "title"]%string ->
  nth_error TYPE_KEYWORDS n = Some (label, kws) ->
  In kw kws ->
  contains kw (lower (get_or_empty job key)) = true ->
  In (detect_job_type job) (map fst (firstn (S n) TYPE_KEYWORDS))
  /\ detect_job_type job <> []
  /\ (n = 0%nat -> detect_job_type job = u "full-time").
Proof.
  intros Hkey Hn Hkw Hc.
  assert (Hin : In (detect_job_type job)
                   (map fst (firstn (S n) TYPE_KEYWORDS))).
  { unfold detect_job_type. apply (first_label_upto _ _ n label kws Hn).
    apply (any_in_intro kw); [exact Hkw|].
    rewrite lower_join. apply (contains_join _ _ (lower (get_or_empty job key))); [|exact Hc].
    cbn [map]. cbn [In] in Hkey |- *.
    destruct Hkey as [<-|[<-|[<-|[]]]]; auto. }
  split; [exact Hin|]. split.
  - intros E. rewrite E in Hin.
    destruct n as [|[|[|[|n]]]]; cbn in Hin; intuition discriminate.
  - intros ->. destruct Hin as [E|[]]. symmetry. exact E.
Qed.

Lemma detect_arrangement_keyword_witness :
  In (detect_arrangement home_job) (map fst (firstn 1 ARRANGEMENT_KEYWORDS))
  /\ detect_arrangement home_job <> []
  /\ (0%nat = 0%nat -> detect_arrangement home_job = u "remote").
Proof.
  apply (detect_arrangement_keyword home_job "title" 0
           (u "remote") [u "remote"; u "work from home"; u "wfh"; u "anywhere"]
           (u "work from home")).
  - cbn. auto.
  - reflexivity.
  - cbn. auto.
  - vm_compute. reflexivity.
Defined.

Lemma detect_job_type_keyword_witness :
  In (detect_job_type gig_job) (map fst (firstn 4 TYPE_KEYWORDS))
  /\ detect_job_type gig_job <> []
  /\ (3%nat = 0%nat -> detect_job_type gig_job = u "full-time").
Proof.
  apply (detect_job_type_keyword gig_job "type" 3
           (u "freelance") [u "freelance"; u "gig"] (u "gig")).
  - cbn. auto.
  - reflexivity.
  - cbn. auto.
  - vm_compute. reflexivity.
Defined.
(* ===================================================================== *)
(** * Date parser and loader: further properties                          *)
(* ===================================================================== *)

Section DateMore.
Variable unescape : str -> result str.
Variable fromisoformat : str -> result pydatetime.
Variable parsedate_to_datetime : str -> result pydatetime.
Variable strptime : str -> str -> result pydatetime.
Variable strftime : datetime -> str -> str.

Local Abbreviation parse_date' :=
  (parse_date fromisoformat parsedate_to_datetime strptime).

Lemma parse_date_raw (job job' : record) :
  date_raw job = date_raw job' -> parse_date' job = parse_date' job'.
Proof. intros E. unfold parse_date. now rewrite E. Qed.

(** X7.  [posted_date] hides [date_posted] as soon as it is not empty:
    the other member is not read, whatever it holds, and a
    [posted_date] of whitespace only gives no date even when
    [date_posted] holds one. *)
Theorem parse_date_posted_date_wins (job : record) (other : option str) :
  nonempty (get_or_empty job "posted_date") = true ->
  parse_date' (<["date_posted"%string := other]> job) = parse_date' job
  /\ (strip (get_or_empty job "posted_date") = [] ->
      parse_date' (<["date_posted"%string := other]> job) = Ret None).
Proof.
  intros Hne.
  assert (Hraw : date_raw (<["date_posted"%string := other]> job)
                 = strip (get_or_empty job "posted_date")).
  { unfold date_raw, get_or_empty.
    rewrite lookup_insert_ne by discriminate.
    fold (get_or_empty job "posted_date"). now rewrite Hne. }
  split.
  - apply parse_date_raw. rewrite Hraw. unfold date_raw. now rewrite Hne.
  - intros Hs. unfold parse_date. rewrite Hraw, Hs. reflexivity.
Qed.

Lemma try_except_none (r : result pydatetime) (f : pydatetime -> datetime)
    classes (handler : result (option datetime)) :
  caught classes r ->
  (try_except (let* dt := r in Ret (Some (f dt))) classes handler = Ret None
   <-> ~ returns r /\ handler = Ret None).
Proof.
  intros Hc. destruct r as [dt|e]; cbn [bind try_except].
  - split; [discriminate|]. intros [H _]. exfalso. apply H. now eexists.
  - cbn [caught] in Hc. rewrite Hc. split.
    + intros H. split; [|exact H]. intros [a Ha]. discriminate.
    + now intros [_ H].
Qed.

(** X8.  As long as each parser returns or raises a class its [except]
    clause names, [parse_date] gives no date exactly when the date text
    is blank or none of the four parsers accepts it. *)
Theorem parse_date_none_iff (job : record) :
  let raw := date_raw job in
  caught [ValueError; TypeError] (fromisoformat raw) ->
  caught [ValueError; TypeError; IndexError] (parsedate_to_datetime raw) ->
  (forall fmt, caught [ValueError; TypeError] (strptime raw fmt)) ->
  (parse_date' job = Ret None
   <-> raw = []
       \/ (~ returns (fromisoformat raw)
           /\ ~ returns (parsedate_to_datetime raw)
           /\ ~ returns (strptime raw (u "%b %d, %Y"))
           /\ ~ returns (strptime raw (u "%Y-%m-%d")))).
Proof.
  intros raw H1 H2 H3. unfold parse_date. fold raw.
  destruct raw as [|c raw'] eqn:Eraw.
  { cbn [nonempty negb]. split; [now left | reflexivity]. }
  rewrite <- Eraw in *. assert (Hne : nonempty raw = true) by now rewrite Eraw.
  rewrite Hne. cbn [negb].
  rewrite (try_except_none _ _ _ _ H1), (try_except_none _ _ _ _ H2),
          (try_except_none _ _ _ _ (H3 _)), (try_except_none _ _ _ _ (H3 _)).
  split.
  - intros (A & B & C & D & _). right. auto.
  - intros [E|(A & B & C & D)]; [rewrite E in Eraw; discriminate|]. auto.
Qed.

Local Abbreviation load_one' :=
  (load_one unescape fromisoformat parsedate_to_datetime strptime strftime).
Local Abbreviation load_jobs' :=
  (load_jobs unescape fromisoformat parsedate_to_datetime strptime strftime).

Lemma bind_raises {A B} (r : result A) (k : A -> result B) :
  ~ returns r -> ~ returns (bind r k).
Proof.
  intros H [b Hb]. destruct r as [a|e]; [|discriminate].
  apply H. now eexists.
Qed.

(** X9.  Loading is all or nothing: when the loop body raises on one
    record of the file, [load_jobs] returns no list at all, and each of
    the four routes that load the file raises for every request. *)
Theorem load_jobs_all_or_nothing (raws : list record) i raw e :
  nth_error raws i = Some raw ->
  load_one' (Z.of_nat i) raw = Raise e ->
  ~ returns (load_jobs' (Some raws))
  /\ (forall q page, ~ returns (index unescape fromisoformat parsedate_to_datetime
                                  strptime strftime (Some raws) q page))
  /\ (forall q, ~ returns (api_jobs unescape fromisoformat parsedate_to_datetime
                             strptime strftime (Some raws) q))
  /\ (forall job_id, ~ returns (job_detail unescape fromisoformat
                                  parsedate_to_datetime strptime strftime
                                  (Some raws) job_id))
  /\ (forall job_id, ~ returns (api_job_detail unescape fromisoformat
                                  parsedate_to_datetime strptime strftime
                                  (Some raws) job_id)).
Proof.
  intros Hn He.
  assert (Hl : ~ returns (load_jobs' (Some raws))).
  { intros [jobs Hj]. cbn [load_jobs] in Hj.
    destruct (load_loop_nth _ _ _ _ _ _ _ _ Hj) as [_ Hnth].
    destruct (Hnth i raw Hn) as (j & _ & Hj').
    rewrite Z.add_0_l in Hj'. congruence. }
  split; [exact Hl|].
  repeat split; intros; apply bind_raises; exact Hl.
Qed.

End DateMore.

Lemma parse_date_posted_date_wins_witness :
  parse_date Lib.fromisoformat Lib.parsedate_to_datetime Lib.strptime
    (<["date_posted"%string := Some (u "2026-02-03")]> blank_date_job)
  = parse_date Lib.fromisoformat Lib.parsedate_to_datetime Lib.strptime
      blank_date_job
  /\ (strip (get_or_empty blank_date_job "posted_date") = [] ->
      parse_date Lib.fromisoformat Lib.parsedate_to_datetime Lib.strptime
        (<["date_posted"%string := Some (u "2026-02-03")]> blank_date_job)
      = Ret None).
Proof.
  apply parse_date_posted_date_wins. vm_compute. reflexivity.
Defined.

Lemma parse_date_none_iff_witness :
  parse_date Lib.fromisoformat Lib.parsedate_to_datetime Lib.strptime soon_job
  = Ret None
  <-> date_raw soon_job = []
      \/ (~ returns (Lib.fromisoformat (date_raw soon_job))
          /\ ~ returns (Lib.parsedate_to_datetime (date_raw soon_job))
          /\ ~ returns (Lib.strptime (date_raw soon_job) (u "%b %d, %Y"))
          /\ ~ returns (Lib.strptime (date_raw soon_job) (u "%Y-%m-%d"))).
Proof.
  apply (parse_date_none_iff Lib.fromisoformat Lib.parsedate_to_datetime
           Lib.strptime soon_job).
  - vm_compute. reflexivity.
  - vm_compute. reflexivity.
  - intros fmt. vm_compute. reflexivity.
Defined.

Lemma load_jobs_all_or_nothing_witness :
  ~ returns (load_jobs Html.unescape Lib.fromisoformat Lib.parsedate_to_datetime
               Lib.strptime Lib.strftime (Some overflow_file))
  /\ (forall q page, ~ returns (index Html.unescape Lib.fromisoformat
                                  Lib.parsedate_to_datetime Lib.strptime
                                  Lib.strftime (Some overflow_file) q page))
  /\ (forall q, ~ returns (api_jobs Html.unescape Lib.fromisoformat
                             Lib.parsedate_to_datetime Lib.strptime
                             Lib.strftime (Some overflow_file) q))
  /\ (forall job_id, ~ returns (job_detail Html.unescape Lib.fromisoformat
                                  Lib.parsedate_to_datetime Lib.strptime
                                  Lib.strftime (Some overflow_file) job_id))
  /\ (forall job_id, ~ returns (api_job_detail Html.unescape Lib.fromisoformat
                                  Lib.parsedate_to_datetime Lib.strptime
                                  Lib.strftime (Some overflow_file) job_id)).
Proof.
  apply (load_jobs_all_or_nothing Html.unescape Lib.fromisoformat
           Lib.parsedate_to_datetime Lib.strptime Lib.strftime overflow_file 1
           {[ "posted_date"%string := Some Lib.overflow_date ]} OverflowError).
  - reflexivity.
  - vm_compute. reflexivity.
Defined.
(* ===================================================================== *)
(** * Filter engine: further properties                                   *)
(* ===================================================================== *)

Lemma str_eqb_eq a : forall b, str_eqb a b = true <-> a = b.
Proof.
  induction a as [|x a IH]; intros [|y b]; cbn [str_eqb];
    try (split; [discriminate | discriminate]); [tauto|].
  unfold ch_eqb. rewrite andb_true_iff, IH, Ascii.eqb_eq.
  split; [intros [-> ->]; reflexivity | intros E; now inversion E].
Qed.

Lemma nonempty_true (s : str) : nonempty s = true <-> s <> [].
Proof. destruct s; cbn; split; congruence. Qed.

Lemma field_is_true j key x :
  x <> [] -> (field_is j key x = true <-> fields j !! key = Some (Some x)).
Proof.
  intros Hx. unfold field_is.
  destruct (fields j !! key) as [[s|]|].
  - rewrite str_eqb_eq.
    split; [intros ->; reflexivity | intros E; now inversion E].
  - split; discriminate.
  - rewrite str_eqb_eq. split; [|discriminate].
    intros E. exfalso. apply Hx. now symmetry.
Qed.

Lemma opt_keep_true (s : str) keep j (P : Prop) :
  (s <> [] -> (keep j = true <-> P)) ->
  (opt_keep (nonempty s) keep j = true <-> (s <> [] -> P)).
Proof.
  intros H. unfold opt_keep. destruct s as [|c s]; cbn [nonempty negb orb].
  - split; [congruence | reflexivity].
  - split; [intros E _; apply H; [discriminate | exact E]|].
    intros E. apply H; [discriminate|]. apply E. discriminate.
Qed.

Lemma keeps_others_passes q j : keeps_others q j = true <-> passes q j.
Proof.
  unfold keeps_others, passes. rewrite !andb_true_iff.
  rewrite (opt_keep_true (source_filter q) (keep_source q) j
             (fields j !! "source"%string = Some (Some (source_filter q)))).
  2:{ intros H. now apply field_is_true. }
  rewrite (opt_keep_true (category_filter q) (keep_category q) j
             (fields j !! "category"%string = Some (Some (category_filter q))
              \/ fields j !! "type"%string = Some (Some (category_filter q)))).
  2:{ intros H. unfold keep_category. rewrite orb_true_iff.
      now rewrite !field_is_true. }
  rewrite (opt_keep_true (arrangement_filter q) (keep_arrangement q) j
             (_arrangement j = arrangement_filter q)).
  2:{ intros _. apply str_eqb_eq. }
  rewrite (opt_keep_true (job_type_filter q) (keep_job_type q) j
             (_job_type j = job_type_filter q)).
  2:{ intros _. apply str_eqb_eq. }
  rewrite (opt_keep_true (search_query q) (keep_search q) j
             (exists key, In key ["title"; "description"; "job_description"]%string
                /\ contains (lower (search_query q))
                     (lower (get_or_empty (fields j) key)) = true)).
  2:{ intros _. unfold keep_search. cbv zeta. rewrite !orb_true_iff. split.
      - intros [[H|H]|H]; eexists; (split; [|exact H]); cbn; auto.
      - intros (key & [<-|[<-|[<-|[]]]] & H); auto. }
  tauto.
Qed.

Section SortFixed.
Context {A : Type} (key : A -> N) (reverse : bool).

(** sorting a sorted list changes nothing *)
Lemma list_sort_fixed l :
  StronglySorted (fun a b => sort_before key reverse a b = true) l ->
  list_sort key reverse l = l.
Proof.
  unfold list_sort. induction 1 as [|x l Hs IH Hall]; [reflexivity|].
  cbn [fold_right]. rewrite IH.
  destruct l as [|y l]; [reflexivity|].
  cbn [insert_by]. inversion Hall as [|? ? Hxy _]; subst. now rewrite Hxy.
Qed.
End SortFixed.

Lemma filter_fixed {A} (p : A -> bool) l :
  Forall (fun x => p x = true) l -> List.filter p l = l.
Proof.
  induction 1 as [|x l Hx _ IH]; [reflexivity|].
  cbn [List.filter]. now rewrite Hx, IH.
Qed.

Lemma filter_all {A} (p : A -> bool) l :
  Forall (fun x => p x = true) (List.filter p l).
Proof.
  induction l as [|x l IH]; [constructor|].
  cbn [List.filter]. destruct (p x) eqn:E; [now constructor | exact IH].
Qed.

(** X10.  The jobs [apply_filters] returns are the jobs of the input
    that pass every criterion in effect: the source equal to the one
    asked, the category or the type equal to the one asked, the
    arrangement and the job type found by the loader equal to those
    asked, the search text, in any case, inside the title, the
    description or the job description in any case, and the salary
    inside the bracket.  A criterion whose argument is empty excludes
    nothing; a job that lacks a member never matches a criterion on
    it. *)
Theorem apply_filters_criteria (q : query) (s : store) (jobs : loc)
    (v : list njob) :
  s !! jobs = Some v ->
  exists r s' out,
    apply_filters jobs q s = (r, s')
    /\ s' !! r = Some out
    /\ (forall j, In j out <->
          In j v /\ passes q j /\ keeps_salary q j = true)
    /\ (length out <= length v)%nat.
Proof.
  intros Hv.
  destruct (apply_filters_run q s jobs v Hv) as (r & s' & E & Hr & _).
  exists r, s', (list_sort date_key (newest_first q) (List.filter (keeps q) v)).
  split; [exact E|]. split; [exact Hr|]. split.
  - intros j. rewrite <- keeps_others_passes.
    rewrite <- (andb_true_iff (keeps_others q j) (keeps_salary q j)).
    fold (keeps q j). rewrite <- filter_In. split.
    + apply Permutation_in. apply list_sort_perm.
    + apply Permutation_in. symmetry. apply list_sort_perm.
  - rewrite (Permutation_length (list_sort_perm _ _ _)).
    apply filter_length_le.
Qed.

(** X11.  Filtering is idempotent: applying the same query to the list
    a run returned returns the same jobs in the same order. *)
Theorem apply_filters_idempotent (q : query) (s : store) (jobs : loc)
    (v : list njob) r s' :
  s !! jobs = Some v ->
  apply_filters jobs q s = (r, s') ->
  exists out r2 s2,
    s' !! r = Some out
    /\ apply_filters r q s' = (r2, s2)
    /\ s2 !! r2 = Some out.
Proof.
  intros Hv E.
  destruct (apply_filters_run q s jobs v Hv) as (r0 & s0 & E0 & Hr & _).
  rewrite E in E0. inversion E0. subst r0 s0. clear E0.
  set (out := list_sort date_key (newest_first q) (List.filter (keeps q) v)) in *.
  destruct (apply_filters_run q s' r out Hr) as (r2 & s2 & E2 & Hr2 & _).
  exists out, r2, s2. split; [exact Hr|]. split; [exact E2|].
  rewrite Hr2. f_equal.
  rewrite filter_fixed.
  - apply list_sort_fixed. apply list_sort_sorted.
  - eapply Permutation_Forall; [symmetry; apply list_sort_perm|].
    apply filter_all.
Qed.

Lemma lower_nonempty s : nonempty (lower s) = nonempty s.
Proof. destruct s; reflexivity. Qed.

(** X12.  The case of the search text does not matter: two queries
    whose search texts differ in case only run alike. *)
Theorem search_ignores_case (q : query) (a b : str) (jobs : loc) (s : store) :
  lower a = lower b ->
  apply_filters jobs (with_search q a) s = apply_filters jobs (with_search q b) s.
Proof.
  intros H.
  assert (Hne : nonempty a = nonempty b).
  { now rewrite <- (lower_nonempty a), <- (lower_nonempty b), H. }
  unfold apply_filters, salary_range, keep_search, keep_source, keep_category,
    keep_arrangement, keep_job_type.
  cbn [with_search source_filter category_filter search_query
       arrangement_filter job_type_filter sort_by salary_filter].
  now rewrite H, Hne.
Qed.

Lemma apply_filters_criteria_witness :
  exists r s' out,
    apply_filters 0 (with_search (no_filters []) (u "x"))
      {[ 0%nat := [sample_job 0 None None] ]} = (r, s')
    /\ s' !! r = Some out
    /\ (forall j, In j out <->
          In j [sample_job 0 None None]
          /\ passes (with_search (no_filters []) (u "x")) j
          /\ keeps_salary (with_search (no_filters []) (u "x")) j = true)
    /\ (length out <= length [sample_job 0 None None])%nat.
Proof.
  apply (apply_filters_criteria (with_search (no_filters []) (u "x"))
           {[ 0%nat := [sample_job 0 None None] ]} 0).
  reflexivity.
Defined.

Lemma apply_filters_idempotent_witness :
  exists out r2 s2,
    ({[ 0%nat := [sample_job 1 (Some 2%N) None; sample_job 0 (Some 1%N) None] ]}
       : store) !! 0%nat = Some out
    /\ apply_filters 0 (no_filters [])
         {[ 0%nat := [sample_job 1 (Some 2%N) None; sample_job 0 (Some 1%N) None] ]}
       = (r2, s2)
    /\ s2 !! r2 = Some out.
Proof.
  apply (apply_filters_idempotent (no_filters [])
           {[ 0%nat := [sample_job 0 (Some 1%N) None; sample_job 1 (Some 2%N) None] ]}
           0 [sample_job 0 (Some 1%N) None; sample_job 1 (Some 2%N) None]).
  - reflexivity.
  - vm_compute. reflexivity.
Defined.

Lemma search_ignores_case_witness :
  apply_filters 0 (with_search (no_filters []) (u "Python Dev"))
    {[ 0%nat := [sample_job 0 None None] ]}
  = apply_filters 0 (with_search (no_filters []) (u "pYTHON dEV"))
      {[ 0%nat := [sample_job 0 None None] ]}.
Proof.
  apply search_ignores_case. vm_compute. reflexivity.
Defined.
(* ===================================================================== *)
(** * Facets: the sources and the categories offered for filtering        *)
(* ===================================================================== *)

(** ** The order of strings *)

Lemma code_inj x y : code x = code y -> x = y.
Proof.
  unfold code. intros H.
  rewrite <- (ascii_N_embedding x), <- (ascii_N_embedding y). now rewrite H.
Qed.

Lemma str_ltb_irrefl a : str_ltb a a = false.
Proof.
  induction a as [|x a IH]; [reflexivity|].
  cbn [str_ltb]. now rewrite N.ltb_irrefl, N.eqb_refl, IH.
Qed.

Lemma str_ltb_trans a : forall b c,
  str_ltb a b = true -> str_ltb b c = true -> str_ltb a c = true.
Proof.
  induction a as [|x a IH]; intros [|y b] [|z c] H1 H2; try discriminate;
    try reflexivity.
  cbn [str_ltb] in *.
  apply orb_true_iff in H1, H2. apply orb_true_iff.
  destruct H1 as [H1|H1], H2 as [H2|H2].
  - left. apply N.ltb_lt in H1, H2. apply N.ltb_lt. lia.
  - apply andb_true_iff in H2 as [H2 _]. apply N.eqb_eq in H2.
    left. now rewrite <- H2.
  - apply andb_true_iff in H1 as [H1 _]. apply N.eqb_eq in H1.
    left. now rewrite H1.
  - apply andb_true_iff in H1 as [E1 H1]. apply andb_true_iff in H2 as [E2 H2].
    apply N.eqb_eq in E1, E2. right.
    rewrite E1, E2, N.eqb_refl. cbn [andb]. eapply IH; eassumption.
Qed.

Lemma str_ltb_connex a : forall b,
  str_ltb a b = false -> str_ltb b a = false -> a = b.
Proof.
  induction a as [|x a IH]; intros [|y b] H1 H2; try discriminate;
    [reflexivity|].
  cbn [str_ltb] in *.
  apply orb_false_iff in H1 as [L1 H1]. apply orb_false_iff in H2 as [L2 H2].
  apply N.ltb_ge in L1, L2.
  assert (E : code x = code y) by lia.
  rewrite E, N.eqb_refl in H1, H2. cbn [andb] in H1, H2.
  apply code_inj in E. subst y. f_equal. now apply IH.
Qed.

Lemma str_leb_total x y : str_leb x y = false -> str_leb y x = true.
Proof.
  unfold str_leb. intros H. apply negb_false_iff in H. apply negb_true_iff.
  destruct (str_ltb x y) eqn:E; [|reflexivity].
  pose proof (str_ltb_trans _ _ _ E H) as C. now rewrite str_ltb_irrefl in C.
Qed.

Lemma str_leb_trans x y z :
  str_leb x y = true -> str_leb y z = true -> str_leb x z = true.
Proof.
  unfold str_leb. intros H1 H2.
  apply negb_true_iff in H1, H2. apply negb_true_iff.
  destruct (str_ltb z x) eqn:E; [|reflexivity].
  destruct (str_ltb x y) eqn:Exy.
  - pose proof (str_ltb_trans _ _ _ E Exy). congruence.
  - pose proof (str_ltb_connex _ _ Exy H1). subst y. congruence.
Qed.

Lemma str_leb_strict x y : str_leb x y = true -> x <> y -> str_ltb x y = true.
Proof.
  unfold str_leb. intros H Hne. apply negb_true_iff in H.
  destruct (str_ltb x y) eqn:E; [reflexivity|].
  exfalso. apply Hne. now apply str_ltb_connex.
Qed.

(** ** Insertion into a sorted list, for any total preorder *)

Section InsertSort.
Context {A : Type} (before : A -> A -> bool).
Hypothesis before_total' : forall x y, before x y = false -> before y x = true.
Hypothesis before_trans' :
  forall x y z, before x y = true -> before y z = true -> before x z = true.

Lemma insert_perm x l : Permutation (insert_by before x l) (x :: l).
Proof.
  induction l as [|y l IH]; simpl; [reflexivity|].
  destruct (before x y); [reflexivity|].
  rewrite IH. apply perm_swap.
Qed.

Lemma insert_sort_perm l : Permutation (fold_right (insert_by before) [] l) l.
Proof.
  induction l as [|x l IH]; simpl; [reflexivity|].
  rewrite insert_perm. now constructor.
Qed.

Lemma insert_sorted x l :
  StronglySorted (fun a b => before a b = true) l ->
  StronglySorted (fun a b => before a b = true) (insert_by before x l).
Proof.
  induction 1 as [|y l Hs IH Hall]; simpl.
  - repeat constructor.
  - destruct (before x y) eqn:Hb.
    + constructor; [now constructor|].
      constructor; [assumption|].
      eapply List.Forall_impl; [|exact Hall].
      intros z Hz. eapply before_trans'; eassumption.
    + constructor; [assumption|].
      eapply Permutation_Forall; [symmetry; apply insert_perm|].
      constructor; [now apply before_total' | assumption].
Qed.

Lemma insert_sort_sorted l :
  StronglySorted (fun a b => before a b = true) (fold_right (insert_by before) [] l).
Proof.
  induction l as [|x l IH]; simpl; [constructor|].
  now apply insert_sorted.
Qed.
End InsertSort.

(** ** Sorted lists of strings *)

Lemma sorted_strict l :
  List.NoDup l ->
  StronglySorted (fun a b => str_leb a b = true) l ->
  StronglySorted (fun a b => str_ltb a b = true) l.
Proof.
  intros Hnd Hs. induction Hs as [|x l Hs IH Hall]; [constructor|].
  inversion Hnd as [|? ? Hx Hnd']; subst.
  constructor; [now apply IH|].
  rewrite List.Forall_forall in Hall |- *. intros y Hy.
  apply str_leb_strict; [now apply Hall|]. intros ->. contradiction.
Qed.

Lemma strict_head_not_in x l :
  Forall (fun b => str_ltb x b = true) l -> ~ In x l.
Proof.
  intros H Hin. rewrite List.Forall_forall in H.
  specialize (H x Hin). now rewrite str_ltb_irrefl in H.
Qed.

(** two strictly increasing lists with the same elements are equal *)
Lemma strict_sorted_unique l1 : forall l2,
  StronglySorted (fun a b => str_ltb a b = true) l1 ->
  StronglySorted (fun a b => str_ltb a b = true) l2 ->
  (forall x, In x l1 <-> In x l2) -> l1 = l2.
Proof.
  induction l1 as [|x l1 IH]; intros l2 H1 H2 Hm.
  - destruct l2 as [|y l2]; [reflexivity|].
    exfalso. apply (proj2 (Hm y)). now left.
  - destruct l2 as [|y l2].
    { exfalso. apply (proj1 (Hm x)). now left. }
    inversion H1 as [|? ? S1 A1]; subst. inversion H2 as [|? ? S2 A2]; subst.
    assert (E : x = y).
    { destruct (proj1 (Hm x) (or_introl eq_refl)) as [E|Hx]; [now symmetry|].
      destruct (proj2 (Hm y) (or_introl eq_refl)) as [E|Hy]; [exact E|].
      rewrite List.Forall_forall in A1, A2.
      pose proof (str_ltb_trans _ _ _ (A1 y Hy) (A2 x Hx)) as C.
      now rewrite str_ltb_irrefl in C. }
    subst y. f_equal. apply IH; try assumption.
    intros z. split; intros Hz.
    + destruct (proj1 (Hm z) (or_intror Hz)) as [->|H]; [|exact H].
      exfalso. now apply (strict_head_not_in z l1).
    + destruct (proj2 (Hm z) (or_intror Hz)) as [->|H]; [|exact H].
      exfalso. now apply (strict_head_not_in z l2).
Qed.

Lemma sorted_strs_spec s :
  List.NoDup s ->
  StronglySorted (fun a b => str_ltb a b = true) (sorted_strs s)
  /\ forall x, In x (sorted_strs s) <-> In x s.
Proof.
  intros Hnd.
  pose proof (insert_sort_perm str_leb s) as Hp. fold (sorted_strs s) in Hp.
  split.
  - apply sorted_strict.
    + eapply Permutation_NoDup; [symmetry; exact Hp | exact Hnd].
    + apply insert_sort_sorted; [exact str_leb_total | exact str_leb_trans].
  - intros x. split; apply Permutation_in; [exact Hp | now symmetry].
Qed.

(** ** The sets collected by the loops *)

Lemma existsb_str_eqb x s : existsb (str_eqb x) s = true <-> In x s.
Proof.
  rewrite existsb_exists. split.
  - intros (y & Hy & E). apply str_eqb_eq in E. now subst.
  - intros H. exists x. split; [exact H | now apply str_eqb_eq].
Qed.

Lemma set_add_spec x s :
  (forall y, In y (set_add x s) <-> y = x \/ In y s)
  /\ (List.NoDup s -> List.NoDup (set_add x s)).
Proof.
  unfold set_add. destruct (existsb (str_eqb x) s) eqn:E.
  - apply existsb_str_eqb in E. split; [|auto].
    intros y. split; [auto | intros [->|H]; assumption].
  - assert (Hx : ~ In x s).
    { intros H. apply existsb_str_eqb in H. congruence. }
    split.
    + intros y. rewrite in_app_iff. cbn [In]. intuition.
    + intros Hnd. apply List.NoDup_app; [exact Hnd | repeat constructor; intros [] |].
      intros y Hy [<-|[]]. contradiction.
Qed.

(** [s.add(v)] when [v] is not empty *)
Lemma add_nonempty_spec v s :
  let s' := if nonempty v then set_add v s else s in
  (forall y, In y s' <-> (v <> [] /\ y = v) \/ In y s)
  /\ (List.NoDup s -> List.NoDup s').
Proof.
  destruct v as [|c v]; cbn [nonempty]; cbv zeta.
  - split; [|auto]. intros y. split; [auto | intros [[H _]|H]; congruence].
  - destruct (set_add_spec (c :: v) s) as [Hm Hnd]. split; [|exact Hnd].
    intros y. rewrite Hm. split; [intros [->|H]; [left; split; [discriminate|reflexivity] | auto]|].
    intros [[_ ->]|H]; auto.
Qed.

Lemma sources_loop_spec jobs : forall acc,
  (forall x, In x (sources_loop jobs acc) <->
     In x acc
     \/ (x <> [] /\ exists j, In j jobs /\ get_or_empty (fields j) "source" = x))
  /\ (List.NoDup acc -> List.NoDup (sources_loop jobs acc)).
Proof.
  induction jobs as [|job jobs IH]; intros acc.
  - cbn [sources_loop]. split; [|auto].
    intros x. split; [auto | intros [H|(_ & j & [] & _)]; exact H].
  - cbn [sources_loop]. cbv zeta.
    destruct (add_nonempty_spec (get_or_empty (fields job) "source") acc) as [Hm Hnd].
    cbv zeta in Hm, Hnd.
    destruct (IH (if nonempty (get_or_empty (fields job) "source")
                  then set_add (get_or_empty (fields job) "source") acc else acc))
      as [IHm IHnd].
    split; [|auto]. intros x. rewrite IHm, Hm. split.
    + intros [[[Hne ->]|H]|(Hne & j & Hj & E)]; auto.
      * right. split; [exact Hne|]. exists job. split; [now left | reflexivity].
      * right. split; [exact Hne|]. exists j. split; [now right | exact E].
    + intros [H|(Hne & j & [<-|Hj] & E)]; auto.
      * left. left. split; [now rewrite E | now symmetry].
      * right. split; [exact Hne|]. now exists j.
Qed.

Lemma categories_loop_spec jobs : forall acc,
  (forall x, In x (categories_loop jobs acc) <->
     In x acc
     \/ (x <> [] /\ exists j, In j jobs
           /\ (get_or_empty (fields j) "category" = x
               \/ get_or_empty (fields j) "type" = x)))
  /\ (List.NoDup acc -> List.NoDup (categories_loop jobs acc)).
Proof.
  induction jobs as [|job jobs IH]; intros acc.
  - cbn [categories_loop]. split; [|auto].
    intros x. split; [auto | intros [H|(_ & j & [] & _)]; exact H].
  - cbn [categories_loop]. cbv zeta.
    set (c := get_or_empty (fields job) "category").
    set (t := get_or_empty (fields job) "type").
    destruct (add_nonempty_spec c acc) as [Hm1 Hnd1]. cbv zeta in Hm1, Hnd1.
    set (acc1 := if nonempty c then set_add c acc else acc) in *.
    destruct (add_nonempty_spec t acc1) as [Hm2 Hnd2]. cbv zeta in Hm2, Hnd2.
    set (acc2 := if nonempty t then set_add t acc1 else acc1) in *.
    destruct (IH acc2) as [IHm IHnd].
    split; [|auto]. intros x. rewrite IHm, Hm2, Hm1. split.
    + intros [[[Hne ->]|[[Hne ->]|H]]|(Hne & j & Hj & E)]; auto.
      * right. split; [exact Hne|]. exists job. split; [now left | now right].
      * right. split; [exact Hne|]. exists job. split; [now left | now left].
      * right. split; [exact Hne|]. exists j. split; [now right | exact E].
    + intros [H|(Hne & j & [<-|Hj] & [E|E])]; auto.
      * left. right. left. split; [unfold c; now rewrite E | now symmetry].
      * left. left. split; [unfold t; now rewrite E | now symmetry].
      * right. split; [exact Hne|]. exists j. auto.
      * right. split; [exact Hne|]. exists j. auto.
Qed.

(** X13.  The sources offered are the non-empty values of the [source]
    member of the jobs, each once, in increasing order. *)
Theorem get_unique_sources_spec (jobs : list njob) :
  StronglySorted (fun a b => str_ltb a b = true) (get_unique_sources jobs)
  /\ forall x, In x (get_unique_sources jobs) <->
       x <> [] /\ exists j, In j jobs /\ get_or_empty (fields j) "source" = x.
Proof.
  unfold get_unique_sources.
  destruct (sources_loop_spec jobs []) as [Hm Hnd].
  destruct (sorted_strs_spec _ (Hnd (List.NoDup_nil _))) as [Hs Hin].
  split; [exact Hs|]. intros x. rewrite Hin, Hm.
  split; [intros [[]|H]; exact H | auto].
Qed.

(** X14.  The categories offered are the non-empty values of the
    [category] and [type] members of the jobs together, each once, in
    increasing order. *)
Theorem get_unique_categories_spec (jobs : list njob) :
  StronglySorted (fun a b => str_ltb a b = true) (get_unique_categories jobs)
  /\ forall x, In x (get_unique_categories jobs) <->
       x <> [] /\ exists j, In j jobs
         /\ (get_or_empty (fields j) "category" = x
             \/ get_or_empty (fields j) "type" = x).
Proof.
  unfold get_unique_categories.
  destruct (categories_loop_spec jobs []) as [Hm Hnd].
  destruct (sorted_strs_spec _ (Hnd (List.NoDup_nil _))) as [Hs Hin].
  split; [exact Hs|]. intros x. rewrite Hin, Hm.
  split; [intros [[]|H]; exact H | auto].
Qed.

Lemma sources_perm jobs jobs' :
  Permutation jobs jobs' -> get_unique_sources jobs = get_unique_sources jobs'.
Proof.
  intros Hp. unfold get_unique_sources.
  destruct (sources_loop_spec jobs []) as [Hm Hnd].
  destruct (sources_loop_spec jobs' []) as [Hm' Hnd'].
  destruct (sorted_strs_spec _ (Hnd (List.NoDup_nil _))) as [Hs Hin].
  destruct (sorted_strs_spec _ (Hnd' (List.NoDup_nil _))) as [Hs' Hin'].
  apply strict_sorted_unique; [exact Hs | exact Hs' |].
  intros x. rewrite Hin, Hin', Hm, Hm'.
  split; (intros [H|(Hne & j & Hj & E)]; [now left|]; right;
          split; [exact Hne|]; exists j; split; [|exact E]).
  - eapply Permutation_in; eassumption.
  - eapply Permutation_in; [symmetry|]; eassumption.
Qed.

Lemma categories_perm jobs jobs' :
  Permutation jobs jobs' ->
  get_unique_categories jobs = get_unique_categories jobs'.
Proof.
  intros Hp. unfold get_unique_categories.
  destruct (categories_loop_spec jobs []) as [Hm Hnd].
  destruct (categories_loop_spec jobs' []) as [Hm' Hnd'].
  destruct (sorted_strs_spec _ (Hnd (List.NoDup_nil _))) as [Hs Hin].
  destruct (sorted_strs_spec _ (Hnd' (List.NoDup_nil _))) as [Hs' Hin'].
  apply strict_sorted_unique; [exact Hs | exact Hs' |].
  intros x. rewrite Hin, Hin', Hm, Hm'.
  split; (intros [H|(Hne & j & Hj & E)]; [now left|]; right;
          split; [exact Hne|]; exists j; split; [|exact E]).
  - eapply Permutation_in; eassumption.
  - eapply Permutation_in; [symmetry|]; eassumption.
Qed.

(** X15.  The facets do not depend on the order of the jobs: the lists
    computed from two arrangements of the same jobs are equal. *)
Theorem facets_order_independent (jobs jobs' : list njob) :
  Permutation jobs jobs' ->
  get_unique_sources jobs = get_unique_sources jobs'
  /\ get_unique_categories jobs = get_unique_categories jobs'.
Proof.
  intros Hp. split; [now apply sources_perm | now apply categories_perm].
Qed.

Lemma facets_order_independent_witness :
  get_unique_sources [design_job; contract_job]
  = get_unique_sources [contract_job; design_job]
  /\ get_unique_categories [design_job; contract_job]
     = get_unique_categories [contract_job; design_job].
Proof.
  apply facets_order_independent. apply perm_swap.
Defined.
(* ===================================================================== *)
(** * Pages                                                               *)
(* ===================================================================== *)

Lemma firstn_add_skipn {A} (a b : nat) (l : list A) :
  firstn (a + b) l = firstn a l ++ firstn b (skipn a l).
Proof.
  revert l. induction a as [|a IH]; intros l; [reflexivity|].
  destruct l as [|x l]; [cbn; destruct b; reflexivity|].
  cbn [Nat.add firstn skipn app]. now rewrite IH.
Qed.

Lemma chunks_concat {A} (l : list A) (m : nat) :
  concat (map (fun k => firstn 20 (skipn (k * 20) l)) (seq 0 m))
  = firstn (m * 20) l.
Proof.
  induction m as [|m IH]; [reflexivity|].
  rewrite seq_S, map_app, concat_app, IH. cbn [map concat Nat.add].
  rewrite app_nil_r.
  replace (S m * 20)%nat with (m * 20 + 20)%nat by lia.
  now rewrite firstn_add_skipn.
Qed.

Lemma page_count_eq {A} (l : list A) :
  page_count l = Z.max 1 (ceil_div (Z.of_nat (length l)) JOBS_PER_PAGE).
Proof. reflexivity. Qed.

Lemma page_count_bounds {A} (l : list A) :
  (1 <= page_count l)%Z
  /\ (Z.of_nat (length l) <= 20 * page_count l)%Z
  /\ (l <> [] -> 20 * (page_count l - 1) < Z.of_nat (length l))%Z.
Proof.
  rewrite page_count_eq.
  pose proof (ceil_div_spec (Z.of_nat (length l)) ltac:(lia)) as H.
  split; [lia|]. split; [lia|].
  intros Hne. assert (0 < Z.of_nat (length l))%Z by (destruct l; [congruence | cbn; lia]).
  lia.
Qed.

Lemma page_items_eq {A} (l : list A) (p : Z) :
  page_items l p
  = let page := Z.max 1 (Z.min p (page_count l)) in
    firstn 20 (skipn (Z.to_nat (page - 1) * 20) l).
Proof.
  unfold page_items, paginate, slice. cbn [fst]. cbv zeta.
  rewrite <- page_count_eq.
  set (page := Z.max 1 (Z.min p (page_count l))).
  unfold JOBS_PER_PAGE.
  replace ((page - 1) * 20 + 20 - (page - 1) * 20)%Z with 20%Z by lia.
  replace (Z.to_nat ((page - 1) * 20)) with (Z.to_nat (page - 1) * 20)%nat by lia.
  reflexivity.
Qed.

(** X16.  The pages partition the list: put one after the other, the
    pages 1 to [total_pages] give the list back, in order.  Every page
    before the last has exactly 20 jobs, the last one has between 1 and
    20 unless the list is empty, and a page number outside
    [1..total_pages] shows the first or the last page. *)
Theorem paginate_pages {A} (l : list A) :
  let n := page_count l in
  concat (map (fun p => page_items l (Z.of_nat p)) (seq 1 (Z.to_nat n))) = l
  /\ (forall p, (1 <= p < n)%Z -> length (page_items l p) = 20%nat)
  /\ (l <> [] -> (1 <= length (page_items l n) <= 20)%nat)
  /\ (forall p, (p < 1)%Z -> page_items l p = page_items l 1)
  /\ (forall p, (n < p)%Z -> page_items l p = page_items l n).
Proof.
  intros n. destruct (page_count_bounds l) as (H1 & H2 & H3). fold n in H1, H2, H3.
  split; [|split; [|split; [|split]]].
  - rewrite <- seq_shift, map_map.
    rewrite (map_ext_in _ (fun k => firstn 20 (skipn (k * 20) l))).
    + rewrite chunks_concat. apply firstn_all2. lia.
    + intros k Hk. apply in_seq in Hk. rewrite page_items_eq. cbv zeta. fold n.
      replace (Z.to_nat (Z.max 1 (Z.min (Z.of_nat (S k)) n) - 1)) with k by lia.
      reflexivity.
  - intros p Hp. rewrite page_items_eq. cbv zeta. fold n.
    rewrite length_firstn, length_skipn.
    assert (Hne : l <> []).
    { intros ->. change n with 1%Z in Hp. lia. }
    specialize (H3 Hne). lia.
  - intros Hne. specialize (H3 Hne). rewrite page_items_eq. cbv zeta. fold n.
    rewrite length_firstn, length_skipn. lia.
  - intros p Hp. rewrite !page_items_eq. cbv zeta. fold n.
    f_equal. f_equal. lia.
  - intros p Hp. rewrite !page_items_eq. cbv zeta. fold n.
    f_equal. f_equal. lia.
Qed.
(* ===================================================================== *)
(** * Routes                                                              *)
(* ===================================================================== *)

Lemma keeps_inactive q j : filters_active q = false -> keeps q j = true.
Proof.
  unfold filters_active, keeps, keeps_others, keeps_salary, opt_keep.
  rewrite !orb_false_iff. intros [[[[[H1 H2] H3] H4] H5] H6].
  rewrite H1, H2, H3, H4, H6. cbn [negb orb andb].
  destruct (salary_range q) as [[lo hi]|]; [discriminate | reflexivity].
Qed.

(** What [index] and [api_jobs] hold after their call of
    [apply_filters]: the list returned and the list loaded, which has
    been sorted in place when no criterion was in effect. *)
Lemma filter_loaded_spec loaded q :
  filter_loaded loaded q
  = (list_sort date_key (newest_first q) (List.filter (keeps q) loaded),
     if filters_active q then loaded
     else list_sort date_key (newest_first q) loaded).
Proof.
  unfold filter_loaded.
  destruct (apply_filters_run q {[ 0%nat := loaded ]} 0%nat loaded)
    as (r & s' & E & Hr & Ha & _); [apply lookup_singleton_eq|].
  rewrite E, Hr. cbv [default from_option Datatypes.id]. f_equal.
  destruct (filters_active q) eqn:Ef.
  - destruct Ha as [_ Ha]. now rewrite Ha.
  - subst r. rewrite Hr. f_equal.
    apply filter_true. intros j. now apply keeps_inactive.
Qed.

Lemma filter_loaded_perm loaded q :
  Permutation (snd (filter_loaded loaded q)) loaded.
Proof.
  rewrite filter_loaded_spec. cbn [snd].
  destruct (filters_active q); [reflexivity | apply list_sort_perm].
Qed.

Lemma filter_loaded_in loaded q j :
  In j (fst (filter_loaded loaded q))
  <-> In j loaded /\ passes q j /\ keeps_salary q j = true.
Proof.
  rewrite filter_loaded_spec. cbn [fst].
  rewrite <- keeps_others_passes.
  rewrite <- (andb_true_iff (keeps_others q j) (keeps_salary q j)).
  fold (keeps q j). rewrite <- filter_In. split.
  - apply Permutation_in. apply list_sort_perm.
  - apply Permutation_in. symmetry. apply list_sort_perm.
Qed.

Lemma filter_loaded_length loaded q :
  (length (fst (filter_loaded loaded q)) <= length loaded)%nat
  /\ (filters_active q = false ->
      length (fst (filter_loaded loaded q)) = length loaded).
Proof.
  rewrite filter_loaded_spec. cbn [fst].
  rewrite (Permutation_length (list_sort_perm _ _ _)).
  split; [apply filter_length_le|].
  intros H. f_equal. apply filter_true. intros j. now apply keeps_inactive.
Qed.

Lemma in_firstn {A} (x : A) n l : In x (firstn n l) -> In x l.
Proof.
  intros H. rewrite <- (firstn_skipn n l). apply in_or_app. now left.
Qed.

Lemma in_skipn {A} (x : A) n l : In x (skipn n l) -> In x l.
Proof.
  intros H. rewrite <- (firstn_skipn n l). apply in_or_app. now right.
Qed.

Section RouteFacts.
Variable unescape : str -> result str.
Variable fromisoformat : str -> result pydatetime.
Variable parsedate_to_datetime : str -> result pydatetime.
Variable strptime : str -> str -> result pydatetime.
Variable strftime : datetime -> str -> str.

Local Abbreviation load_jobs' :=
  (load_jobs unescape fromisoformat parsedate_to_datetime strptime strftime).
Local Abbreviation index' :=
  (index unescape fromisoformat parsedate_to_datetime strptime strftime).
Local Abbreviation api_jobs' :=
  (api_jobs unescape fromisoformat parsedate_to_datetime strptime strftime).
Local Abbreviation job_detail' :=
  (job_detail unescape fromisoformat parsedate_to_datetime strptime strftime).
Local Abbreviation api_job_detail' :=
  (api_job_detail unescape fromisoformat parsedate_to_datetime strptime strftime).

(** every loaded job comes from the record at its position *)
Lemma load_jobs_origin file loaded j :
  load_jobs' file = Ret loaded -> In j loaded ->
  exists i raw,
    nth_error loaded i = Some j
    /\ (i < length loaded)%nat
    /\ load_one unescape fromisoformat parsedate_to_datetime strptime strftime
         (Z.of_nat i) raw = Ret j.
Proof.
  intros Hl Hin. destruct file as [raws|].
  2:{ inversion Hl. subst. destruct Hin. }
  cbn [load_jobs] in Hl.
  destruct (load_loop_nth _ _ _ _ _ _ _ _ Hl) as [Hlen Hnth].
  destruct (In_nth_error _ _ Hin) as [i Hi].
  assert (Hlt : (i < length loaded)%nat).
  { apply nth_error_Some. congruence. }
  destruct (nth_error raws i) as [raw|] eqn:Er.
  2:{ apply nth_error_None in Er. lia. }
  destruct (Hnth i raw Er) as (j' & Hj' & Hone).
  assert (j' = j) by congruence. subst j'.
  rewrite Z.add_0_l in Hone. now exists i, raw.
Qed.

(** every loaded job sits at the position its [id] names *)
Lemma load_jobs_position file loaded j :
  load_jobs' file = Ret loaded -> In j loaded ->
  (0 <= id j < Z.of_nat (length loaded))%Z
  /\ nth_error loaded (Z.to_nat (id j)) = Some j.
Proof.
  intros Hl Hin.
  destruct (load_jobs_origin file loaded j Hl Hin) as (i & raw & Hi & Hlt & Hone).
  apply load_one_id in Hone. rewrite Hone, Nat2Z.id. split; [lia | exact Hi].
Qed.

Lemma text_key_not_derived key : In key TEXT_KEYS -> ~ In key DERIVED_KEYS.
Proof.
  unfold TEXT_KEYS, DERIVED_KEYS. cbn [In].
  intros H. repeat (destruct H as [<-|H]; [intuition discriminate|]). destruct H.
Qed.

(** X17.  The answer of [/api/jobs]: [total] counts the jobs loaded,
    [filtered] counts the jobs listed and is at most [total], equal to
    it when no criterion is in effect; the jobs listed are the loaded
    jobs that pass the criteria, without their [_parsed_date]. *)
Theorem api_jobs_counts (file : option (list record)) (q : query)
    (loaded : list njob) :
  load_jobs' file = Ret loaded ->
  exists out,
    api_jobs' file q = Ret out
    /\ total out = Z.of_nat (length loaded)
    /\ filtered out = Z.of_nat (length (jobs_out out))
    /\ (0 <= filtered out <= total out)%Z
    /\ (filters_active q = false -> filtered out = total out)
    /\ (forall d, In d (jobs_out out) <->
          exists j, d = job_to_dict j /\ In j loaded /\ passes q j
                    /\ keeps_salary q j = true).
Proof.
  intros Hl. unfold api_jobs. rewrite Hl. cbn [bind].
  destruct (filter_loaded loaded q) as [filtered_jobs jobs] eqn:E.
  pose proof (filter_loaded_perm loaded q) as Hp.
  pose proof (filter_loaded_length loaded q) as [Hle Heq].
  pose proof (filter_loaded_in loaded q) as Hin.
  rewrite E in Hp, Hle, Heq, Hin. cbn [fst snd] in Hp, Hle, Heq, Hin.
  eexists. split; [reflexivity|]. cbn [total filtered jobs_out].
  rewrite length_map, (Permutation_length Hp).
  split; [reflexivity|]. split; [reflexivity|]. split; [lia|].
  split; [intros H; now rewrite (Heq H)|].
  intros d. rewrite in_map_iff. split.
  - intros (j & <- & Hj). exists j. split; [reflexivity|]. now apply Hin.
  - intros (j & -> & Hj). exists j. split; [reflexivity|]. now apply Hin.
Qed.

(** X18.  The context of the main page: the totals count the jobs
    loaded and the jobs that pass the criteria; the page shown lies in
    [1..total_pages], holds 20 jobs at most, all of them passing the
    criteria, and is empty only when no job passes; the sources and
    categories offered are those of all the jobs loaded, whatever the
    criteria and the sort order. *)
Theorem index_context_spec (file : option (list record)) (q : query) (page : Z)
    (loaded : list njob) :
  load_jobs' file = Ret loaded ->
  exists ctx,
    index' file q page = Ret ctx
    /\ total_jobs ctx = Z.of_nat (length loaded)
    /\ (0 <= filtered_count ctx <= total_jobs ctx)%Z
    /\ (filters_active q = false -> filtered_count ctx = total_jobs ctx)
    /\ (1 <= current_page ctx <= total_pages ctx)%Z
    /\ (length (page_jobs ctx) <= 20)%nat
    /\ (page_jobs ctx = [] <-> filtered_count ctx = 0%Z)
    /\ (forall j, In j (page_jobs ctx) ->
          In j loaded /\ passes q j /\ keeps_salary q j = true)
    /\ sources ctx = get_unique_sources loaded
    /\ categories ctx = get_unique_categories loaded
    /\ current ctx = q.
Proof.
  intros Hl. unfold index. rewrite Hl. cbn [bind].
  destruct (filter_loaded loaded q) as [filtered_jobs jobs] eqn:E.
  pose proof (filter_loaded_perm loaded q) as Hp.
  pose proof (filter_loaded_length loaded q) as [Hle Heq].
  pose proof (filter_loaded_in loaded q) as Hin.
  rewrite E in Hp, Hle, Heq, Hin. cbn [fst snd] in Hp, Hle, Heq, Hin.
  destruct (paginate filtered_jobs page) as [[paginated_jobs pages] page'] eqn:Ep.
  eexists. split; [reflexivity|].
  cbn [total_jobs filtered_count current_page total_pages page_jobs sources
       categories current].
  assert (Hitems : paginated_jobs = page_items filtered_jobs page).
  { unfold page_items. now rewrite Ep. }
  assert (Hpages : pages = page_count filtered_jobs).
  { unfold paginate in Ep. inversion Ep. reflexivity. }
  assert (Hpage : page' = Z.max 1 (Z.min page pages)).
  { unfold paginate in Ep. inversion Ep. reflexivity. }
  destruct (page_count_bounds filtered_jobs) as (B1 & B2 & B3).
  rewrite <- Hpages in B1, B2, B3.
  assert (Hlen : length paginated_jobs
                 = Nat.min 20 (length filtered_jobs - Z.to_nat (page' - 1) * 20)).
  { rewrite Hitems, page_items_eq. cbv zeta. rewrite <- Hpages, <- Hpage.
    now rewrite length_firstn, length_skipn. }
  rewrite (Permutation_length Hp).
  split; [reflexivity|]. split; [lia|].
  split; [intros H; now rewrite (Heq H)|].
  split; [lia|]. split; [lia|]. split; [|split; [|split; [|split]]].
  - split.
    + intros H0. rewrite H0 in Hlen. cbn [length] in Hlen.
      destruct filtered_jobs as [|j0 l0]; [reflexivity|].
      assert (Hne : j0 :: l0 <> []) by discriminate.
      specialize (B3 Hne). lia.
    + intros H0. destruct paginated_jobs; [reflexivity|]. cbn [length] in Hlen. lia.
  - intros j Hj. apply Hin. rewrite Hitems, page_items_eq in Hj. cbv zeta in Hj.
    apply in_firstn in Hj. eapply in_skipn. exact Hj.
  - now apply sources_perm.
  - now apply categories_perm.
  - reflexivity.
Qed.

(** X19.  Every job listed is served under its [id]: a job on a page of
    [index] is the job [job_detail] renders for its [id], and an object
    in the list of [/api/jobs] is the object [/api/job/<id>] answers
    for its [id]. *)
Theorem listed_jobs_are_served (file : option (list record)) (q : query)
    (page : Z) ctx out :
  index' file q page = Ret ctx ->
  api_jobs' file q = Ret out ->
  (forall j, In j (page_jobs ctx) ->
     job_detail' file (id j) = Ret (Rendered "job_detail.html" j))
  /\ (forall d, In d (jobs_out out) ->
        api_job_detail' file (d_id d) = Ret (JsonJob d 200)).
Proof.
  intros Hi Ha.
  destruct (load_jobs' file) as [loaded|e] eqn:Hl.
  2:{ unfold index in Hi. rewrite Hl in Hi. discriminate. }
  assert (Hserve : forall j, In j (fst (filter_loaded loaded q)) ->
            (0 <=? id j)%Z && (id j <? Z.of_nat (length loaded))%Z = true
            /\ nth_error loaded (Z.to_nat (id j)) = Some j).
  { intros j Hj. apply filter_loaded_in in Hj. destruct Hj as [Hj _].
    destruct (load_jobs_position file loaded j Hl Hj) as [Hr Hn].
    split; [|exact Hn].
    apply andb_true_iff. split; [apply Z.leb_le | apply Z.ltb_lt]; lia. }
  unfold index in Hi. unfold api_jobs in Ha. rewrite Hl in Hi, Ha.
  cbn [bind] in Hi, Ha.
  destruct (filter_loaded loaded q) as [filtered_jobs jobs]. cbn [fst] in Hserve.
  split.
  - destruct (paginate filtered_jobs page) as [[paginated_jobs pages] page'] eqn:Ep.
    inversion Hi. subst ctx. cbn [page_jobs]. intros j Hj.
    assert (Hj' : In j filtered_jobs).
    { unfold paginate in Ep. inversion Ep. subst paginated_jobs.
      unfold slice in Hj. apply in_firstn in Hj. now apply in_skipn in Hj. }
    destruct (Hserve j Hj') as [Hr Hn].
    unfold job_detail. rewrite Hl. cbn [bind]. now rewrite Hr, Hn.
  - inversion Ha. subst out. cbn [jobs_out]. intros d Hd.
    apply in_map_iff in Hd. destruct Hd as (j & <- & Hj').
    destruct (Hserve j Hj') as [Hr Hn].
    unfold api_job_detail. rewrite Hl. cbn [bind].
    change (d_id (job_to_dict j)) with (id j). now rewrite Hr, Hn.
Qed.

(** X20.  The page of a job and its JSON object go together: for every
    file and every id, [job_detail] renders a job exactly when
    [api_job_detail] answers with that job's object and status 200, says
    [Job not found] with status 404 exactly when the other does, and
    raises exactly when the other raises. *)
Theorem job_detail_agrees (file : option (list record)) (job_id : Z) :
  match job_detail' file job_id with
  | Ret (Rendered template j) =>
      template = "job_detail.html"%string
      /\ api_job_detail' file job_id = Ret (JsonJob (job_to_dict j) 200)
  | Ret (Text body status) =>
      body = u "Job not found" /\ status = 404%Z
      /\ api_job_detail' file job_id = Ret (JsonError (u "Job not found") 404)
  | Raise e => api_job_detail' file job_id = Raise e
  end.
Proof.
  unfold job_detail, api_job_detail.
  destruct (load_jobs' file) as [loaded|e]; cbn [bind]; [|reflexivity].
  destruct ((0 <=? job_id)%Z && (job_id <? Z.of_nat (length loaded))%Z).
  - destruct (nth_error loaded (Z.to_nat job_id)); [split|]; reflexivity.
  - repeat split.
Qed.

(** X23.  No job that is served holds a tag or a null in a text
    member: in every loaded job, each of the eight text members that is
    present is a string, and it is free of tags. *)
Theorem load_jobs_text_clean (file : option (list record)) (loaded : list njob)
    (j : njob) (key : string) :
  load_jobs' file = Ret loaded -> In j loaded -> In key TEXT_KEYS ->
  fields j !! key = None
  \/ exists t, fields j !! key = Some (Some t) /\ no_tag t = true.
Proof.
  intros Hl Hj Hkey.
  destruct (load_jobs_origin file loaded j Hl Hj) as (i & raw & _ & _ & Hone).
  unfold load_one in Hone.
  destruct (normalize_job_text unescape raw) as [cleaned|] eqn:En; [|discriminate].
  cbn [bind] in Hone.
  destruct (parse_date _ _ _ cleaned) as [pd|]; [|discriminate]. cbn [bind] in Hone.
  destruct (parse_salary_monthly cleaned) as [sal|]; [|discriminate].
  cbn [bind] in Hone. inversion Hone. cbn [fields].
  rewrite (without_derived_lookup _ _ (text_key_not_derived _ Hkey)).
  destruct (normalize_keys_spec unescape _ _ _ TEXT_KEYS_nodup En) as [_ Hin].
  specialize (Hin key Hkey).
  destruct (raw !! key) as [value|]; [|now left].
  destruct Hin as (t & Ht & ->). right. exists t. split; [reflexivity|].
  destruct value as [v|].
  - now apply (clean_text_no_tag unescape v).
  - inversion Ht. reflexivity.
Qed.

End RouteFacts.

Lemma sample_file_loads :
  load_jobs Html.unescape Lib.fromisoformat Lib.parsedate_to_datetime
    Lib.strptime Lib.strftime (Some sample_file) = Ret sample_loaded.
Proof. vm_compute. reflexivity. Qed.

Lemma api_jobs_counts_witness :
  exists out,
    api_jobs Html.unescape Lib.fromisoformat Lib.parsedate_to_datetime
      Lib.strptime Lib.strftime (Some sample_file)
      (with_search (no_filters []) (u "DEV")) = Ret out
    /\ total out = Z.of_nat (length sample_loaded)
    /\ filtered out = Z.of_nat (length (jobs_out out))
    /\ (0 <= filtered out <= total out)%Z
    /\ (filters_active (with_search (no_filters []) (u "DEV")) = false ->
        filtered out = total out)
    /\ (forall d, In d (jobs_out out) <->
          exists j, d = job_to_dict j /\ In j sample_loaded
                    /\ passes (with_search (no_filters []) (u "DEV")) j
                    /\ keeps_salary (with_search (no_filters []) (u "DEV")) j = true).
Proof.
  apply (api_jobs_counts Html.unescape Lib.fromisoformat
           Lib.parsedate_to_datetime Lib.strptime Lib.strftime (Some sample_file)
           (with_search (no_filters []) (u "DEV")) sample_loaded).
  vm_compute. reflexivity.
Defined.

Lemma index_context_spec_witness :
  exists ctx,
    index Html.unescape Lib.fromisoformat Lib.parsedate_to_datetime
      Lib.strptime Lib.strftime (Some sample_file) (only_salary (u "2000to5000")) 7
    = Ret ctx
    /\ total_jobs ctx = Z.of_nat (length sample_loaded)
    /\ (0 <= filtered_count ctx <= total_jobs ctx)%Z
    /\ (filters_active (only_salary (u "2000to5000")) = false ->
        filtered_count ctx = total_jobs ctx)
    /\ (1 <= current_page ctx <= total_pages ctx)%Z
    /\ (length (page_jobs ctx) <= 20)%nat
    /\ (page_jobs ctx = [] <-> filtered_count ctx = 0%Z)
    /\ (forall j, In j (page_jobs ctx) ->
          In j sample_loaded /\ passes (only_salary (u "2000to5000")) j
          /\ keeps_salary (only_salary (u "2000to5000")) j = true)
    /\ sources ctx = get_unique_sources sample_loaded
    /\ categories ctx = get_unique_categories sample_loaded
    /\ current ctx = only_salary (u "2000to5000").
Proof.
  apply (index_context_spec Html.unescape Lib.fromisoformat
           Lib.parsedate_to_datetime Lib.strptime Lib.strftime (Some sample_file)
           (only_salary (u "2000to5000")) 7 sample_loaded).
  vm_compute. reflexivity.
Defined.

Lemma listed_jobs_are_served_witness :
  exists ctx out,
    index Html.unescape Lib.fromisoformat Lib.parsedate_to_datetime
      Lib.strptime Lib.strftime (Some sample_file) (no_filters []) 1 = Ret ctx
    /\ api_jobs Html.unescape Lib.fromisoformat Lib.parsedate_to_datetime
         Lib.strptime Lib.strftime (Some sample_file) (no_filters []) = Ret out
    /\ length (page_jobs ctx) = 2%nat
    /\ (forall j, In j (page_jobs ctx) ->
          job_detail Html.unescape Lib.fromisoformat Lib.parsedate_to_datetime
            Lib.strptime Lib.strftime (Some sample_file) (id j)
          = Ret (Rendered "job_detail.html" j))
    /\ (forall d, In d (jobs_out out) ->
          api_job_detail Html.unescape Lib.fromisoformat Lib.parsedate_to_datetime
            Lib.strptime Lib.strftime (Some sample_file) (d_id d)
          = Ret (JsonJob d 200)).
Proof.
  eexists. eexists.
  split; [vm_compute; reflexivity|]. split; [vm_compute; reflexivity|].
  split; [reflexivity|].
  apply (listed_jobs_are_served Html.unescape Lib.fromisoformat
           Lib.parsedate_to_datetime Lib.strptime Lib.strftime (Some sample_file)
           (no_filters []) 1); vm_compute; reflexivity.
Defined.

Lemma load_jobs_text_clean_witness :
  fields (nth 0 sample_loaded design_job) !! "title"%string = None
  \/ exists t, fields (nth 0 sample_loaded design_job) !! "title"%string
               = Some (Some t)
               /\ no_tag t = true.
Proof.
  apply (load_jobs_text_clean Html.unescape Lib.fromisoformat
           Lib.parsedate_to_datetime Lib.strptime Lib.strftime (Some sample_file)
           sample_loaded (nth 0 sample_loaded design_job) "title").
  - vm_compute. reflexivity.
  - left. reflexivity.
  - cbn. auto.
Defined.
(* ===================================================================== *)
(** * The template filter [truncate_words]                                *)
(* ===================================================================== *)

Lemma split_word w : wordy w -> split w = [w].
Proof.
  intros H. pose proof (split_join [w] ltac:(now constructor)) as E.
  exact E.
Qed.

Lemma wordy_head_not_space c t : wordy (c :: t) -> is_space c = false.
Proof. intros [_ H]. now inversion H. Qed.

(** the words of a single-spaced line to whose last word [t] is glued *)
Lemma split_join_glued ws : forall w t,
  Forall wordy ws -> wordy w -> wordy t ->
  split (join SP (ws ++ [w]) ++ t) = ws ++ [w ++ t].
Proof.
  induction ws as [|x ws IH]; intros w t Hws Hw Ht.
  - cbn [app join]. rewrite (split_app_word _ _ Hw).
    destruct t as [|c t']; [destruct Ht; congruence|].
    rewrite (wordy_head_not_space _ _ Ht), (split_word _ Ht). reflexivity.
  - inversion Hws as [|? ? Hx Hws']; subst.
    cbn [app]. rewrite join_cons.
    destruct (ws ++ [w]) as [|y r] eqn:E; [destruct ws; discriminate|].
    rewrite <- E. rewrite <- !app_assoc. rewrite (split_app_word _ _ Hx).
    cbn [SP app]. replace (is_space " ") with true by reflexivity.
    rewrite split_space by reflexivity.
    now rewrite IH.
Qed.

Lemma firstn_snoc {A} (d : A) k : forall l,
  (k < length l)%nat -> firstn (S k) l = firstn k l ++ [nth k l d].
Proof.
  induction k as [|k IH]; intros [|x l] H; cbn [length] in H; try lia.
  - reflexivity.
  - cbn [firstn nth app]. f_equal. apply IH. lia.
Qed.

(** X21.  [truncate_words] leaves a text of at most [length] words as
    it is, whitespace included; a longer text becomes its first
    [length] words separated by single spaces, with three points glued
    to the last of them, so that the result still has [length] words.
    With [length] 0 the result is the three points alone, and a
    negative [length] cuts that many words off the end instead.  No
    text, or an empty one, gives the empty string. *)
Theorem truncate_words_spec (text : str) (n : Z) :
  let words := split text in
  let count := Z.of_nat (length words) in
  truncate_words None n = []
  /\ truncate_words (Some []) n = []
  /\ ((count <= n)%Z -> truncate_words (Some text) n = text)
  /\ ((0 <= n < count)%Z ->
      truncate_words (Some text) n
      = join SP (firstn (Z.to_nat n) words) ++ u "...")
  /\ ((1 <= n < count)%Z ->
      split (truncate_words (Some text) n)
      = firstn (Z.to_nat n - 1) words
        ++ [nth (Z.to_nat n - 1) words [] ++ u "..."])
  /\ ((n < 0)%Z -> text <> [] ->
      truncate_words (Some text) n
      = join SP (firstn (length words - Z.to_nat (- n)) words) ++ u "...").
Proof.
  intros words count.
  assert (Hun : text <> [] ->
            truncate_words (Some text) n
            = if (count <=? n)%Z then text
              else join SP (take_upto words n) ++ u "...").
  { intros Hne. destruct text; [congruence | reflexivity]. }
  assert (Hne : (0 < count)%Z -> text <> []).
  { intros H ->. cbn in count. lia. }
  assert (Hlong : (0 <= n < count)%Z ->
            truncate_words (Some text) n
            = join SP (firstn (Z.to_nat n) words) ++ u "...").
  { intros Hn. rewrite Hun by (apply Hne; lia).
    destruct (Z.leb_spec count n) as [H|_]; [lia|].
    unfold take_upto. destruct (Z.leb_spec 0 n) as [_|H]; [reflexivity | lia]. }
  split; [reflexivity|]. split; [reflexivity|]. split; [|split; [exact Hlong|split]].
  - intros Hn. destruct text as [|c t] eqn:Et; [reflexivity|].
    rewrite Hun by discriminate.
    destruct (Z.leb_spec count n) as [_|H]; [reflexivity | lia].
  - intros Hn. rewrite Hlong by lia.
    destruct (Z.to_nat n) as [|k] eqn:Ek; [lia|].
    replace (S k - 1)%nat with k by lia.
    assert (Hk : (k < length words)%nat) by lia.
    rewrite (firstn_snoc (A:=str) [] k words Hk).
    assert (Hw : Forall wordy words) by apply split_wordy.
    apply split_join_glued.
    + rewrite <- (firstn_skipn k words) in Hw.
      now apply Forall_app in Hw.
    + rewrite List.Forall_forall in Hw. apply Hw. now apply nth_In.
    + split; [discriminate|]. repeat constructor.
  - intros Hn Htext. rewrite Hun by exact Htext.
    destruct (Z.leb_spec count n) as [H|_]; [lia|].
    unfold take_upto. destruct (Z.leb_spec 0 n) as [H|_]; [lia|].
    do 3 f_equal. lia.
Qed.

(* ===================================================================== *)
(** * Salary parser: no estimate without a digit                          *)
(* ===================================================================== *)

Lemma match_group_within s g rest :
  Re.match_group (fst _SALARY_NUM_RE) (snd _SALARY_NUM_RE) s = Some (g, rest) ->
  exists pre0, s = pre0 ++ g ++ rest.
Proof.
  unfold Re.match_group. intros H.
  apply mtch_sound in H. destruct H as (pre0 & s1 & -> & _ & H).
  apply mtch_sound in H. destruct H as (pre & s2 & -> & _ & H).
  inversion H. subst rest. clear H.
  rewrite length_app, Nat.add_sub, firstn_app, Nat.sub_diag, firstn_all.
  cbn [firstn]. rewrite app_nil_r. now exists pre0.
Qed.

Lemma findall_salary_within s : forall k,
  Forall (fun g => forall c, In c g -> In c s)
    (Re.findall_aux (fst _SALARY_NUM_RE) (snd _SALARY_NUM_RE) k s).
Proof.
  induction s as [|c s IH]; intros k.
  - cbn [Re.findall_aux].
    destruct (Re.match_group _ _ []) as [[g rest]|] eqn:E; [|constructor].
    constructor; [|constructor].
    apply match_group_within in E. destruct E as [pre0 E].
    symmetry in E. apply app_eq_nil in E as [_ E]. apply app_eq_nil in E as [-> _].
    intros x [].
  - assert (Hw : forall k', Forall (fun g => forall x, In x g -> In x (c :: s))
             (Re.findall_aux (fst _SALARY_NUM_RE) (snd _SALARY_NUM_RE) k' s)).
    { intros k'. eapply List.Forall_impl; [|apply IH].
      intros g Hg x Hx. right. now apply Hg. }
    cbn [Re.findall_aux]. destruct k as [|k]; [|apply Hw].
    destruct (Re.match_group _ _ (c :: s)) as [[g rest]|] eqn:E; [|apply Hw].
    constructor; [|apply Hw].
    apply match_group_within in E. destruct E as [pre0 E].
    intros x Hx. rewrite E. apply in_or_app. right. apply in_or_app. now left.
Qed.

Lemma lstrip_within s c : In c (lstrip s) -> In c s.
Proof.
  induction s as [|x s IH]; [auto|].
  cbn [lstrip]. destruct (is_space x); [|auto]. intros H. right. now apply IH.
Qed.

Lemma strip_within s c : In c (strip s) -> In c s.
Proof.
  unfold strip. intros H. apply in_rev in H. apply lstrip_within in H.
  apply in_rev in H. now apply lstrip_within in H.
Qed.

(** a token without a digit is made of commas and is dropped *)
Lemma salary_token_no_digit g :
  salary_token g -> (forall c, In c g -> is_digit c = false) ->
  strip (replace (u ",") [] g) = [].
Proof.
  intros (a & b & -> & _ & Ha & Hb) Hnd.
  destruct Hb as [->|(d & -> & Hdne & Hd)].
  - rewrite app_nil_r in *. rewrite replace_comma.
    replace (List.filter (fun c => negb (ch_eqb "," c)) a) with (@nil ascii);
      [reflexivity|].
    symmetry. induction Ha as [|c a Hc Ha IH]; [reflexivity|].
    cbn [List.filter]. rewrite (Hnd c (or_introl eq_refl)) in Hc.
    cbn [orb] in Hc. rewrite Hc. cbn [negb].
    apply IH. intros x Hx. apply Hnd. now right.
  - exfalso. destruct d as [|c d]; [congruence|].
    inversion Hd as [|? ? Hc _]; subst.
    rewrite Hnd in Hc; [discriminate|].
    apply in_or_app. right. right. now left.
Qed.

Lemma salary_nums_no_digit tokens :
  Forall salary_token tokens ->
  Forall (fun g => forall c, In c g -> is_digit c = false) tokens ->
  salary_nums tokens = Ret [].
Proof.
  induction 1 as [|g tokens Hg _ IH]; intros Hnd; [reflexivity|].
  inversion Hnd as [|? ? Hd Hnd']; subst.
  cbn [salary_nums]. rewrite (salary_token_no_digit g Hg Hd).
  cbn [nonempty bind app]. now rewrite (IH Hnd').
Qed.

(** X22.  No estimate without a digit: when the parser returns a
    monthly salary, the salary text holds a digit. *)
Theorem parse_salary_monthly_needs_digit (job : record) (v : float) :
  parse_salary_monthly job = Ret (Some v) ->
  exists c, In c (get_or_empty job "salary") /\ is_digit c = true.
Proof.
  intros H.
  destruct (existsb is_digit (get_or_empty job "salary")) eqn:E.
  { apply existsb_exists in E. exact E. }
  exfalso.
  assert (Hnd : forall c, In c (get_or_empty job "salary") -> is_digit c = false).
  { intros c Hc. destruct (is_digit c) eqn:Ec; [|reflexivity].
    assert (existsb is_digit (get_or_empty job "salary") = true)
      by (apply existsb_exists; now exists c).
    congruence. }
  unfold parse_salary_monthly in H.
  set (raw := strip (get_or_empty job "salary")) in *.
  destruct (nonempty raw); cbn [negb] in H; [|discriminate].
  destruct (salary_skipped (lower raw)); [discriminate|].
  rewrite salary_nums_no_digit in H; [discriminate | apply findall_salary_tokens |].
  eapply List.Forall_impl; [|apply findall_salary_within].
  intros g Hg c Hc. apply Hnd. apply strip_within. now apply Hg.
Qed.

Lemma parse_salary_monthly_needs_digit_witness :
  exists c, In c (get_or_empty {[ "salary"%string := Some (u "$1,500 - $2,000") ]} "salary")
            /\ is_digit c = true.
Proof.
  apply (parse_salary_monthly_needs_digit
           {[ "salary"%string := Some (u "$1,500 - $2,000") ]} (of_Z 1750)).
  vm_compute. reflexivity.
Defined.
(* ===================================================================== *)
(** * Salary brackets                                                     *)
(* ===================================================================== *)

Lemma ltb_leb_positive m e mc ec :
  ltb (S754_finite false m e) (S754_finite false mc ec)
  = negb (leb (S754_finite false mc ec) (S754_finite false m e)).
Proof.
  unfold ltb, leb, SFltb, SFleb. cbn [SFcompare].
  rewrite (Z.compare_antisym e ec).
  change (Pos.compare_cont Eq mc m) with (Pos.compare mc m).
  change (Pos.compare_cont Eq m mc) with (Pos.compare m mc).
  rewrite (Pos.compare_antisym m mc).
  destruct (e ?= ec)%Z; cbn [CompOpp negb]; try reflexivity.
  destruct (m ?= mc)%positive; reflexivity.
Qed.

(** a smaller bound is passed whenever a larger one is *)
Lemma leb_positive_mono mb eb ma ea m e :
  SFcompare (S754_finite false mb eb) (S754_finite false ma ea) = Some Lt ->
  leb (S754_finite false ma ea) (S754_finite false m e) = true ->
  leb (S754_finite false mb eb) (S754_finite false m e) = true.
Proof.
  unfold leb, SFleb. cbn [SFcompare].
  change (Pos.compare_cont Eq mb ma) with (Pos.compare mb ma).
  change (Pos.compare_cont Eq ma m) with (Pos.compare ma m).
  change (Pos.compare_cont Eq mb m) with (Pos.compare mb m).
  destruct (Z.compare_spec eb ea), (Z.compare_spec ea e), (Z.compare_spec eb e);
    try (intros; reflexivity); try (intros; discriminate); try (exfalso; lia).
  destruct (Pos.compare_spec mb ma), (Pos.compare_spec ma m),
    (Pos.compare_spec mb m);
    try (intros; reflexivity); try (intros; discriminate); exfalso; lia.
Qed.

Lemma brackets_of_positive j m e :
  _salary_monthly j = Some (S754_finite false m e) ->
  length (brackets_of j) = 1%nat.
Proof.
  intros H. unfold brackets_of, keep_salary. rewrite H.
  unfold SALARY_RANGES, inf.
  repeat match goal with
  | |- context [of_Z ?n] =>
      let c := eval vm_compute in (of_Z n) in change (of_Z n) with c
  end.
  cbn [List.filter fst snd].
  change (leb (S754_zero false) (S754_finite false m e)) with true.
  change (ltb (S754_finite false m e) (S754_infinity false)) with true.
  rewrite !ltb_leb_positive.
  pose proof (leb_positive_mono 8796093022208000 (-44) 8796093022208000 (-43)
                m e eq_refl) as H12.
  pose proof (leb_positive_mono 8796093022208000 (-43) 8796093022208000 (-42)
                m e eq_refl) as H23.
  pose proof (leb_positive_mono 8796093022208000 (-42) 5497558138880000 (-40)
                m e eq_refl) as H34.
  repeat match goal with
  | |- context [leb (S754_finite false ?mc ?ec) (S754_finite false m e)] =>
      let p := fresh "p" in
      set (p := leb (S754_finite false mc ec) (S754_finite false m e)) in *;
      clearbody p
  end.
  cbn [fst snd].
  repeat match goal with p : bool |- _ => destruct p end;
    try reflexivity;
    solve [ discriminate (H12 eq_refl) | discriminate (H23 eq_refl)
          | discriminate (H34 eq_refl) ].
Qed.

Lemma brackets_of_other j :
  match _salary_monthly j with
  | Some (S754_finite false _ _) => False
  | _ => True
  end ->
  length (brackets_of j)
  = match _salary_monthly j with
    | Some v => if is_finite_nonneg v then 1%nat else 0%nat
    | None => 0%nat
    end.
Proof.
  unfold brackets_of, keep_salary.
  destruct (_salary_monthly j) as [[s|s| |s m e]|]; try destruct s;
    intros H; try destruct H; reflexivity.
Qed.

(** X24.  The salary brackets partition the finite salaries: a job whose
    monthly salary is zero or a positive finite number is accepted by
    exactly one bracket of [SALARY_RANGES], and a job without a salary,
    or whose salary is infinite, by none; a salary filter naming a
    bracket keeps a job exactly when that bracket accepts it. *)
Theorem salary_brackets_partition (q : query) (j : njob) :
  length (brackets_of j)
  = match _salary_monthly j with
    | Some v => if is_finite_nonneg v then 1%nat else 0%nat
    | None => 0%nat
    end
  /\ forall key lo hi,
       range_of key SALARY_RANGES = Some (lo, hi) ->
       (keeps_salary (with_salary_filter q key) j = true
        <-> In (key, (lo, hi)) (brackets_of j)).
Proof.
  split.
  - pose proof (brackets_of_other j) as Ho.
    destruct (_salary_monthly j) as [[s|s| |s m e]|] eqn:E;
      try (apply Ho; exact I).
    destruct s; [apply Ho; exact I|].
    now apply (brackets_of_positive j m e).
  - intros key lo hi Hr. unfold brackets_of. rewrite filter_In. cbn [fst snd].
    assert (Hin : In (key, (lo, hi)) SALARY_RANGES).
    { destruct (proj1 (salary_ranges_table key lo hi) Hr)
        as [(-> & -> & ->)|[(-> & -> & ->)|[(-> & -> & ->)|[(-> & -> & ->)
           |(-> & -> & ->)]]]]; cbn; auto 10. }
    assert (Hs : salary_range (with_salary_filter q key) = Some (lo, hi)).
    { unfold salary_range. cbn [with_salary_filter salary_filter].
      destruct key as [|c key]; [discriminate Hr | exact Hr]. }
    unfold keeps_salary. rewrite Hs. tauto.
Qed.
